(** * Kysely: the PostgreSQL driver, its connection wrapper and the
      drop-constraint node

    A shallow embedding of

    - [src/dialect/postgres/postgres-driver.ts]
      (classes [PostgresDriver] and [PostgresConnection]),
    - [src/dialect/postgres/postgres-dialect-pool-config.ts] and
      [src/dialect/postgres/postgres-dialect-client-config.ts]
      (the two shapes of the dialect configuration),
    - [src/operation-node/drop-constraint-node.ts].

    Modelling decisions.

    - The native [pg] client (pool, client, cursor, the user's factories and
      the [onCreateConnection] hook) is an external collaborator.  It is a
      record of transition functions over an arbitrary state [W]; every
      theorem about the driver is quantified over that record, so it holds
      whatever the native side answers (including rejections).
    - Every native call is appended to a trace of [Event]s; "invoked n
      times" is a count over that trace.
    - An [await] of a rejected promise is an exception, modelled by the
      [Rejected] outcome.  The user's callbacks (the factories and the hook)
      answer like native calls and do not call back into the driver.
    - [async] methods are given as a whole ([init], [acquireConnection],
      ..., run by [perform_all]): the call run from its start to its
      settlement with no other call in between.  [init] and
      [acquireConnection], which assign to the driver's fields after an
      [await], are also given cut at their [await]s ([start], [resume], run
      by [schedule]), so that calls can overlap; the method as a whole is
      the schedule that overlaps nothing ([sequential_is_perform_all]).
    - The async generator of [streamQuery] is a state machine driven by the
      requests of its consumer: [next()], [return()] (what leaving a
      [for await] loop early sends) and [throw()].
    - Objects with identity (wrappers, native handles, pools, cursors) are
      references; wrappers live in a heap so that "the same wrapper
      instance" is equality of references.
    - A JavaScript [number] is a rational or one of NaN, +Infinity,
      -Infinity: every finite double is a rational, so what is proved for
      all rationals holds for all doubles. *)

From Stdlib Require Import ZArith QArith Qround Lia String List.
From stdpp Require Import base option list gmap strings.
Import ListNotations.

Close Scope Q_scope.
Local Open Scope string_scope.
Local Open Scope list_scope.
Local Open Scope nat_scope.

(** ** JavaScript values used by the driver *)

Module Js.

(** A [number]. *)
Inductive JsNumber :=
| Finite (q : Q)
| NaN
| PosInfinity
| NegInfinity.

(** [Number.isInteger(x)]: finite and without a fractional part. *)
Definition Number_isInteger (x : JsNumber) : bool :=
  match x with
  | Finite q => Pos.eqb (Qden (Qred q)) 1
  | _ => false
  end.

(** [x <= 0] on numbers (false whenever an operand is NaN). *)
Definition le_zero (x : JsNumber) : bool :=
  match x with
  | Finite q => Qle_bool q 0
  | NegInfinity => true
  | NaN | PosInfinity => false
  end.

(** The number that represents the integer [z]. *)
Definition of_Z (z : Z) : JsNumber := Finite (inject_Z z).

(** Errors thrown or rejected with.  [stack] is the list of call sites
    recorded on the error, innermost first. *)
Inductive ErrorKind := PlainError | TypeError | RangeError | NativeFailure.

Record JsError := mkError {
  kind_of : ErrorKind;
  message : string;
  stack : list string;
}.

(** [BigInt(x)] for [x] a number, [null] or [undefined] ([None]):
    the exact integer for an integral number, a [RangeError] for any other
    number, a [TypeError] for [null] and [undefined]. *)
Definition BigInt (x : option JsNumber) : JsError + Z :=
  match x with
  | None => inl (mkError TypeError "Cannot convert null to a BigInt" [])
  | Some (Finite q) =>
      if Number_isInteger (Finite q) then inr (Qnum (Qred q))
      else inl (mkError RangeError
                  "The number cannot be converted to a BigInt because it is not an integer" [])
  | Some _ =>
      inl (mkError RangeError
             "The number cannot be converted to a BigInt because it is not an integer" [])
  end.

(** A bound parameter of a compiled query. *)
Inductive JsValue :=
| VNull
| VBool (b : bool)
| VNumber (n : JsNumber)
| VString (s : string).

End Js.
Import Js.

(** ** The native side and the trace of native calls *)

(** Object identities.  A wrapper is an index into the heap of wrappers. *)
Abbreviation PoolRef := positive (only parsing).
Abbreviation ClientRef := positive (only parsing).
Abbreviation CursorRef := positive (only parsing).
Abbreviation CursorCtor := positive (only parsing).
Abbreviation ConnRef := nat (only parsing).

(** A settled promise (or a call that returned or threw). *)
Inductive Outcome (A : Type) :=
| Resolved (a : A)
| Rejected (e : JsError).
Arguments Resolved {A} a.
Arguments Rejected {A} e.

(** What [client.query(sql, params)] resolves to. *)
Record PgResult (O : Type) := mkPgResult {
  command : string;
  rowCount : option JsNumber;
  pg_rows : option (list O);
}.
Arguments mkPgResult {O}.
Arguments command {O}.
Arguments rowCount {O}.
Arguments pg_rows {O}.

(** One native call. *)
Inductive Event :=
| EvPoolFactory                          (* config.pool() *)
| EvClientFactory                        (* config.client() *)
| EvPoolConnect (p : PoolRef)            (* pool.connect() *)
| EvClientConnect (c : ClientRef)        (* client.connect() *)
| EvOnCreateConnection (conn : ConnRef) (c : ClientRef)
                                         (* config.onCreateConnection(connection),
                                            connection being the wrapper of c *)
| EvQuery (c : ClientRef) (sql : string) (params : list JsValue)
| EvCursorNew (ctor : CursorCtor) (sql : string) (params : list JsValue)
| EvQueryCursor (c : ClientRef) (cur : CursorRef)
| EvCursorRead (cur : CursorRef) (n : JsNumber)
| EvCursorClose (cur : CursorRef)
| EvRelease (c : ClientRef)              (* client.release() *)
| EvPoolEnd (p : PoolRef)                (* pool.end() *)
| EvClientEnd (c : ClientRef).           (* client.end() *)

(** The behaviour of the native side: each call reads and updates the
    native state [W] and settles. *)
Record Native (O W : Type) := mkNative {
  pool_factory : W → Outcome PoolRef * W;
  client_factory : W → Outcome ClientRef * W;
  pool_connect : PoolRef → W → Outcome ClientRef * W;
  client_connect : ClientRef → W → Outcome unit * W;
  on_create_connection : ConnRef → W → Outcome unit * W;
  client_query : ClientRef → string → list JsValue → W → Outcome (PgResult O) * W;
  cursor_new : CursorCtor → string → list JsValue → W → Outcome CursorRef * W;
  client_query_cursor : ClientRef → CursorRef → W → Outcome CursorRef * W;
  cursor_read : CursorRef → JsNumber → W → Outcome (list O) * W;
  cursor_close : CursorRef → W → Outcome unit * W;
  has_release : ClientRef → bool;        (* client.release !== undefined *)
  client_release : ClientRef → W → Outcome unit * W;
  pool_end : PoolRef → W → Outcome unit * W;
  client_end : ClientRef → W → Outcome unit * W;
}.
Arguments mkNative {O W}.
Arguments pool_factory {O W}.
Arguments client_factory {O W}.
Arguments pool_connect {O W}.
Arguments client_connect {O W}.
Arguments on_create_connection {O W}.
Arguments client_query {O W}.
Arguments cursor_new {O W}.
Arguments client_query_cursor {O W}.
Arguments cursor_read {O W}.
Arguments cursor_close {O W}.
Arguments has_release {O W}.
Arguments client_release {O W}.
Arguments pool_end {O W}.
Arguments client_end {O W}.

(** Counting the events of a trace that satisfy a test. *)
Fixpoint count (p : Event → bool) (tr : list Event) : nat :=
  match tr with
  | [] => 0
  | ev :: tr' => (if p ev then 1 else 0) + count p tr'
  end.

Definition is_pool_factory (ev : Event) : bool :=
  match ev with EvPoolFactory => true | _ => false end.
Definition is_client_factory (ev : Event) : bool :=
  match ev with EvClientFactory => true | _ => false end.
Definition is_cursor_close (ev : Event) : bool :=
  match ev with EvCursorClose _ => true | _ => false end.
Definition is_cursor_read (ev : Event) : bool :=
  match ev with EvCursorRead _ _ => true | _ => false end.
Definition is_pool_end (ev : Event) : bool :=
  match ev with EvPoolEnd _ => true | _ => false end.
Definition is_client_end (ev : Event) : bool :=
  match ev with EvClientEnd _ => true | _ => false end.
Definition is_hook (ev : Event) : bool :=
  match ev with EvOnCreateConnection _ _ => true | _ => false end.
(** The hook is called on the wrapper of the native handle [h]. *)
Definition is_hook_for (h : ClientRef) (ev : Event) : bool :=
  match ev with EvOnCreateConnection _ c => Pos.eqb c h | _ => false end.

(** ** Configuration, wrappers and the driver's fields *)

(** [pool] and [client] are a value or a zero-argument async function
    ([isFunction]). *)
Inductive Lazy (A : Type) :=
| Value (a : A)
| Factory.
Arguments Value {A} a.
Arguments Factory {A}.

(** [PostgresDialectPoolConfig | PostgresDialectClientConfig], as the object
    the constructor receives: an absent property is [None];
    [onCreateConnection] is [true] when the hook is present. *)
Record PostgresDialectConfig := mkConfig {
  cfg_pool : option (Lazy PoolRef);
  cfg_client : option (Lazy ClientRef);
  cfg_cursor : option CursorCtor;
  cfg_onCreateConnection : bool;
}.

(** [isPoolConfig(config)]: [config.pool !== undefined]. *)
Definition isPoolConfig (config : PostgresDialectConfig) : bool :=
  match cfg_pool config with Some _ => true | None => false end.

(** [PostgresConnectionOptions] *)
Record PostgresConnectionOptions := mkOptions {
  cursor : option CursorCtor;
}.

(** The private fields of a [PostgresConnection]; both are assigned in the
    constructor only. *)
Record PostgresConnection := mkConnection {
  conn_client : ClientRef;
  conn_options : PostgresConnectionOptions;
}.

(** The private fields of a [PostgresDriver]. *)
Record PostgresDriver := mkDriver {
  d_config : PostgresDialectConfig;
  d_connections : gmap positive nat;     (* WeakMap<PostgresPoolClient, DatabaseConnection> *)
  d_pool : option PoolRef;
  d_singleClient : option ClientRef;
  d_singleConnection : option ConnRef;
}.

(** [new PostgresDriver(config)] *)
Definition new_PostgresDriver (config : PostgresDialectConfig) : PostgresDriver :=
  mkDriver config ∅ None None None.

(** The whole state: the driver, the heap of wrappers, the native state and
    the native calls made so far (oldest first). *)
Record World (W : Type) := mkWorld {
  driver : PostgresDriver;
  heap : list PostgresConnection;
  native_state : W;
  trace : list Event;
}.
Arguments mkWorld {W}.
Arguments driver {W}.
Arguments heap {W}.
Arguments native_state {W}.
Arguments trace {W}.

Definition initial_world {W} (config : PostgresDialectConfig) (s : W) : World W :=
  mkWorld (new_PostgresDriver config) [] s [].

(** The events appended to the trace between two worlds. *)
Definition events_since {W} (w w' : World W) : list Event :=
  drop (length (trace w)) (trace w').

(** ** A state and exception monad for method bodies *)

Definition M (W A : Type) : Type := World W → Outcome A * World W.

Global Instance M_ret {W} : MRet (M W) := λ A a w, (Resolved a, w).
Global Instance M_bind {W} : MBind (M W) := λ A B f m w,
  match m w with
  | (Resolved a, w1) => f a w1
  | (Rejected e, w1) => (Rejected e, w1)
  end.

Section Monad.
Context {W : Type}.

(** [throw e] *)
Definition throw {A} (e : JsError) : M W A := λ w, (Rejected e, w).

(** [try { body } catch (err) { handler(err) }] *)
Definition try_catch {A} (body : M W A) (handler : JsError → M W A) : M W A :=
  λ w, match body w with
       | (Resolved a, w1) => (Resolved a, w1)
       | (Rejected e, w1) => handler e w1
       end.

(** A value or an exception computed without effects. *)
Definition lift_result {A} (r : JsError + A) : M W A :=
  match r with
  | inr a => mret a
  | inl e => throw e
  end.

(** A native call: it is logged, then the native side answers. *)
Definition call {A} (ev : Event) (f : W → Outcome A * W) : M W A :=
  λ w, let '(r, s) := f (native_state w) in
       (r, mkWorld (driver w) (heap w) s (trace w ++ [ev])).

Definition get_driver : M W PostgresDriver := λ w, (Resolved (driver w), w).

Definition set_driver (d : PostgresDriver) : M W unit :=
  λ w, (Resolved tt, mkWorld d (heap w) (native_state w) (trace w)).

(** [new PostgresConnection(client, options)]: the new wrapper is put at
    the end of the heap and its index is its identity. *)
Definition new_PostgresConnection (client : ClientRef)
    (options : PostgresConnectionOptions) : M W ConnRef :=
  λ w, (Resolved (length (heap w)),
        mkWorld (driver w) (heap w ++ [mkConnection client options])
                (native_state w) (trace w)).

(** Reading the private fields of a wrapper through a reference.  A
    reference to no wrapper is a programming error of the caller. *)
Definition deref (conn : ConnRef) : M W PostgresConnection :=
  λ w, match heap w !! conn with
       | Some c => (Resolved c, w)
       | None => (Rejected (mkError TypeError "not a PostgresConnection" []), w)
       end.
End Monad.

(** ** [CompiledQuery], [QueryResult] and the stack-trace helper *)

Record CompiledQuery := mkQuery {
  sql : string;
  parameters : list JsValue;
}.

(** Modelled from the spec: [CompiledQuery.raw] of
    [src/query-compiler/compiled-query.ts] is missing; it is the compiled
    query made of the given SQL text and no parameter. *)
Definition CompiledQuery_raw (text : string) : CompiledQuery := mkQuery text [].

(** [QueryResult<O>]; an absent property is [None]. *)
Record QueryResult (O : Type) := mkResult {
  numUpdatedOrDeletedRows : option Z;
  numAffectedRows : option Z;
  rows : list O;
}.
Arguments mkResult {O}.
Arguments numUpdatedOrDeletedRows {O}.
Arguments numAffectedRows {O}.
Arguments rows {O}.

(** [new Error(message)] evaluated in the method [site]. *)
Definition Error_at (site msg : string) : JsError := mkError PlainError msg [site].

(** Modelled from the spec: [extendStackTrace] of
    [src/util/stack-trace-utils.ts] is missing; it returns the error it is
    given with the stack of the second error (the call site) appended. *)
Definition extendStackTrace (err stackError : JsError) : JsError :=
  mkError (kind_of err) (message err) (stack err ++ stack stackError).

Definition cursor_missing_message : string :=
  "'cursor' is not present in your postgres dialect config. It's required to make streaming work in postgres.".

Definition chunk_size_message : string := "chunkSize must be a positive integer".

(** ** [PostgresConnection] *)

(** [rows ?? []] *)
Definition rows_or_empty {O} (r : option (list O)) : list O :=
  match r with
  | Some l => l
  | None => []
  end.

(** The states of the async generator returned by [streamQuery]: not started,
    suspended at the [yield] inside the [try] block (holding the cursor), or
    completed. *)
Inductive GenState :=
| SuspendedStart
| SuspendedYield (cur : CursorRef)
| Completed.

(** The generator object: the arguments captured by the call and the place
    where the body is suspended. *)
Record StreamGenerator := mkGen {
  gen_this : PostgresConnection;
  gen_query : CompiledQuery;
  gen_chunkSize : JsNumber;
  gen_state : GenState;
}.

(** What the consumer of the generator may ask. *)
Inductive Request :=
| Next                       (* generator.next() *)
| Return                     (* generator.return(): early termination *)
| Throw (e : JsError).       (* generator.throw(e) *)

Definition is_completed (g : StreamGenerator) : bool :=
  match gen_state g with
  | Completed => true
  | _ => false
  end.

Section Connection.
Context {O W : Type} (native : Native O W).

(** [executeQuery(compiledQuery)] *)
Definition executeQuery (this : PostgresConnection) (compiledQuery : CompiledQuery)
    : M W (QueryResult O) :=
  try_catch
    (result ← call (EvQuery (conn_client this) (sql compiledQuery) (parameters compiledQuery))
                   (client_query native (conn_client this) (sql compiledQuery)
                                 (parameters compiledQuery));
     if String.eqb (command result) "INSERT"
        || String.eqb (command result) "UPDATE"
        || String.eqb (command result) "DELETE"
     then
       numAffected ← lift_result (BigInt (rowCount result));
       mret (mkResult (Some numAffected) (Some numAffected) (rows_or_empty (pg_rows result)))
     else
       mret (mkResult None None (rows_or_empty (pg_rows result))))
    (λ err, throw (extendStackTrace err (Error_at "PostgresConnection.executeQuery" EmptyString))).

(** [streamQuery(compiledQuery, chunkSize)]: calling an async generator
    function runs none of its body; it returns the generator object. *)
Definition streamQuery (this : PostgresConnection) (compiledQuery : CompiledQuery)
    (chunkSize : JsNumber) : StreamGenerator :=
  mkGen this compiledQuery chunkSize SuspendedStart.

(** The body up to the [try]: the two checks and the creation of the
    cursor. *)
Definition stream_open (g : StreamGenerator) : M W CursorRef :=
  match cursor (conn_options (gen_this g)) with
  | None => throw (Error_at "PostgresConnection.streamQuery" cursor_missing_message)
  | Some ctor =>
      if negb (Number_isInteger (gen_chunkSize g)) || le_zero (gen_chunkSize g)
      then throw (Error_at "PostgresConnection.streamQuery" chunk_size_message)
      else
        submittable ← call (EvCursorNew ctor (sql (gen_query g)) (parameters (gen_query g)))
                           (cursor_new native ctor (sql (gen_query g))
                                       (parameters (gen_query g)));
        call (EvQueryCursor (conn_client (gen_this g)) submittable)
             (client_query_cursor native (conn_client (gen_this g)) submittable)
  end.

(** Leaving the [try] block with a pending completion: the [finally] clause
    closes the cursor; a failing [close] replaces the pending completion. *)
Definition leave_try (g : StreamGenerator) (cur : CursorRef)
    (pending : Outcome (option (QueryResult O)))
    : World W → Outcome (option (QueryResult O)) * StreamGenerator * World W :=
  λ w, let '(closed, w1) := call (EvCursorClose cur) (cursor_close native cur) w in
       let g' := mkGen (gen_this g) (gen_query g) (gen_chunkSize g) Completed in
       match closed with
       | Resolved _ => (pending, g', w1)
       | Rejected e => (Rejected e, g', w1)
       end.

(** One turn of the [while (true)] loop, from its head to the next [yield]
    or out of the [try] block. *)
Definition loop_turn (g : StreamGenerator) (cur : CursorRef)
    : World W → Outcome (option (QueryResult O)) * StreamGenerator * World W :=
  λ w, let '(read, w1) :=
         call (EvCursorRead cur (gen_chunkSize g))
              (cursor_read native cur (gen_chunkSize g)) w in
       match read with
       | Rejected e => leave_try g cur (Rejected e) w1
       | Resolved batch =>
           if Nat.eqb (length batch) 0
           then leave_try g cur (Resolved None) w1
           else (Resolved (Some (mkResult None None batch)),
                 mkGen (gen_this g) (gen_query g) (gen_chunkSize g) (SuspendedYield cur),
                 w1)
       end.

(** [generator.next()]: [Resolved (Some batch)] is [{ value: batch, done:
    false }], [Resolved None] is [{ done: true }]. *)
Definition gen_next (g : StreamGenerator)
    : World W → Outcome (option (QueryResult O)) * StreamGenerator * World W :=
  λ w, match gen_state g with
       | SuspendedStart =>
           match stream_open g w with
           | (Resolved cur, w1) => loop_turn g cur w1
           | (Rejected e, w1) =>
               (Rejected e, mkGen (gen_this g) (gen_query g) (gen_chunkSize g) Completed, w1)
           end
       | SuspendedYield cur => loop_turn g cur w
       | Completed => (Resolved None, g, w)
       end.

(** [generator.return()]: a generator that has not started completes
    without running its body; at the [yield] the [finally] clause runs. *)
Definition gen_return (g : StreamGenerator)
    : World W → Outcome (option (QueryResult O)) * StreamGenerator * World W :=
  λ w, match gen_state g with
       | SuspendedStart =>
           (Resolved None, mkGen (gen_this g) (gen_query g) (gen_chunkSize g) Completed, w)
       | SuspendedYield cur => leave_try g cur (Resolved None) w
       | Completed => (Resolved None, g, w)
       end.

(** [generator.throw(e)] *)
Definition gen_throw (e : JsError) (g : StreamGenerator)
    : World W → Outcome (option (QueryResult O)) * StreamGenerator * World W :=
  λ w, match gen_state g with
       | SuspendedStart =>
           (Rejected e, mkGen (gen_this g) (gen_query g) (gen_chunkSize g) Completed, w)
       | SuspendedYield cur => leave_try g cur (Rejected e) w
       | Completed => (Rejected e, g, w)
       end.

Definition gen_step (r : Request) (g : StreamGenerator)
    : World W → Outcome (option (QueryResult O)) * StreamGenerator * World W :=
  match r with
  | Next => gen_next g
  | Return => gen_return g
  | Throw e => gen_throw e g
  end.

(** A consumer: the requests it makes, one after the other, with what each
    settles to. *)
Fixpoint consume (reqs : list Request) (g : StreamGenerator) (w : World W)
    : list (Outcome (option (QueryResult O))) * StreamGenerator * World W :=
  match reqs with
  | [] => ([], g, w)
  | r :: reqs' =>
      let '(res, g1, w1) := gen_step r g w in
      let '(ress, g2, w2) := consume reqs' g1 w1 in
      (res :: ress, g2, w2)
  end.

(** How a [for await (const batch of stream)] loop that never breaks ends. *)
Inductive LoopEnd :=
| Exhausted
| Failed (e : JsError)
| OutOfFuel.

(** [for await (const batch of stream) batches.push(batch)]: [next()] until
    it reports [done] or rejects; [fuel] bounds the number of calls. *)
Fixpoint for_await (fuel : nat) (g : StreamGenerator) (w : World W)
    : list (QueryResult O) * LoopEnd * StreamGenerator * World W :=
  match fuel with
  | 0 => ([], OutOfFuel, g, w)
  | S fuel' =>
      match gen_next g w with
      | (Resolved (Some batch), g1, w1) =>
          let '(batches, e, g2, w2) := for_await fuel' g1 w1 in
          (batch :: batches, e, g2, w2)
      | (Resolved None, g1, w1) => ([], Exhausted, g1, w1)
      | (Rejected e, g1, w1) => ([], Failed e, g1, w1)
      end
  end.

(** [isPoolClient(client)]: [client.release !== undefined]. *)
Definition isPoolClient (client : ClientRef) : bool := has_release native client.

(** [connection[PRIVATE_RELEASE_METHOD]()] *)
Definition PRIVATE_RELEASE_METHOD (this : PostgresConnection) : M W unit :=
  if isPoolClient (conn_client this)
  then call (EvRelease (conn_client this)) (client_release native (conn_client this))
  else mret tt.

End Connection.

(** ** [PostgresDriver] *)

(** [TransactionSettings] *)
Record TransactionSettings := mkSettings {
  isolationLevel : option string;
}.

(** Truthiness of an optional string: [undefined] and the empty string are
    falsy. *)
Definition truthy_string (s : option string) : bool :=
  match s with
  | Some s' => negb (String.eqb s' EmptyString)
  | None => false
  end.

(** The calls a user of the driver can make, and what a call resolves to. *)
Inductive DriverCall :=
| Init
| AcquireConnection
| BeginTransaction (connection : ConnRef) (settings : TransactionSettings)
| CommitTransaction (connection : ConnRef)
| RollbackTransaction (connection : ConnRef)
| ReleaseConnection (connection : ConnRef)
| Destroy.

Inductive Returned :=
| RVoid
| RConnection (connection : ConnRef).

Definition is_acquire (c : DriverCall) : bool :=
  match c with AcquireConnection => true | _ => false end.
Definition is_init (c : DriverCall) : bool :=
  match c with Init => true | _ => false end.

Section Driver.
Context {O W : Type} (native : Native O W).

Definition set_pool (p : option PoolRef) : M W unit :=
  d ← get_driver;
  set_driver (mkDriver (d_config d) (d_connections d) p
                       (d_singleClient d) (d_singleConnection d)).

Definition set_singleClient (c : option ClientRef) : M W unit :=
  d ← get_driver;
  set_driver (mkDriver (d_config d) (d_connections d) (d_pool d)
                       c (d_singleConnection d)).

Definition set_singleConnection (c : option ConnRef) : M W unit :=
  d ← get_driver;
  set_driver (mkDriver (d_config d) (d_connections d) (d_pool d)
                       (d_singleClient d) c).

(** [this.#connections.set(client, connection)] *)
Definition connections_set (client : ClientRef) (connection : ConnRef) : M W unit :=
  d ← get_driver;
  set_driver (mkDriver (d_config d) (<[client := connection]> (d_connections d))
                       (d_pool d) (d_singleClient d) (d_singleConnection d)).

(** Calling a method on a field that holds [undefined]. *)
Definition undefined_has_no (method : string) : JsError :=
  mkError TypeError (String.append "Cannot read properties of undefined (reading '"
                               (String.append method "')")) [].

(** [init()] *)
Definition init : M W unit :=
  d ← get_driver;
  match cfg_pool (d_config d) with
  | Some pool =>
      p ← match pool with
          | Factory => call EvPoolFactory (pool_factory native)
          | Value v => mret v
          end;
      set_pool (Some p)
  | None => mret tt
  end.

(** [acquireConnection()], from its call to its settlement with no other
    call in between; [acquire_start] and [resume] cut it at its [await]s. *)
Definition acquireConnection : M W ConnRef :=
  d ← get_driver;
  if negb (isPoolConfig (d_config d)) then
    match d_singleConnection d with
    | Some connection => mret connection
    | None =>
        client ← match cfg_client (d_config d) with
                 | Some Factory => c ← call EvClientFactory (client_factory native);
                                   mret (Some c)
                 | Some (Value v) => mret (Some v)
                 | None => mret None
                 end;
        set_singleClient client;;
        match client with
        | None => throw (undefined_has_no "connect")
        | Some c =>
            call (EvClientConnect c) (client_connect native c);;
            connection ← new_PostgresConnection c (mkOptions (cfg_cursor (d_config d)));
            set_singleConnection (Some connection);;
            mret connection
        end
    end
  else
    match d_pool d with
    | None => throw (undefined_has_no "connect")
    | Some pool =>
        client ← call (EvPoolConnect pool) (pool_connect native pool);
        d ← get_driver;
        match d_connections d !! client with
        | Some connection => mret connection
        | None =>
            connection ← new_PostgresConnection client
                           (mkOptions (cfg_cursor (d_config d)));
            connections_set client connection;;
            (if cfg_onCreateConnection (d_config d)
             then call (EvOnCreateConnection connection client)
                       (on_create_connection native connection)
             else mret tt);;
            mret connection
        end
    end.

(** [beginTransaction(connection, settings)] *)
Definition beginTransaction (connection : ConnRef) (settings : TransactionSettings)
    : M W unit :=
  this ← deref connection;
  if truthy_string (isolationLevel settings) then
    executeQuery native this
      (CompiledQuery_raw (String.append "start transaction isolation level "
                                        (default EmptyString (isolationLevel settings))));;
    mret tt
  else
    executeQuery native this (CompiledQuery_raw "begin");;
    mret tt.

(** [commitTransaction(connection)] *)
Definition commitTransaction (connection : ConnRef) : M W unit :=
  this ← deref connection;
  executeQuery native this (CompiledQuery_raw "commit");;
  mret tt.

(** [rollbackTransaction(connection)] *)
Definition rollbackTransaction (connection : ConnRef) : M W unit :=
  this ← deref connection;
  executeQuery native this (CompiledQuery_raw "rollback");;
  mret tt.

(** [releaseConnection(connection)] *)
Definition releaseConnection (connection : ConnRef) : M W unit :=
  this ← deref connection;
  PRIVATE_RELEASE_METHOD native this.

(** [destroy()] *)
Definition destroy : M W unit :=
  d ← get_driver;
  match d_singleClient d with
  | Some client => call (EvClientEnd client) (client_end native client)
  | None =>
      match d_pool d with
      | Some pool =>
          set_pool None;;
          call (EvPoolEnd pool) (pool_end native pool)
      | None => mret tt
      end
  end.

(** One call of the driver's user. *)
Definition perform (c : DriverCall) : M W Returned :=
  match c with
  | Init => init;; mret RVoid
  | AcquireConnection => connection ← acquireConnection; mret (RConnection connection)
  | BeginTransaction connection settings =>
      beginTransaction connection settings;; mret RVoid
  | CommitTransaction connection => commitTransaction connection;; mret RVoid
  | RollbackTransaction connection => rollbackTransaction connection;; mret RVoid
  | ReleaseConnection connection => releaseConnection connection;; mret RVoid
  | Destroy => destroy;; mret RVoid
  end.

(** A sequence of calls, each started when the previous one has settled. *)
Fixpoint perform_all (cs : list DriverCall) (w : World W)
    : list (Outcome Returned) * World W :=
  match cs with
  | [] => ([], w)
  | c :: cs' =>
      let '(r, w1) := perform c w in
      let '(rs, w2) := perform_all cs' w1 in
      (r :: rs, w2)
  end.

End Driver.

(** ** Calls that overlap

    An [async] method runs in one go from its call to its first [await],
    and from an [await] whose promise has settled to the next one; in
    between, other calls may start or go on.  [acquireConnection] and
    [init] assign to the driver's fields after an [await], so they are cut
    at their [await]s.  The other methods make their native call (and
    [destroy] its assignment to [#pool]) before their only [await] and
    touch nothing of the driver after it: they are run in one step.  The
    native side answers when it is called; the answer reaches the caller
    when the caller is resumed. *)

(** Where a call is suspended, with what the awaited promise settles to. *)
Inductive Suspended :=
| AtPoolFactory (settled : Outcome PoolRef)
| AtClientFactory (settled : Outcome ClientRef)
| AtClientConnect (settled : Outcome unit)
| AtPoolConnect (settled : Outcome ClientRef)
| AtHook (connection : ConnRef) (settled : Outcome unit).

(** A call that has started: suspended at an [await], or settled. *)
Inductive Task :=
| Pending (at_await : Suspended)
| Settled (r : Outcome Returned).

Definition is_settled (t : Task) : bool :=
  match t with Settled _ => true | Pending _ => false end.

(** What the user of the driver, or the event loop, does next: a call is
    made, or the call number [i] is resumed. *)
Inductive Action :=
| Start (c : DriverCall)
| Resume (i : nat).

(** The world and the calls made so far, in the order they were made. *)
Record System (W : Type) := mkSystem {
  sys_world : World W;
  sys_tasks : list (DriverCall * Task);
}.
Arguments mkSystem {W}.
Arguments sys_world {W}.
Arguments sys_tasks {W}.

Definition initial_system {W} (config : PostgresDialectConfig) (s : W) : System W :=
  mkSystem (initial_world config s) [].

Section Overlap.
Context {O W : Type} (native : Native O W).

(** A native call followed by [await]: the call is made and the caller is
    suspended. *)
Definition suspend_on {A} (ev : Event) (f : W → Outcome A * W)
    (at_await : Outcome A → Suspended) : M W Task :=
  λ w, let '(settled, w1) := call ev f w in (Resolved (Pending (at_await settled)), w1).

(** Resuming from an [await]: the value of the promise, or its rejection
    thrown. *)
Definition await {A} (settled : Outcome A) : M W A := λ w, (settled, w).

(** [init()] up to its [await], line 36. *)
Definition init_start : M W Task :=
  d ← get_driver;
  match cfg_pool (d_config d) with
  | Some Factory => suspend_on EvPoolFactory (pool_factory native) AtPoolFactory
  | Some (Value v) => set_pool (Some v);; mret (Settled (Resolved RVoid))
  | None => mret (Settled (Resolved RVoid))
  end.

(** [await this.#singleClient!.connect()], line 48, up to the [await]. *)
Definition call_connect : M W Task :=
  d ← get_driver;
  match d_singleClient d with
  | Some c => suspend_on (EvClientConnect c) (client_connect native c) AtClientConnect
  | None => throw (undefined_has_no "connect")
  end.

(** Lines 49 to 53, once [connect()] has resolved: the wrapper is made of
    what [#singleClient] holds now.  The field holds a client whenever a
    call is suspended at line 48 (lemma [suspended_at_connect_has_client]),
    so the last case, a wrapper of [undefined], is never reached. *)
Definition cache_wrapper : M W ConnRef :=
  d ← get_driver;
  match d_singleClient d with
  | Some c =>
      connection ← new_PostgresConnection c (mkOptions (cfg_cursor (d_config d)));
      set_singleConnection (Some connection);;
      mret connection
  | None => throw (undefined_has_no "connect")
  end.

(** [acquireConnection()] up to its first [await] (line 45, 48 or 56), or to
    its [return] when it meets none. *)
Definition acquire_start : M W Task :=
  d ← get_driver;
  if negb (isPoolConfig (d_config d)) then
    match d_singleConnection d with
    | Some connection => mret (Settled (Resolved (RConnection connection)))
    | None =>
        match cfg_client (d_config d) with
        | Some Factory => suspend_on EvClientFactory (client_factory native) AtClientFactory
        | Some (Value v) => set_singleClient (Some v);; call_connect
        | None => set_singleClient None;; call_connect
        end
    end
  else
    match d_pool d with
    | None => throw (undefined_has_no "connect")
    | Some pool => suspend_on (EvPoolConnect pool) (pool_connect native pool) AtPoolConnect
    end.

(** From an [await] to the next one, or to the end of the method. *)
Definition resume (at_await : Suspended) : M W Task :=
  match at_await with
  | AtPoolFactory settled =>
      p ← await settled;
      set_pool (Some p);;
      mret (Settled (Resolved RVoid))
  | AtClientFactory settled =>
      client ← await settled;
      set_singleClient (Some client);;
      call_connect
  | AtClientConnect settled =>
      await settled;;
      connection ← cache_wrapper;
      mret (Settled (Resolved (RConnection connection)))
  | AtPoolConnect settled =>
      client ← await settled;
      d ← get_driver;
      match d_connections d !! client with
      | Some connection => mret (Settled (Resolved (RConnection connection)))
      | None =>
          connection ← new_PostgresConnection client
                         (mkOptions (cfg_cursor (d_config d)));
          connections_set client connection;;
          if cfg_onCreateConnection (d_config d)
          then suspend_on (EvOnCreateConnection connection client)
                          (on_create_connection native connection) (AtHook connection)
          else mret (Settled (Resolved (RConnection connection)))
      end
  | AtHook connection settled =>
      await settled;;
      mret (Settled (Resolved (RConnection connection)))
  end.

(** A call, up to its first [await] or to its end. *)
Definition start (c : DriverCall) : M W Task :=
  match c with
  | Init => init_start
  | AcquireConnection => acquire_start
  | _ => r ← perform native c; mret (Settled (Resolved r))
  end.

(** An exception that leaves the method rejects its promise. *)
Definition run_to_suspension (m : M W Task) (w : World W) : Task * World W :=
  match m w with
  | (Resolved t, w1) => (t, w1)
  | (Rejected e, w1) => (Settled (Rejected e), w1)
  end.

(** A call resumed if it is suspended, left as it is if it has settled. *)
Definition resumed (tw : Task * World W) : Task * World W :=
  match tw.1 with
  | Pending at_await => run_to_suspension (resume at_await) tw.2
  | Settled _ => tw
  end.

(** One action; resuming a call that is settled, or was never made, does
    nothing. *)
Definition step (a : Action) (sys : System W) : System W :=
  match a with
  | Start c =>
      let '(t, w) := run_to_suspension (start c) (sys_world sys) in
      mkSystem w (sys_tasks sys ++ [(c, t)])
  | Resume i =>
      match sys_tasks sys !! i with
      | Some (c, Pending at_await) =>
          let '(t, w) := run_to_suspension (resume at_await) (sys_world sys) in
          mkSystem w (<[i := (c, t)]> (sys_tasks sys))
      | _ => sys
      end
  end.

Fixpoint schedule (actions : list Action) (sys : System W) : System W :=
  match actions with
  | [] => sys
  | a :: actions' => schedule actions' (step a sys)
  end.

End Overlap.


(** * The vocabulary of the properties *)

(** ** Numbers and commands *)

(** The number [x] is the integer [z]. *)
Definition is_integer (x : JsNumber) (z : Z) : Prop :=
  ∃ q, x = Finite q ∧ Qeq q (inject_Z z).

(** The command is one of the three commands that change rows. *)
Definition mutating (cmd : string) : Prop :=
  cmd = "INSERT" ∨ cmd = "UPDATE" ∨ cmd = "DELETE".

(** The three ways in which [chunkSize] fails to be a positive integer. *)
Definition chunk_is_zero (x : JsNumber) : Prop := is_integer x 0.

Definition chunk_is_negative (x : JsNumber) : Prop :=
  x = NegInfinity ∨ ∃ q, x = Finite q ∧ Qlt q 0.

Definition chunk_is_non_integral (x : JsNumber) : Prop := ¬ ∃ z, is_integer x z.

Definition positive_integer (x : JsNumber) : Prop := ∃ z, (0 < z)%Z ∧ is_integer x z.

(** ** Streams *)

(** The generator once its body has run to the end. *)
Definition finished (g : StreamGenerator) : StreamGenerator :=
  mkGen (gen_this g) (gen_query g) (gen_chunkSize g) Completed.

(** A request settled with [{ done: true }] or with a rejection. *)
Definition final_result {O} (res : Outcome (option (QueryResult O))) : Prop :=
  res = Resolved None ∨ ∃ e, res = Rejected e.

(** A request that makes the consumer leave the iteration. *)
Definition leaving_request (r : Request) : Prop :=
  r = Return ∨ ∃ e, r = Throw e.

(** The generator is inside the [try] block on cursor [cur], or completed. *)
Definition started_on (cur : CursorRef) (g : StreamGenerator) : Prop :=
  gen_state g = SuspendedYield cur ∨ gen_state g = Completed.

(** The number of rows [cursor.read(n)] asks for. *)
Definition rows_requested (n : JsNumber) : nat :=
  match n with
  | Finite q => Z.to_nat (Qfloor q)
  | _ => 0
  end.

(** A native side in which every call succeeds.  Its state is the rows the
    cursor has not handed out yet: [read(n)] hands out up to [n] of them, in
    order.  Queries are answered with [answer]; the pool is object 7, its
    client object 11, the lazily created single client object 5 and the
    cursor object 3. *)
Definition sample_native {O : Type} (answer : PgResult O) : Native O (list O) :=
  mkNative
    (λ s, (Resolved 7%positive, s))
    (λ s, (Resolved 5%positive, s))
    (λ _ s, (Resolved 11%positive, s))
    (λ _ s, (Resolved tt, s))
    (λ _ s, (Resolved tt, s))
    (λ _ _ _ s, (Resolved answer, s))
    (λ _ _ _ s, (Resolved 3%positive, s))
    (λ _ cur s, (Resolved cur, s))
    (λ _ n s, (Resolved (take (rows_requested n) s), drop (rows_requested n) s))
    (λ _ s, (Resolved tt, s))
    (λ _, true)
    (λ _ s, (Resolved tt, s))
    (λ _ s, (Resolved tt, s))
    (λ _ s, (Resolved tt, s)).

(** The sizes of the batches of [c] rows cut from [n] rows: full batches,
    then the remainder if there is one. *)
Definition batch_sizes (c n : nat) : list nat :=
  repeat c (n / c) ++ (if Nat.eqb (n mod c) 0 then [] else [n mod c]).

(** ** Driver calls and driver states *)

(** The three calls that issue a transaction statement, and the native call
    they make. *)
Definition is_transaction_call (c : DriverCall) : bool :=
  match c with
  | BeginTransaction _ _ | CommitTransaction _ | RollbackTransaction _ => true
  | _ => false
  end.

Definition is_query (ev : Event) : bool :=
  match ev with EvQuery _ _ _ => true | _ => false end.

(** The native calls each driver call may make. *)
Definition emitted_by (c : DriverCall) (ev : Event) : bool :=
  match c, ev with
  | Init, EvPoolFactory => true
  | AcquireConnection, (EvClientFactory | EvClientConnect _ | EvPoolConnect _
                        | EvOnCreateConnection _ _) => true
  | (BeginTransaction _ _ | CommitTransaction _ | RollbackTransaction _), EvQuery _ _ _ =>
      true
  | ReleaseConnection _, EvRelease _ => true
  | Destroy, (EvClientEnd _ | EvPoolEnd _) => true
  | _, _ => false
  end.

(** Two drivers that differ at most in the [#pool] field. *)
Definition same_but_pool (d d' : PostgresDriver) : Prop :=
  d_config d' = d_config d
  ∧ d_connections d' = d_connections d
  ∧ d_singleClient d' = d_singleClient d
  ∧ d_singleConnection d' = d_singleConnection d.

(** The driver after [this.#connections.set(client, connection)]. *)
Definition with_connection (d : PostgresDriver) (client : ClientRef) (connection : ConnRef)
    : PostgresDriver :=
  mkDriver (d_config d) (<[client := connection]> (d_connections d))
           (d_pool d) (d_singleClient d) (d_singleConnection d).

(** The wrapper the driver creates for [client]. *)
Definition wrapper_of (d : PostgresDriver) (client : ClientRef) : PostgresConnection :=
  mkConnection client (mkOptions (cfg_cursor (d_config d))).

(** The driver with [#pool] set. *)
Definition with_pool (d : PostgresDriver) (p : option PoolRef) : PostgresDriver :=
  mkDriver (d_config d) (d_connections d) p (d_singleClient d) (d_singleConnection d).

(** The cached wrapper, when there is one, wraps the cached client. *)
Definition single_inv {W : Type} (w : World W) : Prop :=
  isPoolConfig (d_config (driver w)) = false
  ∧ ∀ c, d_singleConnection (driver w) = Some c →
         ∃ client, d_singleClient (driver w) = Some client
                   ∧ heap w !! c = Some (wrapper_of (driver w) client).

(** Registered wrappers wrap the handle they are registered under; the hook
    has not been called for a handle without a wrapper, and at most once for
    any handle. *)
Definition pool_inv {W : Type} (w : World W) : Prop :=
  isPoolConfig (d_config (driver w)) = true
  ∧ d_singleClient (driver w) = None
  ∧ (∀ h c, d_connections (driver w) !! h = Some c →
            heap w !! c = Some (wrapper_of (driver w) h))
  ∧ (∀ h, d_connections (driver w) !! h = None → count (is_hook_for h) (trace w) = 0)
  ∧ (∀ h, count (is_hook_for h) (trace w) ≤ 1).

(** [pool.connect()], called in world [w], resolves to the handle [h]. *)
Definition resolves_to {O W : Type} (native : Native O W) (w : World W) (h : ClientRef) : Prop :=
  ∃ p s', d_pool (driver w) = Some p
          ∧ pool_connect native p (native_state w) = (Resolved h, s').

(** The number of calls of a sequence that satisfy a test. *)
Fixpoint count_calls (p : DriverCall → bool) (cs : list DriverCall) : nat :=
  match cs with
  | [] => 0
  | c :: cs' => (if p c then 1 else 0) + count_calls p cs'
  end.

(** The call number [n], made and resumed until it has settled with no
    other call in between: no method has more than two [await]s. *)
Definition unoverlapped (c : DriverCall) (n : nat) : list Action :=
  [Start c; Resume n; Resume n].

(** Calls made one after the other, the first being call number [n]. *)
Fixpoint sequential (cs : list DriverCall) (n : nat) : list Action :=
  match cs with
  | [] => []
  | c :: cs' => unoverlapped c n ++ sequential cs' (S n)
  end.




(** The number of calls to [acquireConnection] that a schedule starts. *)
Fixpoint acquisitions (actions : list Action) : nat :=
  match actions with
  | [] => 0
  | Start AcquireConnection :: actions' => S (acquisitions actions')
  | _ :: actions' => acquisitions actions'
  end.

(** The calls suspended in single-client mode: calls to [acquireConnection],
    at the factory when there is one, or at [connect()] with a client in
    [#singleClient]. *)
Definition single_task {W : Type} (w : World W) (ct : DriverCall * Task) : Prop :=
  match ct.2 with
  | Settled _ => True
  | Pending (AtClientFactory _) =>
      ct.1 = AcquireConnection ∧ cfg_client (d_config (driver w)) = Some Factory
  | Pending (AtClientConnect _) =>
      ct.1 = AcquireConnection ∧ is_Some (d_singleClient (driver w))
      ∧ cfg_client (d_config (driver w)) ≠ None
  | Pending _ => False
  end.

(** What holds of a single-client driver whatever the schedule: the cached
    wrapper is a wrapper of the heap, with the configured cursor. *)
Definition single_system_inv {W : Type} (sys : System W) : Prop :=
  isPoolConfig (d_config (driver (sys_world sys))) = false
  ∧ (∀ conn, d_singleConnection (driver (sys_world sys)) = Some conn →
       ∃ client, heap (sys_world sys) !! conn
                 = Some (wrapper_of (driver (sys_world sys)) client))
  ∧ Forall (single_task (sys_world sys)) (sys_tasks sys).

(** * Operation nodes: [dropConstraintNode] *)

(** An object that implements [OperationNode]: whether [Object.freeze] was
    applied to it, its [kind], and its other own properties in the order of
    the object literal. *)
Inductive OperationNode :=
| node (frozen : bool) (kind : string) (props : list (string * PropertyValue))
with PropertyValue :=
| PString (s : string)
| PNode (n : OperationNode).

Definition is_frozen (n : OperationNode) : bool :=
  match n with node f _ _ => f end.

Definition kind (n : OperationNode) : string :=
  match n with node _ k _ => k end.

Definition properties (n : OperationNode) : list (string * PropertyValue) :=
  match n with node _ _ ps => ps end.

(** The nodes held in the properties of a node. *)
Fixpoint child_nodes (ps : list (string * PropertyValue)) : list OperationNode :=
  match ps with
  | [] => []
  | (_, PNode n) :: ps' => n :: child_nodes ps'
  | (_, PString _) :: ps' => child_nodes ps'
  end.

(** Modelled from the spec: [freeze] of [src/util/object-utils.ts] is
    missing; factories "return a frozen node", so it returns the object it
    is given, frozen. *)
Definition freeze (n : OperationNode) : OperationNode :=
  match n with node _ k ps => node true k ps end.

Section DropConstraintNode.

(** [identifierNode.create] of [src/operation-node/identifier-node.ts],
    which is not among the sources. *)
Variable identifierNode_create : string → OperationNode.

(** [dropConstraintNode.is(node)] *)
Definition dropConstraintNode_is (n : OperationNode) : bool :=
  String.eqb (kind n) "DropConstraintNode".

(** [dropConstraintNode.create(constraintName)] *)
Definition dropConstraintNode_create (constraintName : string) : OperationNode :=
  freeze (node false "DropConstraintNode"
            [("constraintName", PNode (identifierNode_create constraintName))]).

End DropConstraintNode.

(** * Concrete inputs *)

(** An [UPDATE] that affected three rows and returned none. *)
Definition update_answer : PgResult nat :=
  mkPgResult "UPDATE" (Some (of_Z 3)) None.

Definition update_native : Native nat (list nat) := sample_native update_answer.

(** A wrapper of client 11 with the cursor constructor 1, and one without. *)
Definition streaming_connection : PostgresConnection :=
  mkConnection 11 (mkOptions (Some 1%positive)).

Definition plain_connection : PostgresConnection :=
  mkConnection 11 (mkOptions None).

Definition select_all : CompiledQuery := mkQuery "select * from person" [].

(** A pool configuration and a client configuration, both lazy. *)
Definition lazy_pool_config : PostgresDialectConfig :=
  mkConfig (Some Factory) None (Some 1%positive) true.

Definition lazy_client_config : PostgresDialectConfig :=
  mkConfig None (Some Factory) (Some 1%positive) false.

(** A fresh driver next to a result of five rows. *)
Definition five_rows (config : PostgresDialectConfig) : World (list nat) :=
  initial_world config [1; 2; 3; 4; 5].

(** Single-client mode: the wrapper is acquired, then three more calls are
    made, then [destroy] is called twice. *)
Definition single_acquired : World (list nat) :=
  Eval vm_compute in
    snd (acquireConnection update_native (five_rows lazy_client_config)).

Definition single_later : World (list nat) :=
  Eval vm_compute in
    snd (perform_all update_native [AcquireConnection; Destroy; AcquireConnection]
           single_acquired).

Definition single_later_results : list (Outcome Returned) :=
  Eval vm_compute in
    fst (perform_all update_native [AcquireConnection; Destroy; AcquireConnection]
           single_acquired).

Definition single_destroyed : World (list nat) :=
  Eval vm_compute in snd (destroy update_native single_later).

Definition single_destroyed_again : World (list nat) :=
  Eval vm_compute in snd (destroy update_native single_destroyed).

(** Pool mode: the pool hands out the same client twice; then [destroy] is
    called twice. *)
Definition pool_ready : World (list nat) :=
  Eval vm_compute in snd (perform_all update_native [Init] (five_rows lazy_pool_config)).

Definition pool_acquired : World (list nat) :=
  Eval vm_compute in snd (acquireConnection update_native pool_ready).

Definition pool_released : World (list nat) :=
  Eval vm_compute in snd (perform_all update_native [ReleaseConnection 0] pool_acquired).

Definition pool_acquired_again : World (list nat) :=
  Eval vm_compute in snd (acquireConnection update_native pool_released).

Definition pool_destroyed : World (list nat) :=
  Eval vm_compute in snd (destroy update_native pool_acquired_again).

Definition pool_initialised_three_times : World (list nat) :=
  Eval vm_compute in
    snd (perform_all update_native [Init; AcquireConnection; Init; Init]
           (five_rows lazy_pool_config)).

(** * The dialect, further vocabulary and further inputs *)

(** [PostgresDialect]: its private [#config] field.  The query compiler, the
    adapter and the introspector it creates are classes whose sources are
    not at hand; [createDriver] is the one factory modelled. *)
Record PostgresDialect := mkDialect {
  dialect_config : PostgresDialectConfig;
}.

(** [createDriver()] *)
Definition createDriver (this : PostgresDialect) : PostgresDriver :=
  new_PostgresDriver (dialect_config this).

(** Native calls made on a single client, and native calls made on a pool or
    for a pooled connection. *)
Definition is_client_side (ev : Event) : bool :=
  match ev with
  | EvClientFactory | EvClientConnect _ | EvClientEnd _ => true
  | _ => false
  end.

Definition is_pool_side (ev : Event) : bool :=
  match ev with
  | EvPoolFactory | EvPoolConnect _ | EvPoolEnd _ | EvOnCreateConnection _ _ => true
  | _ => false
  end.

(** What [next()] and [return()] settle to on a completed generator is
    [{ done: true }]; [throw(e)] settles to a rejection with [e]. *)
Definition settled_when_completed {O : Type} (r : Request)
    : Outcome (option (QueryResult O)) :=
  match r with
  | Throw e => Rejected e
  | Next | Return => Resolved None
  end.

(** The text [beginTransaction] sends. *)
Definition begin_statement (settings : TransactionSettings) : string :=
  match isolationLevel settings with
  | Some level =>
      if String.eqb level EmptyString then "begin"
      else String.append "start transaction isolation level " level
  | None => "begin"
  end.

(** The loop did not run out of fuel. *)
Definition loop_ended (e : LoopEnd) : bool :=
  match e with
  | OutOfFuel => false
  | Exhausted | Failed _ => true
  end.

(** The native calls a stream on [g] may make: the construction of the
    cursor of its wrapper for its query, the submission of a cursor to its
    client, reads of [chunkSize] rows, and closes. *)
Definition stream_event (g : StreamGenerator) (ev : Event) : Prop :=
  match ev with
  | EvCursorNew ctor text params =>
      cursor (conn_options (gen_this g)) = Some ctor
      ∧ text = sql (gen_query g) ∧ params = parameters (gen_query g)
  | EvQueryCursor client _ => client = conn_client (gen_this g)
  | EvCursorRead _ n => n = gen_chunkSize g
  | EvCursorClose _ => True
  | _ => False
  end.

Definition is_cursor_new (ev : Event) : bool :=
  match ev with EvCursorNew _ _ _ => true | _ => false end.

Definition not_started (g : StreamGenerator) : bool :=
  match gen_state g with SuspendedStart => true | _ => false end.

(** The world in which the driver holds [config] instead of its own
    configuration. *)
Definition configured {W : Type} (config : PostgresDialectConfig) (w : World W)
    : World W :=
  mkWorld (mkDriver config (d_connections (driver w)) (d_pool (driver w))
             (d_singleClient (driver w)) (d_singleConnection (driver w)))
    (heap w) (native_state w) (trace w).

(** Two configurations that differ in their [client] field at most. *)
Definition same_but_client (c1 c2 : PostgresDialectConfig) : Prop :=
  cfg_pool c2 = cfg_pool c1 ∧ cfg_cursor c2 = cfg_cursor c1
  ∧ cfg_onCreateConnection c2 = cfg_onCreateConnection c1.

(** The world of a driver that a dialect has just created. *)
Definition created_by {W : Type} (dialect : PostgresDialect) (s : W) : World W :=
  mkWorld (createDriver dialect) [] s [].

(** One native call that fails, the others succeeding. *)
Inductive Fault :=
| NoFault
| PoolFactoryFails
| PoolConnectFails
| ClientConnectFails
| HookFails
| QueryFails
| CursorNewFails
| CursorQueryFails
| ReadFails
| CloseFails.

Definition native_failure : JsError :=
  mkError NativeFailure "Connection terminated unexpectedly" [].

(** A native side like [sample_native] but for the call [fault] names, which
    is rejected with [native_failure]; only the pooled client 11 has a
    [release] method. *)
Definition faulty_native {O : Type} (fault : Fault) (answer : PgResult O)
    : Native O (list O) :=
  mkNative
    (λ s, (match fault with
           | PoolFactoryFails => Rejected native_failure
           | _ => Resolved 7%positive
           end, s))
    (λ s, (Resolved 5%positive, s))
    (λ _ s, (match fault with
             | PoolConnectFails => Rejected native_failure
             | _ => Resolved 11%positive
             end, s))
    (λ _ s, (match fault with
             | ClientConnectFails => Rejected native_failure
             | _ => Resolved tt
             end, s))
    (λ _ s, (match fault with
             | HookFails => Rejected native_failure
             | _ => Resolved tt
             end, s))
    (λ _ _ _ s, (match fault with
                 | QueryFails => Rejected native_failure
                 | _ => Resolved answer
                 end, s))
    (λ _ _ _ s, (match fault with
                 | CursorNewFails => Rejected native_failure
                 | _ => Resolved 3%positive
                 end, s))
    (λ _ cur s, (match fault with
                 | CursorQueryFails => Rejected native_failure
                 | _ => Resolved cur
                 end, s))
    (λ _ n s, match fault with
              | ReadFails => (Rejected native_failure, s)
              | _ => (Resolved (take (rows_requested n) s), drop (rows_requested n) s)
              end)
    (λ _ s, (match fault with
             | CloseFails => Rejected native_failure
             | _ => Resolved tt
             end, s))
    (λ c, Pos.eqb c 11)
    (λ _ s, (Resolved tt, s))
    (λ _ s, (Resolved tt, s))
    (λ _ s, (Resolved tt, s)).

(** A [DELETE] for which the client reports no row count. *)
Definition delete_answer : PgResult nat := mkPgResult "DELETE" None None.

(** A configuration with a pool and a client, and one without a cursor. *)
Definition pool_and_client_config : PostgresDialectConfig :=
  mkConfig (Some (Value 7%positive)) (Some Factory) (Some 1%positive) false.

Definition no_cursor_pool_config : PostgresDialectConfig :=
  mkConfig (Some (Value 7%positive)) None None false.

Definition serializable : TransactionSettings := mkSettings (Some "serializable").


(** Worlds reached with these inputs. *)
Definition pool_began : World (list nat) :=
  Eval vm_compute in snd (beginTransaction update_native 0 serializable pool_acquired).

Definition pool_client_released : World (list nat) :=
  Eval vm_compute in
    snd (releaseConnection (faulty_native NoFault update_answer) 0 pool_acquired).

Definition pool_connect_failed : World (list nat) :=
  Eval vm_compute in
    snd (acquireConnection (faulty_native PoolConnectFails update_answer) pool_ready).

Definition hook_failed : World (list nat) :=
  Eval vm_compute in
    snd (acquireConnection (faulty_native HookFails update_answer) pool_ready).

Definition hook_failed_then_acquired : World (list nat) :=
  Eval vm_compute in
    snd (acquireConnection (faulty_native HookFails update_answer) hook_failed).

Definition no_cursor_acquired : World (list nat) :=
  Eval vm_compute in
    snd (perform_all update_native [Init; AcquireConnection]
           (five_rows no_cursor_pool_config)).

Definition single_acquired_thrice : World (list nat) :=
  Eval vm_compute in
    snd (perform_all update_native
           [AcquireConnection; AcquireConnection; Destroy; AcquireConnection]
           (five_rows lazy_client_config)).

Definition pool_initialised_again : World (list nat) :=
  Eval vm_compute in snd (init update_native pool_destroyed).

Definition pool_factory_failed : World (list nat) :=
  Eval vm_compute in
    snd (init (faulty_native PoolFactoryFails update_answer) (five_rows lazy_pool_config)).

(** A stream of batches of two rows, before its first [next()], with its
    cursor open, and after two turns of a [for await] loop. *)
Definition stream_by_two : StreamGenerator :=
  streamQuery streaming_connection select_all (of_Z 2).

Definition stream_opened : World (list nat) :=
  Eval vm_compute in
    snd (stream_open update_native stream_by_two (five_rows lazy_pool_config)).

Definition two_turns
    : list (QueryResult nat) * LoopEnd * StreamGenerator * World (list nat) :=
  Eval vm_compute in for_await update_native 2 stream_by_two (five_rows lazy_pool_config).

Definition stream_at_yield : StreamGenerator :=
  mkGen streaming_connection select_all (of_Z 2) (SuspendedYield 3).

(** A fresh driver next to a cursor that has no rows left. *)
Definition exhausted_cursor (config : PostgresDialectConfig) : World (list nat) :=
  initial_world config [].

(** A consumer that takes two batches, leaves, and asks once more. *)
Definition stream_left_early
    : list (Outcome (option (QueryResult nat))) * StreamGenerator * World (list nat) :=
  Eval vm_compute in
    consume update_native [Next; Next; Return; Next] stream_by_two
      (five_rows lazy_pool_config).

(** The configuration [pool_and_client_config] without its client, and a
    run of the driver a dialect creates from it. *)
Definition pool_only_config : PostgresDialectConfig :=
  mkConfig (Some (Value 7%positive)) None (Some 1%positive) false.

Definition pool_only_run : list (Outcome Returned) * World (list nat) :=
  Eval vm_compute in
    perform_all update_native [Init; AcquireConnection; Destroy]
      (created_by (mkDialect pool_only_config) [1; 2; 3; 4; 5]).
(** * Single-client mode with calls that overlap: inputs *)







(** * Properties *)

(** ** Numbers *)

Lemma Qred_inject_Z (z : Z) : Qred (inject_Z z) = inject_Z z.
Proof.
  unfold inject_Z, Qred.
  pose proof (Z.ggcd_gcd z 1) as Hg.
  pose proof (Z.ggcd_correct_divisors z 1) as Hd.
  destruct (Z.ggcd z 1) as [g [a b]]. simpl in *.
  rewrite Z.gcd_1_r in Hg. subst g.
  destruct Hd as [Ha Hb]. rewrite Z.mul_1_l in Ha, Hb. subst a b.
  reflexivity.
Qed.

Lemma Number_isInteger_spec (x : JsNumber) :
  Number_isInteger x = true ↔ ∃ z, is_integer x z.
Proof.
  split.
  - destruct x as [q| | |]; unfold Number_isInteger; try discriminate.
    intros H. apply Pos.eqb_eq in H.
    exists (Qnum (Qred q)), q. split; [reflexivity|].
    rewrite <- (Qred_correct q) at 1.
    destruct (Qred q) as [n d]. simpl in *. subst d. reflexivity.
  - intros (z & q & -> & Hq). unfold Number_isInteger.
    apply Pos.eqb_eq. rewrite (Qred_complete _ _ Hq), Qred_inject_Z. reflexivity.
Qed.

Lemma BigInt_integer (x : JsNumber) (z : Z) :
  is_integer x z → BigInt (Some x) = inr z.
Proof.
  intros (q & -> & Hq). unfold BigInt.
  assert (Hi : Number_isInteger (Finite q) = true).
  { apply Number_isInteger_spec. exists z, q. split; [reflexivity|exact Hq]. }
  rewrite Hi. f_equal.
  rewrite (Qred_complete _ _ Hq), Qred_inject_Z. reflexivity.
Qed.

Lemma BigInt_inr (x : option JsNumber) (z : Z) :
  BigInt x = inr z → ∃ n, x = Some n ∧ is_integer n z.
Proof.
  destruct x as [[q| | |]|]; unfold BigInt, Number_isInteger; try discriminate.
  destruct (Pos.eqb (Qden (Qred q)) 1) eqn:E; [|discriminate].
  intros [= <-]. exists (Finite q). split; [reflexivity|].
  exists q. split; [reflexivity|].
  apply Pos.eqb_eq in E.
  rewrite <- (Qred_correct q) at 1.
  destruct (Qred q) as [n d]. simpl in *. subst d. reflexivity.
Qed.

(** ** Tactics and facts shared by the proofs *)

Ltac unfold_M :=
  unfold mbind, M_bind, mret, M_ret, throw, try_catch, lift_result, call,
    get_driver, set_driver, new_PostgresConnection, deref in *.

Ltac invert H := inversion H; subst; clear H.

Lemma count_app (p : Event → bool) (tr1 tr2 : list Event) :
  count p (tr1 ++ tr2) = count p tr1 + count p tr2.
Proof.
  induction tr1 as [|ev tr1 IH]; simpl; [reflexivity|].
  rewrite IH. lia.
Qed.

Lemma events_since_app {W} (w w' : World W) (evs : list Event) :
  trace w' = trace w ++ evs → events_since w w' = evs.
Proof. unfold events_since. intros ->. apply drop_app_length. Qed.

(** ** [executeQuery] *)

Lemma mutating_test (cmd : string) :
  String.eqb cmd "INSERT" || String.eqb cmd "UPDATE" || String.eqb cmd "DELETE" = true
  ↔ mutating cmd.
Proof.
  unfold mutating.
  rewrite !orb_true_iff, !String.eqb_eq. tauto.
Qed.

Section ExecuteQuery.
Context {O W : Type} (native : Native O W).

(** What a resolved [executeQuery] comes from: the answer of the one
    [client.query] call it makes. *)
Lemma executeQuery_inv (this : PostgresConnection) (q : CompiledQuery)
    (w w' : World W) (r : QueryResult O) :
  executeQuery native this q w = (Resolved r, w') →
  ∃ res s',
    client_query native (conn_client this) (sql q) (parameters q) (native_state w)
      = (Resolved res, s')
    ∧ w' = mkWorld (driver w) (heap w) s'
             (trace w ++ [EvQuery (conn_client this) (sql q) (parameters q)])
    ∧ ((mutating (command res)
        ∧ ∃ n, BigInt (rowCount res) = inr n
               ∧ r = mkResult (Some n) (Some n) (rows_or_empty (pg_rows res)))
       ∨ (¬ mutating (command res)
          ∧ r = mkResult None None (rows_or_empty (pg_rows res)))).
Proof.
  unfold executeQuery. unfold_M.
  destruct (client_query native _ _ _ _) as [[res|e] s'] eqn:E; [|discriminate].
  intros H. exists res, s'. split; [reflexivity|].
  destruct (String.eqb (command res) "INSERT" || String.eqb (command res) "UPDATE"
            || String.eqb (command res) "DELETE") eqn:Hm.
  - apply mutating_test in Hm.
    destruct (BigInt (rowCount res)) as [e|n]; [discriminate|].
    invert H. split; [reflexivity|]. left. eauto.
  - invert H. split; [reflexivity|]. right. split; [|reflexivity].
    intros Hmut. apply mutating_test in Hmut. congruence.
Qed.

(** The call does resolve when the client resolves and, for a command that
    changes rows, reports an integral [rowCount]. *)
Lemma executeQuery_resolves (this : PostgresConnection) (q : CompiledQuery)
    (w : World W) (res : PgResult O) (s' : W) :
  client_query native (conn_client this) (sql q) (parameters q) (native_state w)
    = (Resolved res, s') →
  (mutating (command res) →
   ∃ (n : Z) (reported : JsNumber), rowCount res = Some reported ∧ is_integer reported n) →
  ∃ r w', executeQuery native this q w = (Resolved r, w').
Proof.
  intros Hq Hcount. unfold executeQuery. unfold_M. rewrite Hq.
  destruct (String.eqb (command res) "INSERT" || String.eqb (command res) "UPDATE"
            || String.eqb (command res) "DELETE") eqn:Hm.
  - apply mutating_test in Hm. destruct (Hcount Hm) as (n & reported & Hrc & Hint).
    rewrite Hrc, (BigInt_integer reported n Hint). simpl. eauto.
  - eauto.
Qed.

(** C5. Every [executeQuery] call that succeeds returns the rows the client
    reported (the empty sequence when it reported none); when the reported
    command is INSERT, UPDATE or DELETE the result also carries the
    affected-row count, an unbounded integer equal to the reported
    [rowCount]; for every other command it carries no affected-row count. *)
Theorem executeQuery_result_by_command (this : PostgresConnection)
    (q : CompiledQuery) (w w' : World W) (r : QueryResult O) :
  executeQuery native this q w = (Resolved r, w') →
  ∃ res s',
    client_query native (conn_client this) (sql q) (parameters q) (native_state w)
      = (Resolved res, s')
    ∧ (∀ l, pg_rows res = Some l → rows r = l)
    ∧ (pg_rows res = None → rows r = [])
    ∧ (mutating (command res) →
       ∃ (n : Z) (reported : JsNumber),
         rowCount res = Some reported ∧ is_integer reported n
         ∧ numAffectedRows r = Some n)
    ∧ (¬ mutating (command res) →
       numAffectedRows r = None ∧ numUpdatedOrDeletedRows r = None).
Proof.
  intros H. apply executeQuery_inv in H as (res & s' & Hq & _ & Hcase).
  exists res, s'. split; [exact Hq|].
  destruct Hcase as [(Hmut & n & Hb & ->)|(Hnot & ->)]; simpl.
  - apply BigInt_inr in Hb as (reported & Hrc & Hint).
    split; [|split; [|split]].
    + intros l ->. reflexivity.
    + intros ->. reflexivity.
    + intros _. exists n, reported. auto.
    + intros Hnot. contradiction.
  - split; [|split; [|split]].
    + intros l ->. reflexivity.
    + intros ->. reflexivity.
    + intros Hmut. contradiction.
    + intros _. split; reflexivity.
Qed.

End ExecuteQuery.

(** ** [streamQuery]: the checks made before anything else *)

Lemma inject_Z_le_0 (q : Q) (z : Z) : Qeq q (inject_Z z) → (Qle q 0 ↔ (z <= 0)%Z).
Proof.
  intros Hq. rewrite Hq. change 0%Q with (inject_Z 0). rewrite <- Zle_Qle. reflexivity.
Qed.

Lemma chunk_check_rejects (x : JsNumber) :
  chunk_is_zero x ∨ chunk_is_negative x ∨ chunk_is_non_integral x →
  negb (Number_isInteger x) || le_zero x = true.
Proof.
  intros [(q & -> & Hq)|[[->|(q & -> & Hq)]|Hn]]; apply orb_true_iff.
  - right. simpl. apply Qle_bool_iff. apply (inject_Z_le_0 q 0 Hq). lia.
  - right. reflexivity.
  - right. simpl. apply Qle_bool_iff. apply Qlt_le_weak. exact Hq.
  - left. apply negb_true_iff. destruct (Number_isInteger x) eqn:E; [|reflexivity].
    exfalso. apply Hn. apply Number_isInteger_spec. exact E.
Qed.

Lemma chunk_check_accepts (x : JsNumber) :
  positive_integer x → negb (Number_isInteger x) || le_zero x = false.
Proof.
  intros (z & Hz & Hi). apply orb_false_iff. split.
  - apply negb_false_iff. apply Number_isInteger_spec. exists z. exact Hi.
  - destruct Hi as (q & -> & Hq). simpl.
    destruct (Qle_bool q 0) eqn:E; [|reflexivity].
    apply Qle_bool_iff in E. apply (inject_Z_le_0 q z Hq) in E. lia.
Qed.

(** Whatever is not a positive integer falls in one of the three cases. *)
Lemma not_positive_integer_cases (x : JsNumber) :
  ¬ positive_integer x →
  chunk_is_zero x ∨ chunk_is_negative x ∨ chunk_is_non_integral x.
Proof.
  intros Hn. destruct (Number_isInteger x) eqn:E.
  - apply Number_isInteger_spec in E as (z & Hz).
    destruct (Z.lt_trichotomy z 0) as [Hlt|[->|Hgt]].
    + right. left. right. destruct Hz as (q & -> & Hq). exists q. split; [reflexivity|].
      rewrite Hq. change 0%Q with (inject_Z 0). rewrite <- Zlt_Qlt. exact Hlt.
    + left. exact Hz.
    + exfalso. apply Hn. exists z. split; [lia|exact Hz].
  - right. right. intros Hz. apply Number_isInteger_spec in Hz. congruence.
Qed.

Section StreamQuery.
Context {O W : Type} (native : Native O W).

(** C6, as the code has it. The stream fails at once, leaving the state of
    the world as it was (no native call is logged, the native state is
    untouched): with the error that names the missing [cursor] when no
    cursor constructor was configured, whatever [chunkSize] is; and with the
    error on [chunkSize] when a cursor constructor was configured and
    [chunkSize] is zero, negative or not integral.  So it fails, before any
    native call, whenever one of the two conditions is not met. *)
Theorem streamQuery_fails_before_any_native_call (this : PostgresConnection)
    (q : CompiledQuery) (chunkSize : JsNumber) (w : World W) :
  (cursor (conn_options this) = None →
   gen_next native (streamQuery this q chunkSize) w
   = (Rejected (Error_at "PostgresConnection.streamQuery" cursor_missing_message),
      finished (streamQuery this q chunkSize), w))
  ∧ (cursor (conn_options this) ≠ None →
     chunk_is_zero chunkSize ∨ chunk_is_negative chunkSize
       ∨ chunk_is_non_integral chunkSize →
     gen_next native (streamQuery this q chunkSize) w
     = (Rejected (Error_at "PostgresConnection.streamQuery" chunk_size_message),
        finished (streamQuery this q chunkSize), w))
  ∧ (cursor (conn_options this) = None
     ∨ chunk_is_zero chunkSize ∨ chunk_is_negative chunkSize
     ∨ chunk_is_non_integral chunkSize →
     ∃ e, gen_next native (streamQuery this q chunkSize) w
          = (Rejected e, finished (streamQuery this q chunkSize), w)).
Proof.
  assert (Hnone : cursor (conn_options this) = None →
            gen_next native (streamQuery this q chunkSize) w
            = (Rejected (Error_at "PostgresConnection.streamQuery" cursor_missing_message),
               finished (streamQuery this q chunkSize), w)).
  { intros Hc. unfold gen_next, stream_open. simpl. rewrite Hc. reflexivity. }
  assert (Hchunk : cursor (conn_options this) ≠ None →
            chunk_is_zero chunkSize ∨ chunk_is_negative chunkSize
              ∨ chunk_is_non_integral chunkSize →
            gen_next native (streamQuery this q chunkSize) w
            = (Rejected (Error_at "PostgresConnection.streamQuery" chunk_size_message),
               finished (streamQuery this q chunkSize), w)).
  { intros Hc Hbad. unfold gen_next, stream_open. simpl.
    destruct (cursor (conn_options this)) as [ctor|]; [|congruence].
    rewrite (chunk_check_rejects _ Hbad). reflexivity. }
  split; [exact Hnone|]. split; [exact Hchunk|].
  intros Hbad. destruct (cursor (conn_options this)) as [ctor|] eqn:Hc.
  - destruct Hbad as [Hbad|Hbad]; [discriminate|].
    eexists. apply Hchunk; [discriminate|exact Hbad].
  - eexists. apply Hnone. reflexivity.
Qed.

End StreamQuery.

(** ** [streamQuery]: the cursor is closed when the iteration ends *)

Section StreamCleanup.
Context {O W : Type} (native : Native O W).

Lemma stream_open_trace (g : StreamGenerator) (w w0 : World W) (cur : CursorRef) :
  stream_open native g w = (Resolved cur, w0) →
  ∃ evs, trace w0 = trace w ++ evs ∧ count is_cursor_close evs = 0.
Proof.
  unfold stream_open.
  destruct (cursor (conn_options (gen_this g))) as [ctor|]; [|discriminate].
  destruct (negb (Number_isInteger (gen_chunkSize g)) || le_zero (gen_chunkSize g));
    [discriminate|].
  unfold_M. simpl.
  destruct (cursor_new native _ _ _ _) as [[sub|e] s1]; [|discriminate].
  simpl.
  destruct (client_query_cursor native _ _ _) as [[c|e] s2]; [|discriminate].
  intros H. invert H. simpl.
  eexists. rewrite <- app_assoc. split; reflexivity.
Qed.

(** Leaving the [try] block closes the cursor once and completes the
    generator. *)
Lemma leave_try_spec (g : StreamGenerator) (cur : CursorRef)
    (pending res : Outcome (option (QueryResult O))) (g' : StreamGenerator)
    (w w' : World W) :
  final_result pending →
  leave_try native g cur pending w = (res, g', w') →
  trace w' = trace w ++ [EvCursorClose cur]
  ∧ gen_state g' = Completed ∧ final_result res.
Proof.
  intros Hp. unfold leave_try. unfold_M.
  destruct (cursor_close native cur (native_state w)) as [[[]|e] s1];
    intros H; invert H; simpl; repeat split; try assumption.
  right. eauto.
Qed.

(** One turn of the loop either yields a batch and stays in the [try] block
    without closing, or leaves it. *)
Lemma loop_turn_spec (g : StreamGenerator) (cur : CursorRef)
    (res : Outcome (option (QueryResult O))) (g' : StreamGenerator)
    (w w' : World W) :
  loop_turn native g cur w = (res, g', w') →
  (trace w' = trace w ++ [EvCursorRead cur (gen_chunkSize g)]
   ∧ gen_state g' = SuspendedYield cur ∧ ¬ final_result res)
  ∨ (trace w' = trace w ++ [EvCursorRead cur (gen_chunkSize g); EvCursorClose cur]
     ∧ gen_state g' = Completed ∧ final_result res).
Proof.
  unfold loop_turn.
  destruct (call _ _ w) as [read w1] eqn:Hcall.
  assert (Ht : trace w1 = trace w ++ [EvCursorRead cur (gen_chunkSize g)]).
  { unfold call in Hcall.
    destruct (cursor_read native cur (gen_chunkSize g) (native_state w)).
    invert Hcall. reflexivity. }
  destruct read as [batch|e].
  - destruct (Nat.eqb (length batch) 0).
    + intros H. apply leave_try_spec in H as (Ht' & Hs & Hf); [|left; reflexivity].
      right. rewrite Ht', Ht, <- app_assoc. auto.
    + intros H. invert H. left. repeat split; [assumption|].
      intros [Hf|[e Hf]]; discriminate.
  - intros H. apply leave_try_spec in H as (Ht' & Hs & Hf); [|right; eauto].
    right. rewrite Ht', Ht, <- app_assoc. auto.
Qed.

(** Any request made to a started generator: it stays suspended without a
    close, or it completes with exactly one close; a completed generator
    makes no native call at all. *)
Lemma gen_step_started (cur : CursorRef) (r : Request) (g g' : StreamGenerator)
    (res : Outcome (option (QueryResult O))) (w w' : World W) :
  started_on cur g →
  gen_step native r g w = (res, g', w') →
  ∃ evs, trace w' = trace w ++ evs
    ∧ started_on cur g'
    ∧ count is_cursor_close evs + (if is_completed g then 1 else 0)
      = (if is_completed g' then 1 else 0)
    ∧ (is_completed g' = true ↔ is_completed g = true ∨ final_result res)
    ∧ (leaving_request r → is_completed g' = true).
Proof.
  intros [Hs|Hs] H.
  - assert (Hleave : ∀ pending, final_result pending →
              leave_try native g cur pending w = (res, g', w') →
              ∃ evs, trace w' = trace w ++ evs
                ∧ started_on cur g'
                ∧ count is_cursor_close evs + (if is_completed g then 1 else 0)
                  = (if is_completed g' then 1 else 0)
                ∧ (is_completed g' = true ↔ is_completed g = true ∨ final_result res)
                ∧ (leaving_request r → is_completed g' = true)).
    { intros pending Hp Hl.
      apply leave_try_spec in Hl as (Ht & Hs' & Hf); [|exact Hp].
      eexists. split; [exact Ht|]. unfold started_on, is_completed.
      rewrite Hs, Hs'. simpl.
      split; [right; reflexivity|]. split; [reflexivity|].
      split; [split; auto|auto]. }
    destruct r as [| |e]; simpl in H.
    + unfold gen_next in H. rewrite Hs in H.
      apply loop_turn_spec in H as [(Ht & Hs' & Hf)|(Ht & Hs' & Hf)];
        eexists; (split; [exact Ht|]); unfold started_on, is_completed;
        rewrite Hs, Hs'; simpl.
      * split; [left; reflexivity|]. split; [reflexivity|]. split.
        -- split; [discriminate|]. intros [?|?]; [discriminate|contradiction].
        -- intros [?|[? ?]]; discriminate.
      * split; [right; reflexivity|]. split; [reflexivity|].
        split; [split; auto|auto].
    + unfold gen_return in H. rewrite Hs in H.
      apply (Hleave (Resolved None)); [left; reflexivity|exact H].
    + unfold gen_throw in H. rewrite Hs in H.
      apply (Hleave (Rejected e)); [right; eauto|exact H].
  - exists []. rewrite app_nil_r.
    assert (Hsame : (res, g', w') = (res, g, w) → final_result res →
              trace w' = trace w
              ∧ started_on cur g'
              ∧ count is_cursor_close [] + (if is_completed g then 1 else 0)
                = (if is_completed g' then 1 else 0)
              ∧ (is_completed g' = true ↔ is_completed g = true ∨ final_result res)
              ∧ (leaving_request r → is_completed g' = true)).
    { intros Heq Hf. invert Heq. unfold started_on, is_completed. rewrite Hs. simpl.
      split; [reflexivity|]. split; [right; reflexivity|]. split; [reflexivity|].
      split; [split; auto|auto]. }
    destruct r as [| |e]; simpl in H;
      [unfold gen_next in H|unfold gen_return in H|unfold gen_throw in H];
      rewrite Hs in H; invert H; apply Hsame; try reflexivity;
      unfold final_result; eauto.
Qed.

Lemma consume_started (cur : CursorRef) (reqs : list Request) :
  ∀ (g g' : StreamGenerator) (w w' : World W)
    (results : list (Outcome (option (QueryResult O)))),
  started_on cur g →
  consume native reqs g w = (results, g', w') →
  ∃ evs, trace w' = trace w ++ evs
    ∧ count is_cursor_close evs + (if is_completed g then 1 else 0)
      = (if is_completed g' then 1 else 0)
    ∧ (is_completed g' = true ↔ is_completed g = true ∨ Exists final_result results)
    ∧ (Exists leaving_request reqs → is_completed g' = true).
Proof.
  induction reqs as [|r reqs IH]; intros g g' w w' results Hg H; simpl in H.
  - invert H. exists []. rewrite app_nil_r. split; [reflexivity|].
    split; [reflexivity|]. split.
    + split; [auto|]. intros [?|Hex]; [assumption|]. inversion Hex.
    + intros Hex. inversion Hex.
  - destruct (gen_step native r g w) as [[res g1] w1] eqn:Hstep.
    destruct (consume native reqs g1 w1) as [[ress g2] w2] eqn:Hrest.
    invert H.
    apply (gen_step_started cur) in Hstep as (evs1 & Ht1 & Hg1 & Hc1 & Hd1 & Hl1);
      [|exact Hg].
    apply IH in Hrest as (evs2 & Ht2 & Hc2 & Hd2 & Hl2); [|exact Hg1].
    exists (evs1 ++ evs2). split; [rewrite Ht2, Ht1, app_assoc; reflexivity|].
    split; [rewrite count_app; lia|]. split.
    + rewrite Hd2, Hd1. split.
      * intros [[?|?]|?]; auto.
      * intros [?|Hex]; [auto|]. inversion Hex; subst; auto.
    + intros Hex. inversion Hex; subst; [apply Hd2; left; auto|auto].
Qed.

(** A step of a stream suspended at [yield]: one [read(chunkSize)], whose
    answer decides what the step settles to. *)
Lemma gen_next_at_yield (g g' : StreamGenerator) (cur : CursorRef) (w w' : World W)
    (res : Outcome (option (QueryResult O))) :
  gen_state g = SuspendedYield cur →
  gen_next native g w = (res, g', w') →
  ∃ read s',
    cursor_read native cur (gen_chunkSize g) (native_state w) = (read, s')
    ∧ match read with
      | Resolved [] =>
          is_completed g' = true ∧ final_result res
          ∧ trace w' = trace w ++ [EvCursorRead cur (gen_chunkSize g); EvCursorClose cur]
      | Resolved batch =>
          res = Resolved (Some (mkResult None None batch))
          ∧ gen_state g' = SuspendedYield cur
          ∧ trace w' = trace w ++ [EvCursorRead cur (gen_chunkSize g)]
      | Rejected e =>
          is_completed g' = true ∧ (∃ e', res = Rejected e')
          ∧ trace w' = trace w ++ [EvCursorRead cur (gen_chunkSize g); EvCursorClose cur]
      end.
Proof.
  intros Hs H. unfold gen_next, loop_turn, call in H. rewrite Hs in H.
  destruct (cursor_read native cur (gen_chunkSize g) (native_state w))
    as [[batch|e] s1] eqn:Hread;
    [exists (Resolved batch), s1|exists (Rejected e), s1]; (split; [reflexivity|]).
  - destruct batch as [|r batch]; simpl in H.
    + unfold leave_try, call in H. simpl in H.
      destruct (cursor_close native cur s1) as [[[]|e] s2]; invert H; simpl;
        rewrite <- app_assoc; (split; [reflexivity|]); (split; [|reflexivity]);
        [left|right]; eauto.
    + invert H. auto.
  - unfold leave_try, call in H. simpl in H.
    destruct (cursor_close native cur s1) as [[[]|e2] s2]; invert H; simpl;
      rewrite <- app_assoc; (split; [reflexivity|]); (split; [|reflexivity]); eauto.
Qed.

(** C1. Once the stream has started iterating (the first [next()] has opened
    the cursor and entered the loop), whatever the consumer asks next and
    whatever the native side answers, the cursor's [close()] has been called
    exactly once if the iteration has ended and not at all if it has not.
    The iteration has ended exactly when some request settled with
    [done] (a read returned zero rows, or the consumer asked to return) or
    with a rejection (a read, or [close()] itself, failed), and it has ended
    as soon as the consumer has terminated it early.  A step whose read
    returns zero rows or fails is such an end: it closes the cursor and
    completes the stream. *)
Theorem streamQuery_closes_cursor_exactly_once (this : PostgresConnection)
    (q : CompiledQuery) (chunkSize : JsNumber) (reqs : list Request)
    (w w0 w' : World W) (cur : CursorRef) (g' : StreamGenerator)
    (results : list (Outcome (option (QueryResult O)))) :
  stream_open native (streamQuery this q chunkSize) w = (Resolved cur, w0) →
  consume native (Next :: reqs) (streamQuery this q chunkSize) w = (results, g', w') →
  count is_cursor_close (events_since w w') = (if is_completed g' then 1 else 0)
  ∧ (is_completed g' = true ↔ Exists final_result results)
  ∧ (Exists leaving_request reqs → is_completed g' = true)
  ∧ (∀ (g g1 : StreamGenerator) (c : CursorRef) (w1 w2 : World W)
       (res : Outcome (option (QueryResult O))) (read : Outcome (list O)) (s' : W),
       gen_state g = SuspendedYield c →
       gen_next native g w1 = (res, g1, w2) →
       cursor_read native c (gen_chunkSize g) (native_state w1) = (read, s') →
       read = Resolved [] ∨ (∃ e, read = Rejected e) →
       is_completed g1 = true
       ∧ events_since w1 w2 = [EvCursorRead c (gen_chunkSize g); EvCursorClose c]).
Proof.
  intros Hopen H.
  assert (Hsteps : ∀ (g g1 : StreamGenerator) (c : CursorRef) (w1 w2 : World W)
       (res : Outcome (option (QueryResult O))) (read : Outcome (list O)) (s' : W),
       gen_state g = SuspendedYield c →
       gen_next native g w1 = (res, g1, w2) →
       cursor_read native c (gen_chunkSize g) (native_state w1) = (read, s') →
       read = Resolved [] ∨ (∃ e, read = Rejected e) →
       is_completed g1 = true
       ∧ events_since w1 w2 = [EvCursorRead c (gen_chunkSize g); EvCursorClose c]).
  { intros g g1 c w1 w2 res read s' Hs Hnext Hread Hend.
    apply (gen_next_at_yield g g1 c w1 w2 res Hs) in Hnext
      as (read' & s'' & Hread' & Hcase).
    rewrite Hread in Hread'. invert Hread'.
    destruct Hend as [->|[e ->]]; destruct Hcase as (Hdone & _ & Ht);
      (split; [exact Hdone|apply events_since_app; exact Ht]). }
  simpl in H. unfold gen_next in H. simpl in H.
  rewrite Hopen in H.
  destruct (loop_turn native (streamQuery this q chunkSize) cur w0)
    as [[res g1] w1] eqn:Hturn.
  destruct (consume native reqs g1 w1) as [[ress g2] w2] eqn:Hrest.
  invert H.
  apply stream_open_trace in Hopen as (evs0 & Ht0 & Hc0).
  assert (Hfirst : ∃ evs1, trace w1 = trace w0 ++ evs1 ∧ started_on cur g1
            ∧ count is_cursor_close evs1 = (if is_completed g1 then 1 else 0)
            ∧ (is_completed g1 = true ↔ final_result res)).
  { apply loop_turn_spec in Hturn as [(Ht & Hs & Hf)|(Ht & Hs & Hf)];
      eexists; (split; [exact Ht|]); unfold started_on, is_completed; rewrite Hs; simpl.
    - split; [left; reflexivity|]. split; [reflexivity|].
      split; [discriminate|contradiction].
    - split; [right; reflexivity|]. split; [reflexivity|]. split; auto. }
  destruct Hfirst as (evs1 & Ht1 & Hg1 & Hc1 & Hd1).
  apply (consume_started cur) in Hrest as (evs2 & Ht2 & Hc2 & Hd2 & Hl2); [|exact Hg1].
  assert (Hev : events_since w w' = evs0 ++ evs1 ++ evs2).
  { apply events_since_app. rewrite Ht2, Ht1, Ht0, <- !app_assoc. reflexivity. }
  rewrite Hev, !count_app, Hc0. split; [lia|]. split; [|split; [exact Hl2|exact Hsteps]].
  rewrite Hd2, Hd1. split.
  - intros [?|?]; auto.
  - intros Hex. inversion Hex; subst; auto.
Qed.

End StreamCleanup.

(** ** [streamQuery] over a result of [n] rows *)

Lemma rows_requested_integer (x : JsNumber) (c : Z) :
  is_integer x c → rows_requested x = Z.to_nat c.
Proof.
  intros (q & -> & Hq). unfold rows_requested. rewrite Hq, Qfloor_Z. reflexivity.
Qed.

Lemma batch_sizes_0 (c : nat) : 0 < c → batch_sizes c 0 = [].
Proof.
  intros Hc. unfold batch_sizes.
  rewrite Nat.Div0.div_0_l, Nat.Div0.mod_0_l. reflexivity.
Qed.

Lemma batch_sizes_step (c n : nat) :
  0 < c → 0 < n → batch_sizes c n = Nat.min c n :: batch_sizes c (n - c).
Proof.
  intros Hc Hn. destruct (Nat.lt_ge_cases n c) as [Hlt|Hge].
  - replace (n - c) with 0 by lia. rewrite (batch_sizes_0 c Hc).
    unfold batch_sizes. rewrite Nat.div_small, Nat.mod_small by lia.
    rewrite Nat.min_r by lia. simpl.
    destruct (Nat.eqb_spec n 0); [lia|reflexivity].
  - unfold batch_sizes.
    assert (Hd : n / c = S ((n - c) / c)).
    { replace n with (1 * c + (n - c)) at 1 by lia.
      rewrite Nat.div_add_l by lia. reflexivity. }
    assert (Hm : n mod c = (n - c) mod c).
    { replace n with ((n - c) + 1 * c) at 1 by lia.
      apply Nat.Div0.mod_add. }
    rewrite Hd, Hm, Nat.min_l by lia. reflexivity.
Qed.

Section Batches.
Context {O : Type} (answer : PgResult O).

(** The loop over a cursor with [n] rows left: the batches are those rows cut
    into pieces of [c]; one more read, which is empty, ends the loop, and the
    cursor is closed. *)
Lemma for_await_from_yield (cur : CursorRef) (c : Z) :
  (0 < c)%Z →
  ∀ (fuel : nat) (g : StreamGenerator) (w : World (list O)),
  gen_state g = SuspendedYield cur →
  is_integer (gen_chunkSize g) c →
  length (native_state w) < fuel →
  ∃ batches w',
    for_await (sample_native answer) fuel g w = (batches, Exhausted, finished g, w')
    ∧ concat (map rows batches) = native_state w
    ∧ Forall (λ b, 1 ≤ length (rows b) ≤ Z.to_nat c) batches
    ∧ map (λ b, length (rows b)) batches
      = batch_sizes (Z.to_nat c) (length (native_state w))
    ∧ trace w' = trace w
                 ++ repeat (EvCursorRead cur (gen_chunkSize g)) (S (length batches))
                 ++ [EvCursorClose cur].
Proof.
  intros Hc. induction fuel as [|fuel IH]; intros g w Hs Hchunk Hfuel; [lia|].
  assert (Hk : 0 < Z.to_nat c) by lia.
  simpl. unfold gen_next. rewrite Hs. unfold loop_turn, call. simpl.
  rewrite (rows_requested_integer _ c Hchunk).
  destruct (native_state w) as [|r rs] eqn:Hns.
  - rewrite take_nil. simpl. unfold leave_try, call. simpl.
    eexists [], _. split; [reflexivity|]. simpl.
    split; [reflexivity|]. split; [constructor|].
    split; [rewrite batch_sizes_0 by exact Hk; reflexivity|].
    rewrite <- app_assoc. reflexivity.
  - destruct (Z.to_nat c) as [|k] eqn:Hkc; [lia|].
    simpl take. simpl length. simpl Nat.eqb. cbv iota.
    set (g1 := mkGen (gen_this g) (gen_query g) (gen_chunkSize g) (SuspendedYield cur)).
    set (w1 := mkWorld (driver w) (heap w) (drop (S k) (r :: rs))
                 (trace w ++ [EvCursorRead cur (gen_chunkSize g)])).
    destruct (IH g1 w1) as (batches & w' & Hrun & Hcat & Hall & Hsizes & Htr);
      [reflexivity|exact Hchunk| |].
    { subst w1. simpl native_state. rewrite length_drop. simpl in Hfuel |- *. lia. }
    rewrite Hrun.
    eexists (_ :: batches), w'. split; [reflexivity|].
    split; [|split; [|split]].
    + simpl. rewrite Hcat. subst w1. simpl. f_equal. apply take_drop.
    + constructor; [|exact Hall]. simpl. rewrite length_take. lia.
    + simpl map. rewrite Hsizes. subst w1. simpl native_state.
      rewrite (batch_sizes_step (S k) (S (length rs))) by lia.
      rewrite length_drop, length_take. repeat (f_equal; try lia).
    + rewrite Htr. subst w1. simpl. rewrite <- app_assoc. reflexivity.
Qed.

Lemma stream_open_sample (this : PostgresConnection) (q : CompiledQuery)
    (chunkSize : JsNumber) (ctor : CursorCtor) (w : World (list O)) :
  cursor (conn_options this) = Some ctor →
  positive_integer chunkSize →
  stream_open (sample_native answer) (streamQuery this q chunkSize) w
  = (Resolved 3%positive,
     mkWorld (driver w) (heap w) (native_state w)
       ((trace w ++ [EvCursorNew ctor (sql q) (parameters q)])
        ++ [EvQueryCursor (conn_client this) 3])).
Proof.
  intros Hcur Hpos. unfold stream_open, streamQuery.
  cbn [gen_this gen_chunkSize gen_query]. rewrite Hcur.
  rewrite (chunk_check_accepts chunkSize Hpos). reflexivity.
Qed.

(** C2. Each step of a started stream makes one [read(chunkSize)]; a read
    that returns rows yields them as one batch and a read that returns no
    row ends the stream.  With a positive integer [chunkSize] over a result
    of [n] rows: the batches are the rows in order, each of one to
    [chunkSize] rows, of sizes [chunkSize, ..., chunkSize, remainder]; the
    reads are one more than the batches, the last one returning no row, after
    which the stream is finished and the cursor closed.  With [chunkSize = 2]
    over five rows the sizes are [2, 2, 1]. *)
Theorem streamQuery_yields_one_batch_per_non_empty_read :
  (∀ (W : Type) (native : Native O W) (g g' : StreamGenerator) (cur : CursorRef)
     (w w' : World W) (res : Outcome (option (QueryResult O))),
     gen_state g = SuspendedYield cur →
     gen_next native g w = (res, g', w') →
     ∃ read s',
       cursor_read native cur (gen_chunkSize g) (native_state w) = (read, s')
       ∧ (∀ batch, read = Resolved batch → batch ≠ [] →
            res = Resolved (Some (mkResult None None batch))
            ∧ gen_state g' = SuspendedYield cur
            ∧ events_since w w' = [EvCursorRead cur (gen_chunkSize g)])
       ∧ (read = Resolved [] →
            is_completed g' = true ∧ final_result res
            ∧ events_since w w'
              = [EvCursorRead cur (gen_chunkSize g); EvCursorClose cur]))
  ∧ (∀ (this : PostgresConnection) (q : CompiledQuery) (ctor : CursorCtor)
       (chunkSize : JsNumber) (c : Z) (w : World (list O)) (fuel : nat),
       cursor (conn_options this) = Some ctor →
       is_integer chunkSize c →
       (0 < c)%Z →
       length (native_state w) < fuel →
       ∃ batches g' w',
         for_await (sample_native answer) fuel (streamQuery this q chunkSize) w
         = (batches, Exhausted, g', w')
         ∧ concat (map rows batches) = native_state w
         ∧ Forall (λ b, 1 ≤ length (rows b) ≤ Z.to_nat c) batches
         ∧ map (λ b, length (rows b)) batches
           = batch_sizes (Z.to_nat c) (length (native_state w))
         ∧ events_since w w'
           = [EvCursorNew ctor (sql q) (parameters q); EvQueryCursor (conn_client this) 3]
             ++ repeat (EvCursorRead 3 chunkSize) (S (length batches))
             ++ [EvCursorClose 3]
         ∧ is_completed g' = true)
  ∧ (∀ (this : PostgresConnection) (q : CompiledQuery) (ctor : CursorCtor)
       (w : World (list O)) (r1 r2 r3 r4 r5 : O),
       cursor (conn_options this) = Some ctor →
       native_state w = [r1; r2; r3; r4; r5] →
       ∃ batches g' w',
         for_await (sample_native answer) 6 (streamQuery this q (of_Z 2)) w
         = (batches, Exhausted, g', w')
         ∧ map (λ b, length (rows b)) batches = [2; 2; 1]).
Proof.
  assert (Hgen : ∀ (this : PostgresConnection) (q : CompiledQuery) (ctor : CursorCtor)
       (chunkSize : JsNumber) (c : Z) (w : World (list O)) (fuel : nat),
       cursor (conn_options this) = Some ctor →
       is_integer chunkSize c →
       (0 < c)%Z →
       length (native_state w) < fuel →
       ∃ batches g' w',
         for_await (sample_native answer) fuel (streamQuery this q chunkSize) w
         = (batches, Exhausted, g', w')
         ∧ concat (map rows batches) = native_state w
         ∧ Forall (λ b, 1 ≤ length (rows b) ≤ Z.to_nat c) batches
         ∧ map (λ b, length (rows b)) batches
           = batch_sizes (Z.to_nat c) (length (native_state w))
         ∧ events_since w w'
           = [EvCursorNew ctor (sql q) (parameters q); EvQueryCursor (conn_client this) 3]
             ++ repeat (EvCursorRead 3 chunkSize) (S (length batches))
             ++ [EvCursorClose 3]
         ∧ is_completed g' = true).
  { intros this q ctor chunkSize c w fuel Hcur Hint Hc Hfuel.
    set (g1 := mkGen this q chunkSize (SuspendedYield 3)).
    set (w1 := mkWorld (driver w) (heap w) (native_state w)
                 ((trace w ++ [EvCursorNew ctor (sql q) (parameters q)])
                  ++ [EvQueryCursor (conn_client this) 3])).
    assert (Hstart : for_await (sample_native answer) fuel (streamQuery this q chunkSize) w
                     = for_await (sample_native answer) fuel g1 w1).
    { destruct fuel as [|fuel]; [lia|]. cbn [for_await].
      unfold gen_next at 1. cbn [gen_state streamQuery].
      rewrite (stream_open_sample this q chunkSize ctor w Hcur).
      - reflexivity.
      - exists c. split; [exact Hc|exact Hint]. }
    destruct (for_await_from_yield 3 c Hc fuel g1 w1)
      as (batches & w' & Hrun & Hcat & Hall & Hsizes & Htr);
      [reflexivity|exact Hint|exact Hfuel|].
    exists batches, (finished g1), w'. rewrite Hstart.
    split; [exact Hrun|]. split; [exact Hcat|]. split; [exact Hall|].
    split; [exact Hsizes|]. split; [|reflexivity].
    apply events_since_app. rewrite Htr. subst w1. simpl.
    rewrite <- !app_assoc. reflexivity. }
  split; [|split; [exact Hgen|]].
  { intros W native g g' cur w w' res Hs Hnext.
    apply (gen_next_at_yield native g g' cur w w' res Hs) in Hnext
      as (read & s' & Hread & Hcase).
    exists read, s'. split; [exact Hread|]. split.
    - intros batch -> Hne. destruct batch as [|r batch]; [congruence|].
      destruct Hcase as (Hres & Hst & Ht). split; [exact Hres|]. split; [exact Hst|].
      apply events_since_app. exact Ht.
    - intros ->. destruct Hcase as (Hdone & Hres & Ht). split; [exact Hdone|].
      split; [exact Hres|]. apply events_since_app. exact Ht. }
  intros this q ctor w r1 r2 r3 r4 r5 Hcur Hrows.
  destruct (Hgen this q ctor (of_Z 2) 2%Z w 6 Hcur)
    as (batches & g' & w' & Hrun & _ & _ & Hs & _);
    [exists (inject_Z 2); split; reflexivity|lia|rewrite Hrows; simpl; lia|].
  exists batches, g', w'. split; [exact Hrun|].
  rewrite Hs, Hrows. reflexivity.
Qed.

End Batches.

(** ** The driver: what each call may change *)

Section DriverFrames.
Context {O W : Type} (native : Native O W).

Lemma executeQuery_frame (this : PostgresConnection) (q : CompiledQuery)
    (w w' : World W) (r : Outcome (QueryResult O)) :
  executeQuery native this q w = (r, w') →
  driver w' = driver w ∧ heap w' = heap w
  ∧ trace w' = trace w ++ [EvQuery (conn_client this) (sql q) (parameters q)].
Proof.
  unfold executeQuery. unfold_M.
  destruct (client_query native _ _ _ _) as [[res|e] s'].
  - destruct (String.eqb (command res) "INSERT" || String.eqb (command res) "UPDATE"
              || String.eqb (command res) "DELETE").
    + destruct (BigInt (rowCount res)); intros H; invert H; auto.
    + intros H; invert H; auto.
  - intros H; invert H; auto.
Qed.

(** A statement issued through a wrapper reference. *)
Lemma statement_frame (connection : ConnRef) (q : CompiledQuery)
    (w w' : World W) (r : Outcome unit) :
  (this ← deref connection; executeQuery native this q;; mret tt) w = (r, w') →
  driver w' = driver w ∧ heap w' = heap w
  ∧ ∃ evs, trace w' = trace w ++ evs ∧ Forall (λ ev, is_query ev = true) evs.
Proof.
  unfold mbind at 1. unfold M_bind, deref.
  destruct (heap w !! connection) as [this|].
  - unfold mbind, M_bind.
    destruct (executeQuery native this q w) as [[res|e] w1] eqn:E;
      apply executeQuery_frame in E as (Hd & Hh & Ht);
      intros H; invert H; (split; [assumption|split; [assumption|]]);
      eexists; (split; [exact Ht|]); repeat constructor.
  - intros H; invert H. split; [reflexivity|split; [reflexivity|]].
    exists []. rewrite app_nil_r. split; [reflexivity|constructor].
Qed.

Lemma init_frame (w w' : World W) (r : Outcome unit) :
  init native w = (r, w') →
  same_but_pool (driver w) (driver w') ∧ heap w' = heap w
  ∧ ∃ evs, trace w' = trace w ++ evs ∧ Forall (λ ev, emitted_by Init ev = true) evs.
Proof.
  unfold init, set_pool, same_but_pool. unfold_M.
  destruct (cfg_pool (d_config (driver w))) as [[v|]|].
  - intros H; invert H. simpl. repeat split.
    exists []. rewrite app_nil_r. split; [reflexivity|constructor].
  - simpl. destruct (pool_factory native (native_state w)) as [[p|e] s'];
      intros H; invert H; simpl; repeat split;
      eexists; (split; [reflexivity|]); repeat constructor.
  - intros H; invert H. repeat split.
    exists []. rewrite app_nil_r. split; [reflexivity|constructor].
Qed.

Lemma destroy_frame (w w' : World W) (r : Outcome unit) :
  destroy native w = (r, w') →
  same_but_pool (driver w) (driver w') ∧ heap w' = heap w
  ∧ ∃ evs, trace w' = trace w ++ evs ∧ Forall (λ ev, emitted_by Destroy ev = true) evs.
Proof.
  unfold destroy, set_pool, same_but_pool. unfold_M. intros H.
  destruct (d_singleClient (driver w)) as [c|] eqn:Hsc.
  - simpl in H. destruct (client_end native c (native_state w)) as [[[]|e] s'];
      invert H; simpl; rewrite ?Hsc; repeat split;
      eexists; (split; [reflexivity|]); repeat constructor.
  - destruct (d_pool (driver w)) as [p|].
    + simpl in H. destruct (pool_end native p (native_state w)) as [[[]|e] s'];
        invert H; simpl; rewrite ?Hsc; repeat split;
        eexists; (split; [reflexivity|]); repeat constructor.
    + invert H. rewrite ?Hsc. repeat split.
      exists []. rewrite app_nil_r. split; [reflexivity|constructor].
Qed.

Lemma releaseConnection_frame (connection : ConnRef) (w w' : World W) (r : Outcome unit) :
  releaseConnection native connection w = (r, w') →
  driver w' = driver w ∧ heap w' = heap w
  ∧ ∃ evs, trace w' = trace w ++ evs
           ∧ Forall (λ ev, emitted_by (ReleaseConnection connection) ev = true) evs.
Proof.
  unfold releaseConnection, PRIVATE_RELEASE_METHOD, isPoolClient. unfold_M.
  destruct (heap w !! connection) as [this|].
  - destruct (has_release native (conn_client this)).
    + destruct (client_release native (conn_client this) (native_state w))
        as [[[]|e] s'];
        intros H; invert H; simpl; repeat split;
        eexists; (split; [reflexivity|]); repeat constructor.
    + intros H; invert H. repeat split.
      exists []. rewrite app_nil_r. split; [reflexivity|constructor].
  - intros H; invert H. repeat split.
    exists []. rewrite app_nil_r. split; [reflexivity|constructor].
Qed.

End DriverFrames.

(** ** [acquireConnection], case by case *)

Section Acquire.
Context {O W : Type} (native : Native O W).

(** Pool mode. *)
Lemma acquire_pool (w w' : World W) (r : Outcome ConnRef) :
  isPoolConfig (d_config (driver w)) = true →
  acquireConnection native w = (r, w') →
  (d_pool (driver w) = None ∧ w' = w ∧ ∃ e, r = Rejected e)
  ∨ ∃ p rc s1,
      d_pool (driver w) = Some p
      ∧ pool_connect native p (native_state w) = (rc, s1)
      ∧ match rc with
        | Rejected e =>
            r = Rejected e
            ∧ w' = mkWorld (driver w) (heap w) s1 (trace w ++ [EvPoolConnect p])
        | Resolved h =>
            match d_connections (driver w) !! h with
            | Some c =>
                r = Resolved c
                ∧ w' = mkWorld (driver w) (heap w) s1 (trace w ++ [EvPoolConnect p])
            | None =>
                let c := length (heap w) in
                let d' := with_connection (driver w) h c in
                let heap' := heap w ++ [wrapper_of (driver w) h] in
                if cfg_onCreateConnection (d_config (driver w)) then
                  ∃ rh s2,
                    on_create_connection native c s1 = (rh, s2)
                    ∧ w' = mkWorld d' heap' s2
                             (trace w ++ [EvPoolConnect p; EvOnCreateConnection c h])
                    ∧ r = match rh with
                          | Resolved _ => Resolved c
                          | Rejected e => Rejected e
                          end
                else
                  r = Resolved c
                  ∧ w' = mkWorld d' heap' s1 (trace w ++ [EvPoolConnect p])
            end
        end.
Proof.
  intros Hpool. unfold acquireConnection, connections_set. unfold_M.
  rewrite Hpool. simpl.
  destruct (d_pool (driver w)) as [p|] eqn:Hp.
  - simpl. destruct (pool_connect native p (native_state w)) as [[h|e] s1] eqn:Hc.
    + simpl. intros H. right. exists p, (Resolved h), s1.
      split; [reflexivity|]. split; [exact Hc|].
      destruct (d_connections (driver w) !! h) as [c|].
      * invert H. auto.
      * simpl in H. unfold with_connection, wrapper_of.
        destruct (cfg_onCreateConnection (d_config (driver w))).
        -- simpl in H.
           destruct (on_create_connection native (length (heap w)) s1) as [[[]|e] s2];
             invert H; rewrite Hp; eexists _, _; rewrite <- app_assoc; simpl; eauto.
        -- invert H. rewrite Hp. auto.
    + intros H. invert H. right. exists p, (Rejected e), s1. auto.
  - intros H. invert H. left. eauto.
Qed.

(** Single-client mode. *)
Lemma acquire_single (w w' : World W) (r : Outcome ConnRef) :
  isPoolConfig (d_config (driver w)) = false →
  acquireConnection native w = (r, w') →
  (∃ c, d_singleConnection (driver w) = Some c ∧ r = Resolved c ∧ w' = w)
  ∨ (d_singleConnection (driver w) = None
     ∧ d_config (driver w') = d_config (driver w)
     ∧ d_pool (driver w') = d_pool (driver w)
     ∧ d_connections (driver w') = d_connections (driver w)
     ∧ ∃ evs, trace w' = trace w ++ evs
         ∧ Forall (λ ev, emitted_by AcquireConnection ev = true) evs
         ∧ count is_client_factory evs ≤ 1
         ∧ count is_hook evs = 0
         ∧ ((∃ e, r = Rejected e
                  ∧ d_singleConnection (driver w') = None ∧ heap w' = heap w)
            ∨ (∃ client, r = Resolved (length (heap w))
                  ∧ d_singleConnection (driver w') = Some (length (heap w))
                  ∧ d_singleClient (driver w') = Some client
                  ∧ heap w' = heap w ++ [wrapper_of (driver w) client]))).
Proof.
  intros Hpool. unfold acquireConnection, set_singleClient, set_singleConnection.
  unfold_M. rewrite Hpool. simpl. intros H.
  destruct (d_singleConnection (driver w)) as [c|] eqn:Hsc.
  - invert H. left. eauto.
  - right. split; [reflexivity|].
    destruct (cfg_client (d_config (driver w))) as [[v|]|].
    + simpl in H.
      destruct (client_connect native v (native_state w)) as [[[]|e] s1];
        invert H; simpl; repeat split;
        (eexists; split; [reflexivity|]);
        (split; [repeat constructor|]); (split; [simpl; lia|]);
        (split; [reflexivity|]); [right|left]; eauto 10.
    + simpl in H.
      destruct (client_factory native (native_state w)) as [[v|e] s0]; simpl in H.
      * destruct (client_connect native v s0) as [[[]|e] s1];
          invert H; simpl; repeat split;
          (eexists; split; [rewrite <- app_assoc; reflexivity|]);
          (split; [repeat constructor|]); (split; [simpl; lia|]);
          (split; [reflexivity|]); [right|left]; eauto 10.
      * invert H; simpl; repeat split.
        eexists; split; [reflexivity|].
        split; [repeat constructor|]. split; [simpl; lia|].
        split; [reflexivity|]. left. eauto 10.
    + simpl in H. invert H. simpl. repeat split.
      exists []. rewrite app_nil_r. split; [reflexivity|].
      split; [constructor|]. split; [simpl; lia|]. split; [reflexivity|].
      left. eauto 10.
Qed.

End Acquire.

(** ** Sequences of driver calls *)

Lemma same_but_pool_refl (d : PostgresDriver) : same_but_pool d d.
Proof. repeat split. Qed.

Lemma query_emitted (c : DriverCall) (ev : Event) :
  is_transaction_call c = true → is_query ev = true → emitted_by c ev = true.
Proof. destruct c, ev; simpl; try discriminate; reflexivity. Qed.

Section Runs.
Context {O W : Type} (native : Native O W).

(** Every call but [acquireConnection] leaves the heap of wrappers and all
    the driver's fields but [#pool] as they are. *)
Lemma perform_other (c : DriverCall) (w w' : World W) (r : Outcome Returned) :
  is_acquire c = false →
  perform native c w = (r, w') →
  same_but_pool (driver w) (driver w') ∧ heap w' = heap w
  ∧ (r = Resolved RVoid ∨ ∃ e, r = Rejected e)
  ∧ ∃ evs, trace w' = trace w ++ evs ∧ Forall (λ ev, emitted_by c ev = true) evs.
Proof.
  assert (Hstmt : ∀ conn q (r1 : Outcome unit) w1,
            is_transaction_call c = true →
            (this ← deref conn; executeQuery native this q;; mret tt) w = (r1, w1) →
            same_but_pool (driver w) (driver w1) ∧ heap w1 = heap w
            ∧ ∃ evs, trace w1 = trace w ++ evs
                     ∧ Forall (λ ev, emitted_by c ev = true) evs).
  { intros conn q r1 w1 Hc E.
    apply statement_frame in E as (Hd & Hh & evs & Ht & Hall).
    rewrite Hd. split; [apply same_but_pool_refl|]. split; [exact Hh|].
    exists evs. split; [exact Ht|].
    eapply Forall_impl; [exact Hall|]. intros ev. apply query_emitted. exact Hc. }
  intros Hc. destruct c as [| |conn settings|conn|conn|conn|]; try discriminate;
    unfold perform; unfold mbind at 1; unfold M_bind.
  - destruct (init native w) as [[[]|e] w1] eqn:E;
      apply init_frame in E as (Hd & Hh & evs & Ht & Hall);
      intros H; invert H; eauto 10.
  - unfold beginTransaction.
    destruct (truthy_string (isolationLevel settings));
      match goal with
      | |- context [(?m w)] => destruct (m w) as [[[]|e] w1] eqn:E
      end;
      apply Hstmt in E as (Hd & Hh & Hev);
      try reflexivity; intros H; invert H; eauto 10.
  - unfold commitTransaction.
    match goal with
    | |- context [(?m w)] => destruct (m w) as [[[]|e] w1] eqn:E
    end;
      apply Hstmt in E as (Hd & Hh & Hev);
      try reflexivity; intros H; invert H; eauto 10.
  - unfold rollbackTransaction.
    match goal with
    | |- context [(?m w)] => destruct (m w) as [[[]|e] w1] eqn:E
    end;
      apply Hstmt in E as (Hd & Hh & Hev);
      try reflexivity; intros H; invert H; eauto 10.
  - destruct (releaseConnection native conn w) as [[[]|e] w1] eqn:E;
      apply releaseConnection_frame in E as (Hd & Hh & evs & Ht & Hall);
      intros H; invert H; rewrite Hd; eauto 10 using same_but_pool_refl.
  - destruct (destroy native w) as [[[]|e] w1] eqn:E;
      apply destroy_frame in E as (Hd & Hh & evs & Ht & Hall);
      intros H; invert H; eauto 10.
Qed.

Lemma count_none (p : Event → bool) (evs : list Event) :
  Forall (λ ev, p ev = false) evs → count p evs = 0.
Proof.
  induction 1 as [|ev evs Hev _ IH]; simpl; [reflexivity|].
  rewrite Hev, IH. reflexivity.
Qed.

Lemma count_not_emitted (p : Event → bool) (c : DriverCall) (evs : list Event) :
  (∀ ev, emitted_by c ev = true → p ev = false) →
  Forall (λ ev, emitted_by c ev = true) evs → count p evs = 0.
Proof.
  intros Hp Hall. apply count_none. eapply Forall_impl; [exact Hall|]. exact Hp.
Qed.

(** *** Single-client mode *)

Lemma single_inv_initial (config : PostgresDialectConfig) (s : W) :
  isPoolConfig config = false → single_inv (initial_world config s).
Proof. intros Hc. split; [exact Hc|]. intros c Hsc. discriminate. Qed.

Lemma single_inv_perform (c : DriverCall) (w w' : World W) (r : Outcome Returned) :
  single_inv w → perform native c w = (r, w') → single_inv w'.
Proof.
  intros [Hcfg Hinv] H. destruct (is_acquire c) eqn:Hacq.
  - destruct c; try discriminate. unfold perform in H.
    unfold mbind at 1 in H. unfold M_bind in H.
    destruct (acquireConnection native w) as [rc w1] eqn:E.
    assert (w1 = w') by (destruct rc; invert H; reflexivity). subst w1.
    apply acquire_single in E
      as [(c & Hsc & -> & ->)|(Hsc & Hcf & Hp & Hcs & evs & Ht & _ & _ & _ & Hres)];
      [split; assumption| |exact Hcfg].
    split; [rewrite Hcf; exact Hcfg|].
    destruct Hres as [(e & -> & Hnone & Hh)|(client & -> & Hsome & Hcl & Hh)].
    + intros c. rewrite Hnone. discriminate.
    + intros c. rewrite Hsome. intros [= <-]. exists client. split; [exact Hcl|].
      rewrite Hh. unfold wrapper_of. rewrite Hcf.
      rewrite lookup_app_r by lia. rewrite Nat.sub_diag. reflexivity.
  - apply perform_other in H as ((Hcf & Hcs & Hcl & Hsc) & Hh & _); [|exact Hacq].
    split; [rewrite Hcf; exact Hcfg|].
    intros c0. rewrite Hsc, Hcl, Hh. unfold wrapper_of. rewrite Hcf. apply Hinv.
Qed.

Lemma single_inv_run (cs : list DriverCall) :
  ∀ (w w' : World W) (rs : list (Outcome Returned)),
  single_inv w → perform_all native cs w = (rs, w') → single_inv w'.
Proof.
  induction cs as [|c cs IH]; intros w w' rs Hinv H; simpl in H.
  - invert H. exact Hinv.
  - destruct (perform native c w) as [r w1] eqn:E.
    destruct (perform_all native cs w1) as [rs1 w2] eqn:Erest.
    invert H. eapply IH; [|exact Erest]. eapply single_inv_perform; eauto.
Qed.

(** Once a wrapper is cached, every call leaves it cached, creates no
    wrapper, keeps the client, and never calls the client factory;
    [acquireConnection] returns the cached wrapper and does nothing else. *)
Lemma cached_perform (conn : ConnRef) (c : DriverCall) (w w' : World W)
    (r : Outcome Returned) :
  isPoolConfig (d_config (driver w)) = false →
  d_singleConnection (driver w) = Some conn →
  perform native c w = (r, w') →
  isPoolConfig (d_config (driver w')) = false
  ∧ d_singleConnection (driver w') = Some conn
  ∧ d_singleClient (driver w') = d_singleClient (driver w)
  ∧ heap w' = heap w
  ∧ (c = AcquireConnection → r = Resolved (RConnection conn) ∧ w' = w)
  ∧ ∃ evs, trace w' = trace w ++ evs ∧ count is_client_factory evs = 0.
Proof.
  intros Hcfg Hsc H. destruct (is_acquire c) eqn:Hacq.
  - destruct c; try discriminate. unfold perform in H.
    unfold mbind at 1 in H. unfold M_bind in H.
    destruct (acquireConnection native w) as [rc w1] eqn:E.
    apply acquire_single in E as [(c & Hsc' & -> & ->)|(Hnone & _)];
      [|congruence|exact Hcfg].
    invert H. assert (c = conn) by congruence. subst c.
    repeat split; try assumption.
    exists []. rewrite app_nil_r. split; reflexivity.
  - apply perform_other in H as ((Hcf & Hcs & Hcl & Hsc') & Hh & _ & evs & Ht & Hall);
      [|exact Hacq].
    split; [rewrite Hcf; exact Hcfg|]. split; [rewrite Hsc'; exact Hsc|].
    split; [exact Hcl|]. split; [exact Hh|].
    split; [intros ->; discriminate|].
    exists evs. split; [exact Ht|].
    apply (count_not_emitted _ c); [|exact Hall].
    intros ev. destruct c, ev; simpl; try discriminate; reflexivity.
Qed.

Lemma cached_run (conn : ConnRef) (cs : list DriverCall) :
  ∀ (w w' : World W) (rs : list (Outcome Returned)),
  isPoolConfig (d_config (driver w)) = false →
  d_singleConnection (driver w) = Some conn →
  perform_all native cs w = (rs, w') →
  isPoolConfig (d_config (driver w')) = false
  ∧ d_singleConnection (driver w') = Some conn
  ∧ d_singleClient (driver w') = d_singleClient (driver w)
  ∧ heap w' = heap w
  ∧ (∀ j, cs !! j = Some AcquireConnection →
          rs !! j = Some (Resolved (RConnection conn)))
  ∧ ∃ evs, trace w' = trace w ++ evs ∧ count is_client_factory evs = 0.
Proof.
  induction cs as [|c cs IH]; intros w w' rs Hcfg Hsc H; simpl in H.
  - invert H. repeat split; try assumption.
    + intros j Hj. rewrite lookup_nil in Hj. discriminate.
    + exists []. rewrite app_nil_r. split; reflexivity.
  - destruct (perform native c w) as [r w1] eqn:E.
    destruct (perform_all native cs w1) as [rs1 w2] eqn:Erest.
    invert H.
    apply (cached_perform conn) in E
      as (Hcfg1 & Hsc1 & Hcl1 & Hh1 & Hacq1 & evs1 & Ht1 & Hc1); [|assumption..].
    apply IH in Erest as (Hcfg2 & Hsc2 & Hcl2 & Hh2 & Hacq2 & evs2 & Ht2 & Hc2);
      [|assumption..].
    split; [exact Hcfg2|]. split; [exact Hsc2|]. split; [congruence|].
    split; [congruence|]. split.
    + intros [|j] Hj; simpl in Hj |- *.
      * invert Hj. destruct (Hacq1 eq_refl) as [-> _]. reflexivity.
      * apply Hacq2. exact Hj.
    + exists (evs1 ++ evs2). split; [rewrite Ht2, Ht1, app_assoc; reflexivity|].
      rewrite count_app. lia.
Qed.

Lemma run_without_acquire (p : Event → bool) (cs : list DriverCall) :
  (∀ c ev, is_acquire c = false → emitted_by c ev = true → p ev = false) →
  ∀ (w w' : World W) (rs : list (Outcome Returned)),
  Forall (λ c, is_acquire c = false) cs →
  perform_all native cs w = (rs, w') →
  ∃ evs, trace w' = trace w ++ evs ∧ count p evs = 0.
Proof.
  intros Hp. induction cs as [|c cs IH]; intros w w' rs Hall H; simpl in H.
  - invert H. exists []. rewrite app_nil_r. split; reflexivity.
  - destruct (perform native c w) as [r w1] eqn:E.
    destruct (perform_all native cs w1) as [rs1 w2] eqn:Erest.
    invert H. inversion Hall as [|? ? Hc Hcs]; subst.
    apply perform_other in E as (_ & _ & _ & evs1 & Ht1 & Hall1); [|exact Hc].
    apply IH in Erest as (evs2 & Ht2 & Hc2); [|exact Hcs].
    exists (evs1 ++ evs2). split; [rewrite Ht2, Ht1, app_assoc; reflexivity|].
    rewrite count_app, Hc2.
    rewrite (count_not_emitted p c evs1); [reflexivity| |exact Hall1].
    intros ev. apply Hp. exact Hc.
Qed.

Lemma destroy_single (client : ClientRef) (w w' : World W) (r : Outcome unit) :
  d_singleClient (driver w) = Some client →
  destroy native w = (r, w') →
  driver w' = driver w ∧ heap w' = heap w
  ∧ trace w' = trace w ++ [EvClientEnd client].
Proof.
  intros Hcl. unfold destroy. unfold_M. rewrite Hcl.
  destruct (client_end native client (native_state w)) as [[[]|e] s'];
    intros H; invert H; auto.
Qed.

(** C10. In single-client mode, after [acquireConnection] has succeeded,
    every call to [destroy], however many calls were made in between, calls
    [end()] on the single client (the one the cached wrapper wraps) and
    keeps the reference to it: a second [destroy] calls [end()] again. *)
Theorem destroy_single_client_ends_client_each_time (config : PostgresDialectConfig)
    (s : W) (pre post : list DriverCall) (rs_pre rs_post : list (Outcome Returned))
    (w0 w1 w2 w3 w4 : World W) (conn : ConnRef) (r1 r2 : Outcome unit) :
  isPoolConfig config = false →
  perform_all native pre (initial_world config s) = (rs_pre, w0) →
  acquireConnection native w0 = (Resolved conn, w1) →
  perform_all native post w1 = (rs_post, w2) →
  destroy native w2 = (r1, w3) →
  destroy native w3 = (r2, w4) →
  ∃ client,
    heap w2 !! conn = Some (wrapper_of (driver w2) client)
    ∧ d_singleClient (driver w2) = Some client
    ∧ events_since w2 w3 = [EvClientEnd client]
    ∧ d_singleClient (driver w3) = Some client
    ∧ events_since w3 w4 = [EvClientEnd client]
    ∧ count is_client_end (events_since w2 w4) = 2.
Proof.
  intros Hcfg Hpre Hacq Hpost Hd1 Hd2.
  assert (Hinv0 : single_inv w0).
  { eapply single_inv_run; [|exact Hpre]. apply single_inv_initial. exact Hcfg. }
  assert (Hinv1 : single_inv w1).
  { apply (single_inv_perform AcquireConnection w0 w1 (Resolved (RConnection conn)));
      [exact Hinv0|].
    unfold perform. unfold mbind at 1. unfold M_bind. rewrite Hacq. reflexivity. }
  assert (Hsc1 : d_singleConnection (driver w1) = Some conn).
  { destruct Hinv0 as [Hcfg0 _].
    apply acquire_single in Hacq
      as [(c & Hsc & Hr & ->)|(_ & _ & _ & _ & evs & _ & _ & _ & _ & Hres)];
      [invert Hr; exact Hsc| |exact Hcfg0].
    destruct Hres as [(e & Hr & _)|(client & Hr & Hsome & _)]; [discriminate|].
    invert Hr. exact Hsome. }
  assert (Hinv2 : single_inv w2) by (eapply single_inv_run; eauto).
  destruct Hinv1 as [Hcfg1 _].
  apply (cached_run conn) in Hpost as (_ & Hsc2 & _ & _ & _ & _); [|assumption..].
  destruct Hinv2 as [_ Hwrap]. destruct (Hwrap conn Hsc2) as (client & Hcl2 & Hheap).
  exists client.
  apply (destroy_single client) in Hd1 as (Hdrv3 & _ & Ht3); [|exact Hcl2].
  assert (Hcl3 : d_singleClient (driver w3) = Some client) by (rewrite Hdrv3; exact Hcl2).
  apply (destroy_single client) in Hd2 as (_ & _ & Ht4); [|exact Hcl3].
  split; [exact Hheap|]. split; [exact Hcl2|].
  split; [apply events_since_app; exact Ht3|]. split; [exact Hcl3|].
  split; [apply events_since_app; exact Ht4|].
  rewrite (events_since_app w2 w4 [EvClientEnd client; EvClientEnd client]).
  - reflexivity.
  - rewrite Ht4, Ht3, <- app_assoc. reflexivity.
Qed.

(** *** Pool mode *)

Lemma pool_inv_initial (config : PostgresDialectConfig) (s : W) :
  isPoolConfig config = true → pool_inv (initial_world config s).
Proof.
  intros Hc. split; [exact Hc|]. split; [reflexivity|]. split.
  - intros h c Hl. simpl in Hl. rewrite lookup_empty in Hl. discriminate.
  - split; intros h; simpl; intros; lia.
Qed.

Lemma is_hook_for_other (h : ClientRef) (c : DriverCall) (ev : Event) :
  is_acquire c = false → emitted_by c ev = true → is_hook_for h ev = false.
Proof. destruct c, ev; simpl; try discriminate; reflexivity. Qed.

(** [acquireConnection] in pool mode keeps the invariant and the registered
    wrappers. *)
Lemma pool_inv_acquire (w w' : World W) (r : Outcome ConnRef) :
  pool_inv w →
  acquireConnection native w = (r, w') →
  pool_inv w'
  ∧ (∀ h c, d_connections (driver w) !! h = Some c →
            d_connections (driver w') !! h = Some c)
  ∧ d_pool (driver w') = d_pool (driver w).
Proof.
  intros (Hcfg & Hcl & Hmap & Hzero & Hone) H.
  assert (Hlog : ∀ p (s1 : W), pool_inv (mkWorld (driver w) (heap w) s1
                                     (trace w ++ [EvPoolConnect p]))).
  { intros p s1. split; [exact Hcfg|]. split; [exact Hcl|]. split; [exact Hmap|].
    simpl. split; intros h; rewrite count_app; simpl.
    - intros Hn. rewrite (Hzero h Hn). reflexivity.
    - specialize (Hone h). lia. }
  apply acquire_pool in H as [(_ & -> & _)|(p & rc & s1 & Hp & Hc & Hcase)];
    [|  |exact Hcfg].
  { split; [repeat split; assumption|]. split; auto. }
  destruct rc as [h|e].
  - destruct (d_connections (driver w) !! h) as [c|] eqn:Hlook.
    + destruct Hcase as [_ ->]. split; [apply Hlog|]. split; auto.
    + assert (Hnew : ∀ (s2 : W) evs,
                (evs = [EvPoolConnect p]
                 ∨ evs = [EvPoolConnect p; EvOnCreateConnection (length (heap w)) h]) →
                pool_inv (mkWorld (with_connection (driver w) h (length (heap w)))
                                  (heap w ++ [wrapper_of (driver w) h]) s2
                                  (trace w ++ evs))).
      { intros s2 evs Hevs. split; [exact Hcfg|]. split; [exact Hcl|]. simpl. split.
        - intros h' c'. destruct (decide (h = h')) as [<-|Hne].
          + rewrite lookup_insert_eq. intros [= <-].
            rewrite lookup_app_r by lia. rewrite Nat.sub_diag. reflexivity.
          + rewrite lookup_insert_ne by exact Hne. intros Hl.
            pose proof (Hmap h' c' Hl) as Hw.
            rewrite lookup_app_l by (eapply lookup_lt_Some; exact Hw). exact Hw.
        - split; intros h'; rewrite count_app.
          + destruct (decide (h = h')) as [<-|Hne].
            * rewrite lookup_insert_eq. discriminate.
            * rewrite lookup_insert_ne by exact Hne. intros Hn.
              rewrite (Hzero h' Hn).
              destruct Hevs as [-> | ->]; simpl; [reflexivity|].
              destruct (Pos.eqb_spec h h'); [contradiction|reflexivity].
          + destruct (decide (h = h')) as [<-|Hne].
            * rewrite (Hzero h Hlook).
              destruct Hevs as [-> | ->]; simpl; [lia|].
              destruct (Pos.eqb h h); lia.
            * specialize (Hone h').
              destruct Hevs as [-> | ->]; simpl; [lia|].
              destruct (Pos.eqb_spec h h'); [contradiction|lia]. }
      assert (Hkeep : ∀ h' c', d_connections (driver w) !! h' = Some c' →
                <[h := length (heap w)]> (d_connections (driver w)) !! h' = Some c').
      { intros h' c' Hl. rewrite lookup_insert_ne; [exact Hl|]. congruence. }
      simpl in Hcase. destruct (cfg_onCreateConnection (d_config (driver w))).
      * destruct Hcase as (rh & s2 & _ & -> & _).
        split; [apply Hnew; right; reflexivity|]. split; [exact Hkeep|reflexivity].
      * destruct Hcase as [_ ->].
        split; [apply Hnew; left; reflexivity|]. split; [exact Hkeep|reflexivity].
  - destruct Hcase as [_ ->]. split; [apply Hlog|]. split; auto.
Qed.

Lemma pool_inv_perform (c : DriverCall) (w w' : World W) (r : Outcome Returned) :
  pool_inv w →
  perform native c w = (r, w') →
  pool_inv w'
  ∧ (∀ h conn, d_connections (driver w) !! h = Some conn →
               d_connections (driver w') !! h = Some conn).
Proof.
  intros Hinv H. destruct (is_acquire c) eqn:Hacq.
  - destruct c; try discriminate. unfold perform in H.
    unfold mbind at 1 in H. unfold M_bind in H.
    destruct (acquireConnection native w) as [rc w1] eqn:E.
    assert (w1 = w') by (destruct rc; invert H; reflexivity). subst w1.
    apply pool_inv_acquire in E as (Hinv' & Hkeep & _); auto.
  - destruct Hinv as (Hcfg & Hcl & Hmap & Hzero & Hone).
    apply perform_other in H as ((Hcf & Hcs & Hcl' & Hsc) & Hh & _ & evs & Ht & Hall);
      [|exact Hacq].
    assert (Hnohook : ∀ h, count (is_hook_for h) evs = 0).
    { intros h. apply (count_not_emitted _ c); [|exact Hall].
      intros ev. apply is_hook_for_other. exact Hacq. }
    split.
    + split; [rewrite Hcf; exact Hcfg|]. split; [rewrite Hcl'; exact Hcl|].
      rewrite Hcs, Hh, Ht. unfold wrapper_of. rewrite Hcf. split; [exact Hmap|].
      split; intros h; rewrite count_app, Hnohook, Nat.add_0_r; auto.
    + intros h conn. rewrite Hcs. auto.
Qed.

Lemma pool_inv_run (cs : list DriverCall) :
  ∀ (w w' : World W) (rs : list (Outcome Returned)),
  pool_inv w →
  perform_all native cs w = (rs, w') →
  pool_inv w'
  ∧ (∀ h conn, d_connections (driver w) !! h = Some conn →
               d_connections (driver w') !! h = Some conn).
Proof.
  induction cs as [|c cs IH]; intros w w' rs Hinv H; simpl in H.
  - invert H. auto.
  - destruct (perform native c w) as [r w1] eqn:E.
    destruct (perform_all native cs w1) as [rs1 w2] eqn:Erest.
    invert H.
    apply pool_inv_perform in E as (Hinv1 & Hkeep1); [|exact Hinv].
    apply IH in Erest as (Hinv2 & Hkeep2); [|exact Hinv1].
    split; [exact Hinv2|]. intros h conn Hl. auto.
Qed.

(** C3. In pool mode, over any sequence of calls the [onCreateConnection]
    hook is called at most once for each native handle; and when two calls
    to [acquireConnection] resolve to the same native handle, whatever
    happens in between, the second returns the wrapper the first returned,
    which wraps that handle, and does not call the hook. *)
Theorem acquireConnection_pool_one_wrapper_one_hook_per_handle :
  (∀ (config : PostgresDialectConfig) (s : W) (calls : list DriverCall)
     (rs : list (Outcome Returned)) (w : World W),
     isPoolConfig config = true →
     perform_all native calls (initial_world config s) = (rs, w) →
     ∀ h, count (is_hook_for h) (trace w) ≤ 1)
  ∧ (∀ (config : PostgresDialectConfig) (s : W) (pre mid : list DriverCall)
       (rs_pre rs_mid : list (Outcome Returned)) (w0 w1 w2 w3 : World W)
       (h : ClientRef) (conn : ConnRef) (r2 : Outcome ConnRef),
       isPoolConfig config = true →
       perform_all native pre (initial_world config s) = (rs_pre, w0) →
       resolves_to native w0 h →
       acquireConnection native w0 = (Resolved conn, w1) →
       perform_all native mid w1 = (rs_mid, w2) →
       resolves_to native w2 h →
       acquireConnection native w2 = (r2, w3) →
       r2 = Resolved conn
       ∧ heap w3 !! conn = Some (wrapper_of (driver w3) h)
       ∧ count is_hook (events_since w2 w3) = 0).
Proof.
  split.
  - intros config s calls rs w Hcfg Hrun h.
    apply pool_inv_run in Hrun as ((_ & _ & _ & _ & Hone) & _);
      [apply Hone|apply pool_inv_initial; exact Hcfg].
  - intros config s pre mid rs_pre rs_mid w0 w1 w2 w3 h conn r2
      Hcfg Hpre (p0 & s0 & Hp0 & Hc0) Hacq1 Hmid (p2 & s2 & Hp2 & Hc2) Hacq2.
    apply pool_inv_run in Hpre as (Hinv0 & _); [|apply pool_inv_initial; exact Hcfg].
    assert (Hreg1 : d_connections (driver w1) !! h = Some conn).
    { pose proof Hacq1 as Hcase.
      apply acquire_pool in Hcase as [(Hnone & _)|(p & rc & s1 & Hp & Hc & Hcase)];
        [congruence| |apply Hinv0].
      rewrite Hp0 in Hp. invert Hp. rewrite Hc0 in Hc. invert Hc.
      destruct (d_connections (driver w0) !! h) as [c|] eqn:Hlook.
      - destruct Hcase as [Hr ->]. invert Hr. exact Hlook.
      - simpl in Hcase. destruct (cfg_onCreateConnection (d_config (driver w0))).
        + destruct Hcase as (rh & s2' & _ & -> & Hr). simpl.
          destruct rh; invert Hr. apply lookup_insert_eq.
        + destruct Hcase as [Hr ->]. invert Hr. simpl. apply lookup_insert_eq. }
    apply pool_inv_acquire in Hacq1 as (Hinv1 & _ & _); [|exact Hinv0].
    apply pool_inv_run in Hmid as (Hinv2 & Hkeep); [|exact Hinv1].
    pose proof (Hkeep h conn Hreg1) as Hreg2.
    pose proof Hacq2 as Hcase.
    apply acquire_pool in Hcase as [(Hnone & _)|(p & rc & s1 & Hp & Hc & Hcase)];
      [congruence| |apply Hinv2].
    rewrite Hp2 in Hp. invert Hp. rewrite Hc2 in Hc. invert Hc.
    rewrite Hreg2 in Hcase. destruct Hcase as [-> ->].
    split; [reflexivity|]. simpl. split.
    + destruct Hinv2 as (_ & _ & Hmap & _). apply Hmap. exact Hreg2.
    + unfold events_since. simpl. rewrite drop_app_length. reflexivity.
Qed.

Lemma destroy_pool (w w' : World W) (r : Outcome unit) :
  d_singleClient (driver w) = None →
  destroy native w = (r, w') →
  d_pool (driver w') = None
  ∧ trace w' = trace w ++ match d_pool (driver w) with
                          | Some p => [EvPoolEnd p]
                          | None => []
                          end
  ∧ d_singleClient (driver w') = None
  ∧ (d_pool (driver w) = None → r = Resolved tt ∧ w' = w).
Proof.
  intros Hcl. unfold destroy, set_pool. unfold_M. rewrite Hcl.
  destruct (d_pool (driver w)) as [p|] eqn:Hp.
  - simpl. destruct (pool_end native p (native_state w)) as [[[]|e] s'];
      intros H; invert H; simpl; repeat split; try assumption; discriminate.
  - intros H; invert H. rewrite app_nil_r. auto.
Qed.

(** C7. In pool mode [destroy] forgets the pool handle before it closes the
    pool, so that the handle is forgotten whatever [pool.end()] answers; a
    second [destroy] then makes no native call, changes nothing and
    resolves.  The two calls together close the pool exactly once when the
    driver held it, and never more than once. *)
Theorem destroy_pool_twice_closes_pool_once (config : PostgresDialectConfig) (s : W)
    (pre : list DriverCall) (rs : list (Outcome Returned)) (w0 w1 w2 : World W)
    (r1 r2 : Outcome unit) :
  isPoolConfig config = true →
  perform_all native pre (initial_world config s) = (rs, w0) →
  destroy native w0 = (r1, w1) →
  destroy native w1 = (r2, w2) →
  d_pool (driver w1) = None
  ∧ events_since w0 w1 = match d_pool (driver w0) with
                         | Some p => [EvPoolEnd p]
                         | None => []
                         end
  ∧ r2 = Resolved tt ∧ w2 = w1
  ∧ (∀ p, d_pool (driver w0) = Some p → events_since w0 w2 = [EvPoolEnd p])
  ∧ count is_pool_end (events_since w0 w2) ≤ 1.
Proof.
  intros Hcfg Hpre Hd1 Hd2.
  apply pool_inv_run in Hpre as ((_ & Hcl0 & _) & _); [|apply pool_inv_initial; exact Hcfg].
  apply destroy_pool in Hd1 as (Hp1 & Ht1 & Hcl1 & _); [|exact Hcl0].
  apply destroy_pool in Hd2 as (_ & _ & _ & Hnoop); [|exact Hcl1].
  destruct (Hnoop Hp1) as [-> ->].
  split; [exact Hp1|]. split; [apply events_since_app; exact Ht1|].
  split; [reflexivity|]. split; [reflexivity|].
  rewrite (events_since_app w0 w1 _ Ht1). split.
  - intros p ->. reflexivity.
  - destruct (d_pool (driver w0)); simpl; lia.
Qed.

(** *** [init] *)

Lemma init_cases (w w' : World W) (r : Outcome unit) :
  init native w = (r, w') →
  match cfg_pool (d_config (driver w)) with
  | None => r = Resolved tt ∧ w' = w
  | Some (Value v) =>
      r = Resolved tt
      ∧ w' = mkWorld (with_pool (driver w) (Some v)) (heap w) (native_state w) (trace w)
  | Some Factory =>
      ∃ rp s', pool_factory native (native_state w) = (rp, s')
        ∧ match rp with
          | Resolved p =>
              r = Resolved tt
              ∧ w' = mkWorld (with_pool (driver w) (Some p)) (heap w) s'
                       (trace w ++ [EvPoolFactory])
          | Rejected e =>
              r = Rejected e
              ∧ w' = mkWorld (driver w) (heap w) s' (trace w ++ [EvPoolFactory])
          end
  end.
Proof.
  unfold init, set_pool, with_pool. unfold_M.
  destruct (cfg_pool (d_config (driver w))) as [[v|]|].
  - intros H; invert H. auto.
  - simpl. destruct (pool_factory native (native_state w)) as [[p|e] s'] eqn:E;
      intros H; invert H; eexists _, _; (split; [reflexivity|]); simpl; auto.
  - intros H; invert H. auto.
Qed.

Lemma perform_pool_factory (c : DriverCall) (w w' : World W) (r : Outcome Returned) :
  perform native c w = (r, w') →
  d_config (driver w') = d_config (driver w)
  ∧ ∃ evs, trace w' = trace w ++ evs
      ∧ count is_pool_factory evs
        = (if is_init c
           then match cfg_pool (d_config (driver w)) with
                | Some Factory => 1
                | _ => 0
                end
           else 0).
Proof.
  intros H. destruct (is_acquire c) eqn:Hacq.
  - destruct c; try discriminate. unfold perform in H.
    unfold mbind at 1 in H. unfold M_bind in H.
    destruct (acquireConnection native w) as [rc w1] eqn:E.
    assert (w1 = w') by (destruct rc; invert H; reflexivity). subst w1. simpl.
    destruct (isPoolConfig (d_config (driver w))) eqn:Hcfg.
    + apply acquire_pool in E as [(_ & -> & _)|(p & rc' & s1 & Hp & Hc & Hcase)];
        [|  |exact Hcfg].
      { split; [reflexivity|]. exists []. rewrite app_nil_r. auto. }
      destruct rc' as [h|e].
      * destruct (d_connections (driver w) !! h).
        -- destruct Hcase as [_ ->]. simpl. eauto.
        -- simpl in Hcase. destruct (cfg_onCreateConnection (d_config (driver w))).
           ++ destruct Hcase as (rh & s2 & _ & -> & _). simpl. eauto.
           ++ destruct Hcase as [_ ->]. simpl. eauto.
      * destruct Hcase as [_ ->]. simpl. eauto.
    + apply acquire_single in E
        as [(c & _ & _ & ->)|(_ & Hcf & _ & _ & evs & Ht & Hall & _)];
        [|  |exact Hcfg].
      { split; [reflexivity|]. exists []. rewrite app_nil_r. auto. }
      split; [exact Hcf|]. exists evs. split; [exact Ht|].
      apply (count_not_emitted _ AcquireConnection); [|exact Hall].
      intros []; simpl; try discriminate; reflexivity.
  - destruct (is_init c) eqn:Hinit.
    + destruct c; try discriminate. unfold perform in H.
      unfold mbind at 1 in H. unfold M_bind in H.
      destruct (init native w) as [ri w1] eqn:E.
      assert (w1 = w') by (destruct ri as [[]|]; invert H; reflexivity). subst w1.
      apply init_cases in E.
      destruct (cfg_pool (d_config (driver w))) as [[v|]|].
      * destruct E as [_ ->]. simpl. split; [reflexivity|].
        exists []. rewrite app_nil_r. auto.
      * destruct E as (rp & s' & _ & Hcase).
        destruct rp; destruct Hcase as [_ ->]; simpl; eauto.
      * destruct E as [_ ->]. split; [reflexivity|].
        exists []. rewrite app_nil_r. auto.
    + apply perform_other in H as ((Hcf & _) & _ & _ & evs & Ht & Hall); [|exact Hacq].
      split; [exact Hcf|]. exists evs. split; [exact Ht|].
      apply (count_not_emitted _ c); [|exact Hall].
      intros ev. destruct c, ev; simpl; try discriminate; reflexivity.
Qed.

Lemma run_pool_factory (cs : list DriverCall) :
  ∀ (w w' : World W) (rs : list (Outcome Returned)),
  perform_all native cs w = (rs, w') →
  d_config (driver w') = d_config (driver w)
  ∧ ∃ evs, trace w' = trace w ++ evs
      ∧ count is_pool_factory evs
        = match cfg_pool (d_config (driver w)) with
          | Some Factory => count_calls is_init cs
          | _ => 0
          end.
Proof.
  induction cs as [|c cs IH]; intros w w' rs H; simpl in H.
  - invert H. split; [reflexivity|]. exists []. rewrite app_nil_r.
    split; [reflexivity|]. simpl. destruct (cfg_pool _) as [[]|]; reflexivity.
  - destruct (perform native c w) as [r w1] eqn:E.
    destruct (perform_all native cs w1) as [rs1 w2] eqn:Erest.
    invert H.
    apply perform_pool_factory in E as (Hcf1 & evs1 & Ht1 & Hc1).
    apply IH in Erest as (Hcf2 & evs2 & Ht2 & Hc2).
    split; [congruence|].
    exists (evs1 ++ evs2). split; [rewrite Ht2, Ht1, app_assoc; reflexivity|].
    rewrite count_app, Hc1, Hc2, Hcf1. simpl.
    destruct (cfg_pool (d_config (driver w))) as [[v|]|];
      destruct (is_init c); reflexivity.
Qed.

(** C8, as the code has it. Every call to [init] in pool mode resolves the
    pool handle anew and stores it: with a factory configured the factory is
    called by each call to [init] (once per call, so as many times as [init]
    is called), and the handle it resolves to replaces the stored one; with
    a value configured the factory is never called and the value is
    stored. *)
Theorem init_resolves_pool_on_every_call :
  (∀ (config : PostgresDialectConfig) (s : W) (calls : list DriverCall)
     (rs : list (Outcome Returned)) (w : World W),
     perform_all native calls (initial_world config s) = (rs, w) →
     count is_pool_factory (trace w)
     = match cfg_pool config with
       | Some Factory => count_calls is_init calls
       | _ => 0
       end)
  ∧ (∀ (w w' : World W) (r : Outcome unit) (v : PoolRef),
       cfg_pool (d_config (driver w)) = Some (Value v) →
       init native w = (r, w') →
       r = Resolved tt ∧ d_pool (driver w') = Some v ∧ events_since w w' = [])
  ∧ (∀ (w w' : World W) (r : Outcome unit) (p : PoolRef) (s' : W),
       cfg_pool (d_config (driver w)) = Some Factory →
       pool_factory native (native_state w) = (Resolved p, s') →
       init native w = (r, w') →
       r = Resolved tt ∧ d_pool (driver w') = Some p
       ∧ events_since w w' = [EvPoolFactory]).
Proof.
  split; [|split].
  - intros config s calls rs w Hrun.
    apply run_pool_factory in Hrun as (_ & evs & Ht & Hc).
    simpl in Ht. subst evs. exact Hc.
  - intros w w' r v Hcfg Hinit. apply init_cases in Hinit. rewrite Hcfg in Hinit.
    destruct Hinit as [-> ->]. simpl. split; [reflexivity|]. split; [reflexivity|].
    unfold events_since. simpl. apply drop_all.
  - intros w w' r p s' Hcfg Hf Hinit. apply init_cases in Hinit. rewrite Hcfg in Hinit.
    destruct Hinit as (rp & s1 & Hf' & Hcase). rewrite Hf in Hf'. invert Hf'.
    destruct Hcase as [-> ->]. simpl. split; [reflexivity|]. split; [reflexivity|].
    unfold events_since. simpl. apply drop_app_length.
Qed.

End Runs.

(** ** Calls that overlap *)

Section OverlapFacts.
Context {O W : Type} (native : Native O W).

(** A call made and resumed with no other call in between is the method run
    as a whole. *)
Lemma unoverlapped_world (c : DriverCall) (w : World W) :
  resumed native (resumed native (run_to_suspension (start native c) w))
  = (Settled (perform native c w).1, (perform native c w).2).
Proof.
  destruct c as [| |connection settings|connection|connection|connection|];
    unfold resumed, run_to_suspension, start, resume, init_start, acquire_start,
      call_connect, cache_wrapper, suspend_on, await, perform, init, acquireConnection,
      set_pool, set_singleClient, set_singleConnection, connections_set;
    unfold_M; cbn.
  all: repeat (case_match; unfold_M; cbn in *; simplify_eq; try congruence;
               try reflexivity).
  all: simpl in *; simplify_eq; reflexivity.
Qed.

Lemma resume_last (c : DriverCall) (t : Task) (w : World W)
    (ts : list (DriverCall * Task)) :
  step native (Resume (length ts)) (mkSystem w (ts ++ [(c, t)]))
  = mkSystem (resumed native (t, w)).2 (ts ++ [(c, (resumed native (t, w)).1)]).
Proof.
  unfold step, resumed. cbn [sys_tasks sys_world fst snd].
  rewrite lookup_app_r by lia. rewrite Nat.sub_diag. cbn [lookup list_lookup].
  destruct t as [at_await|r]; [|reflexivity].
  destruct (run_to_suspension (resume native at_await) w) as [t' w'].
  cbn [fst snd]. f_equal.
  rewrite insert_app_r_alt by lia. rewrite Nat.sub_diag. reflexivity.
Qed.

Lemma unoverlapped_is_perform (c : DriverCall) (sys : System W) :
  schedule native (unoverlapped c (length (sys_tasks sys))) sys
  = mkSystem (perform native c (sys_world sys)).2
      (sys_tasks sys ++ [(c, Settled (perform native c (sys_world sys)).1)]).
Proof.
  destruct sys as [w ts]. unfold unoverlapped. cbn [schedule sys_tasks sys_world].
  unfold step at 3. cbn [sys_tasks sys_world].
  destruct (run_to_suspension (start native c) w) as [t1 w1] eqn:H1.
  rewrite resume_last.
  destruct (resumed native (t1, w1)) as [t2 w2] eqn:H2. cbn [fst snd].
  rewrite resume_last.
  pose proof (unoverlapped_world c w) as H. rewrite H1, H2 in H. rewrite H.
  reflexivity.
Qed.

Lemma schedule_app (actions more : list Action) (sys : System W) :
  schedule native (actions ++ more) sys
  = schedule native more (schedule native actions sys).
Proof.
  revert sys. induction actions as [|a actions IH]; intros sys; [reflexivity|].
  simpl. apply IH.
Qed.

(** Calls made one after the other are the calls [perform_all] runs. *)
Lemma sequential_is_perform_all (cs : list DriverCall) :
  ∀ sys : System W,
    schedule native (sequential cs (length (sys_tasks sys))) sys
    = mkSystem (perform_all native cs (sys_world sys)).2
        (sys_tasks sys
         ++ zip cs (map Settled (perform_all native cs (sys_world sys)).1)).
Proof.
  induction cs as [|c cs IH]; intros [w ts].
  - simpl. rewrite app_nil_r. reflexivity.
  - cbn [sequential]. rewrite schedule_app, unoverlapped_is_perform.
    cbn [sys_tasks sys_world perform_all].
    destruct (perform native c w) as [r w1]. cbn [fst snd].
    pose proof (IH (mkSystem w1 (ts ++ [(c, Settled r)]))) as H.
    cbn [sys_tasks sys_world] in H.
    rewrite length_app in H. simpl in H. rewrite Nat.add_1_r in H. rewrite H.
    destruct (perform_all native cs w1) as [rs w2]. cbn [fst snd map zip zip_with].
    rewrite <- app_assoc. reflexivity.
Qed.


(** *** Single-client mode under any schedule *)

Lemma single_task_kept (w w' : World W) (ct : DriverCall * Task) :
  d_config (driver w') = d_config (driver w) →
  (is_Some (d_singleClient (driver w)) → is_Some (d_singleClient (driver w'))) →
  single_task w ct → single_task w' ct.
Proof.
  intros Hcfg Hcl. unfold single_task. rewrite Hcfg.
  destruct ct.2 as [[| | | |]|]; intuition.
Qed.

(** A call to [acquireConnection] that starts in single-client mode. *)
Lemma acquire_start_single (w w' : World W) (t : Task) :
  isPoolConfig (d_config (driver w)) = false →
  run_to_suspension (acquire_start native) w = (t, w') →
  match d_singleConnection (driver w) with
  | Some conn => t = Settled (Resolved (RConnection conn)) ∧ w' = w
  | None =>
      d_config (driver w') = d_config (driver w)
      ∧ d_singleConnection (driver w') = None
      ∧ heap w' = heap w
      ∧ single_task w' (AcquireConnection, t)
      ∧ (cfg_client (d_config (driver w)) ≠ None →
         is_Some (d_singleClient (driver w)) → is_Some (d_singleClient (driver w')))
      ∧ ∃ evs, trace w' = trace w ++ evs ∧ count is_client_factory evs ≤ 1
  end.
Proof.
  intros Hcfg. unfold run_to_suspension, acquire_start, call_connect, suspend_on,
    set_singleClient, call. unfold_M. rewrite Hcfg. cbn.
  destruct (d_singleConnection (driver w)) as [conn|] eqn:Hsc.
  - intros H; invert H. auto.
  - destruct (cfg_client (d_config (driver w))) as [[v|]|] eqn:Hcl; cbn.
    + destruct (client_connect native v (native_state w)) as [settled s1].
      intros H; invert H. cbn. rewrite Hcl.
      repeat (split; [solve [eauto|discriminate]|]).
      exists [EvClientConnect v]. split; [reflexivity|simpl; lia].
    + destruct (client_factory native (native_state w)) as [settled s1].
      intros H; invert H. cbn.
      repeat (split; [solve [eauto]|]).
      exists [EvClientFactory]. split; [reflexivity|simpl; lia].
    + intros H; invert H. cbn.
      repeat (split; [solve [eauto|congruence]|]).
      exists []. rewrite app_nil_r. split; [reflexivity|simpl; lia].
Qed.

(** A call suspended in single-client mode that is resumed. *)
Lemma resume_single (w w' : World W) (c : DriverCall) (at_await : Suspended)
    (t : Task) :
  single_task w (c, Pending at_await) →
  run_to_suspension (resume native at_await) w = (t, w') →
  d_config (driver w') = d_config (driver w)
  ∧ (is_Some (d_singleClient (driver w)) → is_Some (d_singleClient (driver w')))
  ∧ single_task w' (c, t)
  ∧ (∃ evs, trace w' = trace w ++ evs
            ∧ count is_client_factory evs = 0)
  ∧ ((d_singleConnection (driver w') = d_singleConnection (driver w)
      ∧ heap w' = heap w)
     ∨ ∃ client,
         d_singleConnection (driver w') = Some (length (heap w))
         ∧ heap w' = heap w ++ [wrapper_of (driver w') client]).
Proof.
  unfold single_task. cbn [fst snd].
  destruct at_await as [st|st|st|st|conn st]; try contradiction.
  - intros [-> Hcl]. unfold run_to_suspension, resume, await, call_connect, suspend_on,
      set_singleClient, call. unfold_M. cbn.
    destruct st as [client|e]; cbn.
    + destruct (client_connect native client (native_state w)) as [settled s1].
      intros H; invert H. cbn. rewrite Hcl.
      split; [reflexivity|]. split; [eauto|].
      split; [split; [reflexivity|split; [eauto|discriminate]]|].
      split; [exists [EvClientConnect client]; split; reflexivity|].
      left. split; reflexivity.
    + intros H; invert H.
      split; [reflexivity|]. split; [auto|]. split; [exact I|].
      split; [exists []; rewrite app_nil_r; split; reflexivity|].
      left. split; reflexivity.
  - intros (-> & [client Hcl] & Hne).
    unfold run_to_suspension, resume, await, cache_wrapper, set_singleConnection,
      new_PostgresConnection. unfold_M. cbn.
    destruct st as [[]|e]; cbn.
    + rewrite Hcl. intros H; invert H. cbn.
      split; [reflexivity|]. split; [eauto|]. split; [exact I|].
      split; [exists []; rewrite app_nil_r; split; reflexivity|].
      right. exists client. split; reflexivity.
    + intros H; invert H.
      split; [reflexivity|]. split; [auto|]. split; [exact I|].
      split; [exists []; rewrite app_nil_r; split; reflexivity|].
      left. split; reflexivity.
Qed.

(** A call other than [acquireConnection] that starts in single-client
    mode settles at once. *)
Lemma start_other_single (c : DriverCall) (w w' : World W) (t : Task) :
  isPoolConfig (d_config (driver w)) = false →
  is_acquire c = false →
  run_to_suspension (start native c) w = (t, w') →
  is_settled t = true
  ∧ same_but_pool (driver w) (driver w') ∧ heap w' = heap w
  ∧ ∃ evs, trace w' = trace w ++ evs ∧ Forall (λ ev, emitted_by c ev = true) evs.
Proof.
  intros Hcfg Hacq. destruct c as [| |connection settings|connection|connection|connection|];
    try discriminate; unfold run_to_suspension, start.
  1: { unfold init_start. unfold_M. unfold isPoolConfig in Hcfg.
       destruct (cfg_pool (d_config (driver w))); [discriminate|].
       intros H; invert H. split; [reflexivity|].
       split; [apply same_but_pool_refl|]. split; [reflexivity|].
       exists []. rewrite app_nil_r. split; [reflexivity|constructor]. }
  all: unfold mbind at 1; unfold M_bind;
    destruct (perform native _ w) as [r w1] eqn:E;
    apply perform_other in E as (Hd & Hh & _ & Hev); [|reflexivity];
    destruct r; intros H; invert H; auto.
Qed.

(** Every action keeps what holds of a single-client driver, and calls the
    client factory at most once, when it starts an acquisition. *)
Lemma step_single_system (a : Action) (sys : System W) :
  single_system_inv sys →
  single_system_inv (step native a sys)
  ∧ ∃ evs, trace (sys_world (step native a sys)) = trace (sys_world sys) ++ evs
           ∧ count is_client_factory evs ≤ acquisitions [a].
Proof.
  destruct sys as [w ts]. intros (Hcfg & Hwrap & Htasks). cbn [sys_world sys_tasks] in *.
  destruct a as [c|i].
  - unfold step. cbn [sys_world sys_tasks].
    destruct (run_to_suspension (start native c) w) as [t w'] eqn:Hstart.
    destruct (is_acquire c) eqn:Hacq.
    + destruct c; try discriminate. unfold start in Hstart.
      apply acquire_start_single in Hstart; [|exact Hcfg].
      destruct (d_singleConnection (driver w)) as [conn|] eqn:Hsc.
      * destruct Hstart as [-> ->]. split.
        -- split; [exact Hcfg|]. split; [cbn; rewrite Hsc; exact Hwrap|].
           apply Forall_app. split; [exact Htasks|]. repeat constructor.
        -- exists []. rewrite app_nil_r. split; [reflexivity|simpl; lia].
      * destruct Hstart as (Hd & Hsc' & Hh & Htask & Hcl & evs & Ht & Hc).
        split; [|exists evs; split; [exact Ht|simpl; lia]].
        split; [cbn; rewrite Hd; exact Hcfg|].
        split; [cbn; rewrite Hsc'; discriminate|].
        cbn. apply Forall_app. split; [|repeat constructor; exact Htask].
        eapply Forall_impl; [exact Htasks|]. intros ct Hct.
        destruct (cfg_client (d_config (driver w))) as [l|] eqn:Hclient.
        -- apply (single_task_kept w); [exact Hd| |exact Hct].
           apply Hcl. discriminate.
        -- unfold single_task in *. rewrite Hd, Hclient. rewrite Hclient in Hct.
           destruct ct.2 as [[| | | |]|]; try contradiction; try exact I.
           ++ destruct Hct; discriminate.
           ++ destruct Hct as (_ & _ & Hne). congruence.
    + apply start_other_single in Hstart as (Hset & (Hd & _ & Hcl & Hsc) & Hh & evs & Ht & Hall);
        [|exact Hcfg|exact Hacq].
      split.
      * split; [cbn; rewrite Hd; exact Hcfg|].
        split; [cbn; rewrite Hsc, Hh; unfold wrapper_of; rewrite Hd; exact Hwrap|].
        cbn. apply Forall_app. split.
        -- eapply Forall_impl; [exact Htasks|]. intros ct.
           apply single_task_kept; [exact Hd|rewrite Hcl; auto].
        -- repeat constructor. unfold single_task. cbn.
           destruct t; [discriminate|exact I].
      * exists evs. split; [exact Ht|].
        rewrite (count_not_emitted is_client_factory c evs); [lia| |exact Hall].
        intros ev. destruct c, ev; simpl; try discriminate; reflexivity.
  - unfold step. cbn [sys_world sys_tasks].
    destruct (ts !! i) as [[c [at_await|r]]|] eqn:Hi.
    + destruct (run_to_suspension (resume native at_await) w) as [t w'] eqn:Hres.
      assert (Hct : single_task w (c, Pending at_await)).
      { eapply Forall_lookup_1 in Htasks; [exact Htasks|exact Hi]. }
      apply (resume_single w w' c) in Hres
        as (Hd & Hcl & Htask & (evs & Ht & Hc) & Hcase); [|exact Hct].
      split; [|exists evs; split; [exact Ht|simpl; lia]].
      split; [cbn; rewrite Hd; exact Hcfg|]. split.
      * cbn. destruct Hcase as [[Hsc Hh]|(client & Hsc & Hh)].
        -- rewrite Hsc, Hh. unfold wrapper_of. rewrite Hd. exact Hwrap.
        -- intros conn. rewrite Hsc. intros [= <-]. exists client.
           rewrite Hh. rewrite lookup_app_r by lia. rewrite Nat.sub_diag. reflexivity.
      * cbn. apply Forall_insert; [|exact Htask].
        eapply Forall_impl; [exact Htasks|]. intros ct.
        apply single_task_kept; [exact Hd|exact Hcl].
    + split; [split; [exact Hcfg|split; [exact Hwrap|exact Htasks]]|].
      exists []. rewrite app_nil_r. split; [reflexivity|simpl; lia].
    + split; [split; [exact Hcfg|split; [exact Hwrap|exact Htasks]]|].
      exists []. rewrite app_nil_r. split; [reflexivity|simpl; lia].
Qed.

Lemma acquisitions_cons (a : Action) (actions : list Action) :
  acquisitions (a :: actions) = acquisitions [a] + acquisitions actions.
Proof. destruct a as [[]|]; simpl; lia. Qed.

Lemma single_system_initial (config : PostgresDialectConfig) (s : W) :
  isPoolConfig config = false → single_system_inv (initial_system config s).
Proof.
  intros Hcfg. split; [exact Hcfg|]. split; [discriminate|constructor].
Qed.

Lemma schedule_single_system (actions : list Action) :
  ∀ sys : System W,
    single_system_inv sys →
    single_system_inv (schedule native actions sys)
    ∧ ∃ evs, trace (sys_world (schedule native actions sys))
             = trace (sys_world sys) ++ evs
             ∧ count is_client_factory evs ≤ acquisitions actions.
Proof.
  induction actions as [|a actions IH]; intros sys Hinv.
  - split; [exact Hinv|]. exists []. rewrite app_nil_r. split; [reflexivity|simpl; lia].
  - cbn [schedule].
    destruct (step_single_system a sys Hinv) as (Hinv1 & evs1 & Ht1 & Hc1).
    destruct (IH _ Hinv1) as (Hinv2 & evs2 & Ht2 & Hc2).
    split; [exact Hinv2|]. exists (evs1 ++ evs2).
    split; [rewrite Ht2, Ht1, app_assoc; reflexivity|].
    rewrite count_app, (acquisitions_cons a actions). lia.
Qed.

(** In single-client mode [#singleClient] holds a client whenever a call is
    suspended at [connect()]. *)
Lemma suspended_at_connect_has_client (config : PostgresDialectConfig) (s : W)
    (actions : list Action) (i : nat) (c : DriverCall) (settled : Outcome unit) :
  isPoolConfig config = false →
  sys_tasks (schedule native actions (initial_system config s)) !! i
  = Some (c, Pending (AtClientConnect settled)) →
  is_Some (d_singleClient
             (driver (sys_world (schedule native actions (initial_system config s))))).
Proof.
  intros Hcfg Hi.
  destruct (schedule_single_system actions _ (single_system_initial config s Hcfg))
    as ((_ & _ & Htasks) & _).
  eapply Forall_lookup_1 in Htasks; [|exact Hi].
  destruct Htasks as (_ & Hcl & _). exact Hcl.
Qed.







End OverlapFacts.

(** * Operation nodes: [dropConstraintNode] *)

Section DropConstraintNodeFacts.

(** [identifierNode.create] of [src/operation-node/identifier-node.ts],
    which is not among the sources. *)
Variable identifierNode_create : string → OperationNode.

(** C9. [dropConstraintNode.create(name)] is a frozen node of kind
    'DropConstraintNode' whose only property besides the kind is
    [constraintName], its one child, the identifier node created from
    [name]; [dropConstraintNode.is(n)] is true exactly when the kind of [n]
    is 'DropConstraintNode'. *)
Theorem dropConstraintNode_create_and_is :
  (∀ name : string,
     is_frozen (dropConstraintNode_create identifierNode_create name) = true
     ∧ kind (dropConstraintNode_create identifierNode_create name) = "DropConstraintNode"
     ∧ properties (dropConstraintNode_create identifierNode_create name)
       = [("constraintName", PNode (identifierNode_create name))]
     ∧ child_nodes (properties (dropConstraintNode_create identifierNode_create name))
       = [identifierNode_create name]
     ∧ dropConstraintNode_is (dropConstraintNode_create identifierNode_create name) = true)
  ∧ (∀ n : OperationNode,
       dropConstraintNode_is n = true ↔ kind n = "DropConstraintNode").
Proof.
  split.
  - intros name. repeat split.
  - intros n. unfold dropConstraintNode_is. apply String.eqb_eq.
Qed.

End DropConstraintNodeFacts.

(** * The theorems at concrete inputs *)

Lemma executeQuery_update_three_rows :
  ∃ r w', executeQuery update_native plain_connection select_all
            (five_rows lazy_pool_config) = (Resolved r, w')
          ∧ numAffectedRows r = Some 3%Z ∧ rows r = [].
Proof.
  eexists _, _. split; [reflexivity|].
  destruct (executeQuery_result_by_command update_native plain_connection select_all
              (five_rows lazy_pool_config) _ _ eq_refl)
    as (res & s' & Hq & _ & Hnone & Hmut & _).
  invert Hq. split; reflexivity.
Defined.

Lemma streamQuery_rejects_chunk_size_zero :
  gen_next update_native (streamQuery streaming_connection select_all (of_Z 0))
    (five_rows lazy_pool_config)
  = (Rejected (Error_at "PostgresConnection.streamQuery" chunk_size_message),
     finished (streamQuery streaming_connection select_all (of_Z 0)),
     five_rows lazy_pool_config)
  ∧ gen_next update_native (streamQuery plain_connection select_all (of_Z 2))
      (five_rows lazy_pool_config)
    = (Rejected (Error_at "PostgresConnection.streamQuery" cursor_missing_message),
       finished (streamQuery plain_connection select_all (of_Z 2)),
       five_rows lazy_pool_config).
Proof.
  split.
  - apply (proj1 (proj2 (streamQuery_fails_before_any_native_call update_native
                           streaming_connection select_all (of_Z 0)
                           (five_rows lazy_pool_config)))).
    + discriminate.
    + left. exists (inject_Z 0). split; reflexivity.
  - apply (proj1 (streamQuery_fails_before_any_native_call update_native
                    plain_connection select_all (of_Z 2)
                    (five_rows lazy_pool_config))).
    reflexivity.
Defined.

(** Without a cursor constructor and with [chunkSize = 0], the error is the
    one about the cursor, not the one about [chunkSize]. *)
Lemma streamQuery_without_cursor_ignores_chunk_size :
  chunk_is_zero (of_Z 0)
  ∧ ∃ e g w',
      gen_next update_native (streamQuery plain_connection select_all (of_Z 0))
        (five_rows lazy_pool_config) = (Rejected e, g, w')
      ∧ message e = cursor_missing_message
      ∧ message e ≠ chunk_size_message.
Proof.
  split.
  - exists (inject_Z 0). split; reflexivity.
  - eexists _, _, _. split; [reflexivity|]. split; [reflexivity|]. discriminate.
Qed.

(** The consumer takes one batch of two rows and stops. *)
Lemma streamQuery_early_stop_closes_once :
  count is_cursor_close
    (trace (snd (consume update_native [Next; Return]
                   (streamQuery streaming_connection select_all (of_Z 2))
                   (five_rows lazy_pool_config))))
  = 1.
Proof.
  pose proof (streamQuery_closes_cursor_exactly_once update_native
                streaming_connection select_all (of_Z 2) [Return]
                (five_rows lazy_pool_config) _ _ 3%positive _ _ eq_refl eq_refl)
    as (Hclose & _ & _ & _).
  exact Hclose.
Defined.

Lemma streamQuery_five_rows_by_two :
  ∃ batches g' w',
    for_await update_native 6 (streamQuery streaming_connection select_all (of_Z 2))
      (five_rows lazy_pool_config)
    = (batches, Exhausted, g', w')
    ∧ map (λ b, length (rows b)) batches = [2; 2; 1].
Proof.
  destruct (proj1 (proj2 (streamQuery_yields_one_batch_per_non_empty_read update_answer))
              streaming_connection select_all 1%positive (of_Z 2) 2%Z
              (five_rows lazy_pool_config) 6 eq_refl)
    as (batches & g' & w' & Hrun & _ & _ & Hsizes & _).
  - exists (inject_Z 2). split; reflexivity.
  - reflexivity.
  - simpl. lia.
  - exists batches, g', w'. split; [exact Hrun|]. rewrite Hsizes. reflexivity.
Defined.



Lemma single_client_destroyed_twice :
  events_since single_later single_destroyed = [EvClientEnd 5]
  ∧ events_since single_destroyed single_destroyed_again = [EvClientEnd 5]
  ∧ count is_client_end (events_since single_later single_destroyed_again) = 2.
Proof.
  destruct (destroy_single_client_ends_client_each_time update_native
              lazy_client_config [1; 2; 3; 4; 5] []
              [AcquireConnection; Destroy; AcquireConnection] []
              single_later_results (five_rows lazy_client_config)
              single_acquired single_later single_destroyed single_destroyed_again
              0 (Resolved tt) (Resolved tt))
    as (client & _ & Hcl & Hfirst & _ & Hsecond & Hcount).
  - reflexivity.
  - reflexivity.
  - vm_compute. reflexivity.
  - vm_compute. reflexivity.
  - vm_compute. reflexivity.
  - vm_compute. reflexivity.
  - assert (client = 5%positive) by (vm_compute in Hcl; congruence). subst client.
    auto.
Defined.

Lemma pool_client_acquired_twice :
  acquireConnection update_native pool_released = (Resolved 0, pool_acquired_again)
  ∧ count is_hook (events_since pool_released pool_acquired_again) = 0
  ∧ count (is_hook_for 11) (trace pool_acquired_again) ≤ 1.
Proof.
  pose proof (acquireConnection_pool_one_wrapper_one_hook_per_handle update_native)
    as [Honce Hsame].
  split; [vm_compute; reflexivity|]. split.
  - destruct (Hsame lazy_pool_config [1; 2; 3; 4; 5] [Init] [ReleaseConnection 0]
                [Resolved RVoid] [Resolved RVoid]
                pool_ready pool_acquired pool_released pool_acquired_again
                11%positive 0 (Resolved 0))
      as (_ & _ & Hnohook).
    + reflexivity.
    + vm_compute. reflexivity.
    + exists 7%positive, [1; 2; 3; 4; 5]. split; vm_compute; reflexivity.
    + vm_compute. reflexivity.
    + vm_compute. reflexivity.
    + exists 7%positive, [1; 2; 3; 4; 5]. split; vm_compute; reflexivity.
    + vm_compute. reflexivity.
    + exact Hnohook.
  - apply (Honce lazy_pool_config [1; 2; 3; 4; 5]
             [Init; AcquireConnection; ReleaseConnection 0; AcquireConnection]
             [Resolved RVoid; Resolved (RConnection 0); Resolved RVoid;
              Resolved (RConnection 0)]).
    + reflexivity.
    + vm_compute. reflexivity.
Defined.

Lemma pool_destroyed_twice :
  events_since pool_acquired_again pool_destroyed = [EvPoolEnd 7]
  ∧ destroy update_native pool_destroyed = (Resolved tt, pool_destroyed).
Proof.
  destruct (destroy_pool_twice_closes_pool_once update_native
              lazy_pool_config [1; 2; 3; 4; 5]
              [Init; AcquireConnection; ReleaseConnection 0; AcquireConnection]
              [Resolved RVoid; Resolved (RConnection 0); Resolved RVoid;
               Resolved (RConnection 0)]
              pool_acquired_again pool_destroyed pool_destroyed
              (Resolved tt) (Resolved tt))
    as (_ & Hfirst & _ & _ & _ & _).
  - reflexivity.
  - vm_compute. reflexivity.
  - vm_compute. reflexivity.
  - vm_compute. reflexivity.
  - split; [exact Hfirst|vm_compute; reflexivity].
Defined.

(** [init] called twice with a lazy pool: the factory runs twice. *)
Lemma init_twice_calls_pool_factory_twice :
  ¬ count is_pool_factory
      (trace (snd (perform_all update_native [Init; Init] (five_rows lazy_pool_config))))
    ≤ 1.
Proof. vm_compute. lia. Qed.

Lemma init_three_times_calls_pool_factory_three_times :
  count is_pool_factory (trace pool_initialised_three_times) = 3.
Proof.
  apply (proj1 (init_resolves_pool_on_every_call update_native)
           lazy_pool_config [1; 2; 3; 4; 5] [Init; AcquireConnection; Init; Init]
           [Resolved RVoid; Resolved (RConnection 0); Resolved RVoid; Resolved RVoid]
           pool_initialised_three_times).
  vm_compute. reflexivity.
Defined.

(** * Further properties *)

(** ** [executeQuery] and the statements of a transaction *)

Section QueryOutcome.
Context {O W : Type} (native : Native O W).

(** X1. [executeQuery] makes exactly one [client.query] call, with the SQL
    text and the parameters it was given, and touches nothing else.  It
    resolves exactly when the client resolved and, for INSERT, UPDATE and
    DELETE, reported an integral [rowCount]; the deprecated
    [numUpdatedOrDeletedRows] always equals [numAffectedRows]. *)
Theorem executeQuery_one_call_and_outcome (this : PostgresConnection)
    (q : CompiledQuery) (w : World W) :
  ∃ ans s' r,
    client_query native (conn_client this) (sql q) (parameters q) (native_state w)
      = (ans, s')
    ∧ executeQuery native this q w
      = (r, mkWorld (driver w) (heap w) s'
              (trace w ++ [EvQuery (conn_client this) (sql q) (parameters q)]))
    ∧ ((∃ res, r = Resolved res)
       ↔ ∃ pg, ans = Resolved pg
               ∧ (mutating (command pg) →
                  ∃ (n : Z) (x : JsNumber), rowCount pg = Some x ∧ is_integer x n))
    ∧ (∀ res, r = Resolved res → numUpdatedOrDeletedRows res = numAffectedRows res).
Proof.
  destruct (client_query native (conn_client this) (sql q) (parameters q)
              (native_state w)) as [ans s'] eqn:Hq.
  exists ans, s'. unfold executeQuery. unfold_M. rewrite Hq.
  destruct ans as [pg|e].
  - destruct (String.eqb (command pg) "INSERT" || String.eqb (command pg) "UPDATE"
              || String.eqb (command pg) "DELETE") eqn:Hm.
    + apply mutating_test in Hm.
      destruct (BigInt (rowCount pg)) as [e|n] eqn:Hb; simpl.
      * eexists. split; [reflexivity|]. split; [reflexivity|]. split.
        -- split.
           ++ intros [res Hres]. discriminate.
           ++ intros (pg' & Hpg & Hcount). invert Hpg.
              destruct (Hcount Hm) as (n & x & Hrc & Hint).
              rewrite Hrc, (BigInt_integer x n Hint) in Hb. discriminate.
        -- intros res Hres. discriminate.
      * eexists. split; [reflexivity|]. split; [reflexivity|]. split.
        -- split; [|eauto]. intros _. exists pg. split; [reflexivity|].
           intros _. apply BigInt_inr in Hb as (x & Hrc & Hint). eauto.
        -- intros res Hres. invert Hres. reflexivity.
    + eexists. split; [reflexivity|]. split; [reflexivity|]. split.
      * split; [|eauto]. intros _. exists pg. split; [reflexivity|].
        intros Hmut. apply mutating_test in Hmut. congruence.
      * intros res Hres. invert Hres. reflexivity.
  - eexists. split; [reflexivity|]. split; [reflexivity|]. split.
    + split.
      * intros [res Hres]. discriminate.
      * intros (pg & Hpg & _). discriminate.
    + intros res Hres. discriminate.
Qed.

(** What a statement sent through a wrapper changes and logs. *)
Lemma statement_sent (connection : ConnRef) (this : PostgresConnection)
    (q : CompiledQuery) (w w' : World W) (r : Outcome unit) :
  heap w !! connection = Some this →
  (this ← deref connection; executeQuery native this q;; mret tt) w = (r, w') →
  driver w' = driver w ∧ heap w' = heap w
  ∧ events_since w w' = [EvQuery (conn_client this) (sql q) (parameters q)]
  ∧ ((∃ res s', executeQuery native this q w = (Resolved res, s')) ↔ r = Resolved tt).
Proof.
  intros Hconn. unfold mbind at 1. unfold M_bind, deref. rewrite Hconn.
  unfold mbind, M_bind.
  destruct (executeQuery native this q w) as [[res|e] w1] eqn:E;
    pose proof E as Hframe; apply executeQuery_frame in Hframe as (Hd & Hh & Ht);
    intros H; invert H; (split; [exact Hd|]); (split; [exact Hh|]);
    (split; [apply events_since_app; exact Ht|]).
  - split; [reflexivity|eauto].
  - split; [intros (res & s' & Hres); discriminate|discriminate].
Qed.

(** X2. [beginTransaction], [commitTransaction] and [rollbackTransaction]
    each send exactly one statement, without parameters, on the client of
    the wrapper they are given, and leave the driver as it was: the driver
    keeps no transaction state.  The statement is [commit], [rollback], and
    for [beginTransaction] it is [start transaction isolation level L] when
    the isolation level [L] is given and not empty, [begin] otherwise. *)
Theorem transaction_calls_send_one_statement (connection : ConnRef)
    (this : PostgresConnection) (w : World W) :
  heap w !! connection = Some this →
  (∀ settings r w',
     beginTransaction native connection settings w = (r, w') →
     driver w' = driver w ∧ heap w' = heap w
     ∧ events_since w w' = [EvQuery (conn_client this) (begin_statement settings) []]
     ∧ (∀ level, isolationLevel settings = Some level → level ≠ EmptyString →
          begin_statement settings
          = String.append "start transaction isolation level " level)
     ∧ (isolationLevel settings = None ∨ isolationLevel settings = Some EmptyString →
          begin_statement settings = "begin"))
  ∧ (∀ r w',
       commitTransaction native connection w = (r, w') →
       driver w' = driver w ∧ heap w' = heap w
       ∧ events_since w w' = [EvQuery (conn_client this) "commit" []])
  ∧ (∀ r w',
       rollbackTransaction native connection w = (r, w') →
       driver w' = driver w ∧ heap w' = heap w
       ∧ events_since w w' = [EvQuery (conn_client this) "rollback" []]).
Proof.
  intros Hconn. split; [|split].
  - intros settings r w' H.
    assert (Hsent : driver w' = driver w ∧ heap w' = heap w
                    ∧ events_since w w'
                      = [EvQuery (conn_client this) (begin_statement settings) []]).
    { unfold beginTransaction, begin_statement, truthy_string in *.
      destruct (isolationLevel settings) as [level|]; simpl in *.
      - destruct (String.eqb level EmptyString); simpl in H;
          apply (statement_sent connection this) in H as (Hd & Hh & Ht & _); auto.
      - apply (statement_sent connection this) in H as (Hd & Hh & Ht & _); auto. }
    destruct Hsent as (Hd & Hh & Ht). repeat (split; [assumption|]).
    unfold begin_statement. split.
    + intros level -> Hne. destruct (String.eqb_spec level EmptyString); [contradiction|].
      reflexivity.
    + intros [-> | ->]; reflexivity.
  - intros r w' H. unfold commitTransaction in H.
    apply (statement_sent connection this) in H as (Hd & Hh & Ht & _); auto.
  - intros r w' H. unfold rollbackTransaction in H.
    apply (statement_sent connection this) in H as (Hd & Hh & Ht & _); auto.
Qed.

(** X3. [releaseConnection] calls [release()] on the client of the wrapper
    exactly when that client has a [release] method; for a client without
    one it makes no native call and resolves.  Either way the driver keeps
    the wrapper and its registration. *)
Theorem releaseConnection_releases_pool_clients_only (connection : ConnRef)
    (this : PostgresConnection) (w w' : World W) (r : Outcome unit) :
  heap w !! connection = Some this →
  releaseConnection native connection w = (r, w') →
  driver w' = driver w ∧ heap w' = heap w
  ∧ (has_release native (conn_client this) = true →
     events_since w w' = [EvRelease (conn_client this)])
  ∧ (has_release native (conn_client this) = false → r = Resolved tt ∧ w' = w).
Proof.
  intros Hconn. unfold releaseConnection, PRIVATE_RELEASE_METHOD, isPoolClient.
  unfold_M. rewrite Hconn.
  destruct (has_release native (conn_client this)).
  - destruct (client_release native (conn_client this) (native_state w)) as [[[]|e] s'];
      intros H; invert H; simpl; repeat split; try discriminate;
      intros _; unfold events_since; simpl; apply drop_app_length.
  - intros H; invert H. repeat split; try discriminate; reflexivity.
Qed.

End QueryOutcome.

(** ** Pool mode: failures, hooks and wrappers *)

Section PoolMode.
Context {O W : Type} (native : Native O W).

(** An acquisition that resolved to the handle [h] leaves a wrapper
    registered for [h]; it returns that wrapper unless the hook, called for
    a fresh wrapper, rejected. *)
Lemma acquire_registers (w w' : World W) (h : ClientRef) (r : Outcome ConnRef) :
  isPoolConfig (d_config (driver w)) = true →
  resolves_to native w h →
  acquireConnection native w = (r, w') →
  ∃ c, d_connections (driver w') !! h = Some c
       ∧ (r = Resolved c
          ∨ ∃ e s1 s2 p,
              r = Rejected e
              ∧ d_connections (driver w) !! h = None
              ∧ c = length (heap w)
              ∧ cfg_onCreateConnection (d_config (driver w)) = true
              ∧ pool_connect native p (native_state w) = (Resolved h, s1)
              ∧ on_create_connection native c s1 = (Rejected e, s2)
              ∧ events_since w w' = [EvPoolConnect p; EvOnCreateConnection c h]).
Proof.
  intros Hcfg (p0 & s0 & Hp0 & Hc0) H.
  apply acquire_pool in H as [(Hnone & _)|(p & rc & s1 & Hp & Hc & Hcase)];
    [congruence| |exact Hcfg].
  rewrite Hp0 in Hp. invert Hp. rewrite Hc0 in Hc. invert Hc.
  destruct (d_connections (driver w) !! h) as [c|] eqn:Hlook.
  - destruct Hcase as [-> ->]. exists c. split; [exact Hlook|left; reflexivity].
  - simpl in Hcase. exists (length (heap w)).
    destruct (cfg_onCreateConnection (d_config (driver w))) eqn:Hhook.
    + destruct Hcase as (rh & s2 & Hrh & -> & ->). simpl.
      split; [apply lookup_insert_eq|].
      destruct rh as [[]|e]; [left; reflexivity|].
      right. exists e, s1, s2, p. repeat split; try assumption.
      unfold events_since. simpl. apply drop_app_length.
    + destruct Hcase as [-> ->]. simpl.
      split; [apply lookup_insert_eq|left; reflexivity].
Qed.

(** X4. In pool mode [acquireConnection] fails with a [TypeError], without
    any native call and without changing anything, as long as the driver
    holds no pool: on a new driver before [init()], and right after any
    [destroy()].  When [pool.connect()] rejects, the rejection is passed on
    as it is and no wrapper is created. *)
Theorem acquireConnection_pool_failures :
  (∀ (config : PostgresDialectConfig) (s : W),
     isPoolConfig config = true →
     acquireConnection native (initial_world config s)
     = (Rejected (undefined_has_no "connect"), initial_world config s))
  ∧ (∀ (config : PostgresDialectConfig) (s : W) (pre : list DriverCall)
       (rs : list (Outcome Returned)) (w0 w1 : World W) (r1 : Outcome unit),
       isPoolConfig config = true →
       perform_all native pre (initial_world config s) = (rs, w0) →
       destroy native w0 = (r1, w1) →
       acquireConnection native w1 = (Rejected (undefined_has_no "connect"), w1))
  ∧ (∀ (w : World W) (p : PoolRef) (e : JsError) (s1 : W),
       isPoolConfig (d_config (driver w)) = true →
       d_pool (driver w) = Some p →
       pool_connect native p (native_state w) = (Rejected e, s1) →
       acquireConnection native w
       = (Rejected e, mkWorld (driver w) (heap w) s1 (trace w ++ [EvPoolConnect p]))).
Proof.
  assert (Hnopool : ∀ w : World W,
            isPoolConfig (d_config (driver w)) = true →
            d_pool (driver w) = None →
            acquireConnection native w = (Rejected (undefined_has_no "connect"), w)).
  { intros w Hcfg Hp. unfold acquireConnection. unfold_M. rewrite Hcfg, Hp. reflexivity. }
  split; [|split].
  - intros config s Hcfg. apply Hnopool; [exact Hcfg|reflexivity].
  - intros config s pre rs w0 w1 r1 Hcfg Hpre Hd.
    apply pool_inv_run in Hpre as ((Hcfg0 & Hcl0 & _) & _);
      [|apply pool_inv_initial; exact Hcfg].
    pose proof Hd as Hd'. apply destroy_pool in Hd' as (Hp1 & _); [|exact Hcl0].
    apply destroy_frame in Hd as ((Hcf & _) & _).
    apply Hnopool; [rewrite Hcf; exact Hcfg0|exact Hp1].
  - intros w p e s1 Hcfg Hp Hc. unfold acquireConnection. unfold_M.
    rewrite Hcfg, Hp. simpl. rewrite Hc. reflexivity.
Qed.

(** X5. When the [onCreateConnection] hook rejects, [acquireConnection]
    rejects with the hook's error, the client is not released, and the
    wrapper stays registered: whatever is called afterwards, the next
    acquisition that resolves to the same handle returns that wrapper
    without calling the hook again. *)
Theorem acquireConnection_hook_failure_is_not_retried (config : PostgresDialectConfig)
    (s : W) (pre mid : list DriverCall) (rs_pre rs_mid : list (Outcome Returned))
    (w0 w1 w2 w3 : World W) (h : ClientRef) (e : JsError) (r2 : Outcome ConnRef) :
  isPoolConfig config = true →
  perform_all native pre (initial_world config s) = (rs_pre, w0) →
  resolves_to native w0 h →
  acquireConnection native w0 = (Rejected e, w1) →
  perform_all native mid w1 = (rs_mid, w2) →
  resolves_to native w2 h →
  acquireConnection native w2 = (r2, w3) →
  ∃ (p : PoolRef) (c : ConnRef) (s1 s2 : W),
    pool_connect native p (native_state w0) = (Resolved h, s1)
    ∧ on_create_connection native c s1 = (Rejected e, s2)
    ∧ events_since w0 w1 = [EvPoolConnect p; EvOnCreateConnection c h]
    ∧ heap w1 !! c = Some (wrapper_of (driver w1) h)
    ∧ r2 = Resolved c
    ∧ count is_hook (events_since w2 w3) = 0.
Proof.
  intros Hcfg Hpre Hres0 Hacq1 Hmid Hres2 Hacq2.
  apply pool_inv_run in Hpre as (Hinv0 & _); [|apply pool_inv_initial; exact Hcfg].
  pose proof Hacq1 as Hreg.
  apply (acquire_registers w0 w1 h) in Hreg as (c & Hreg1 & Hcase);
    [|apply Hinv0|exact Hres0].
  destruct Hcase as [Hr|(e' & s1 & s2 & p & Hr & Hfresh & -> & Hhook & Hc & Hh & Hev)];
    [discriminate|].
  invert Hr.
  apply pool_inv_acquire in Hacq1 as (Hinv1 & _ & _); [|exact Hinv0].
  apply pool_inv_run in Hmid as (Hinv2 & Hkeep); [|exact Hinv1].
  pose proof (Hkeep h _ Hreg1) as Hreg2.
  exists p, (length (heap w0)), s1, s2.
  split; [exact Hc|]. split; [exact Hh|]. split; [exact Hev|]. split.
  { destruct Hinv1 as (_ & _ & Hmap & _). apply Hmap. exact Hreg1. }
  destruct Hres2 as (p2 & s2' & Hp2 & Hc2).
  apply acquire_pool in Hacq2 as [(Hnone & _)|(p' & rc & s1' & Hp & Hc' & Hcase)];
    [congruence| |apply Hinv2].
  rewrite Hp2 in Hp. invert Hp. rewrite Hc2 in Hc'. invert Hc'.
  rewrite Hreg2 in Hcase. destruct Hcase as [-> ->].
  split; [reflexivity|]. unfold events_since. simpl. rewrite drop_app_length. reflexivity.
Qed.

(** X6. In pool mode a wrapper belongs to one native handle: two
    acquisitions that return the same wrapper resolved to the same handle,
    and the wrapper an acquisition returns wraps the handle it resolved
    to. *)
Theorem acquireConnection_pool_wrapper_has_one_handle (config : PostgresDialectConfig)
    (s : W) (pre mid : list DriverCall) (rs_pre rs_mid : list (Outcome Returned))
    (w0 w1 w2 w3 : World W) (h1 h2 : ClientRef) (conn : ConnRef) :
  isPoolConfig config = true →
  perform_all native pre (initial_world config s) = (rs_pre, w0) →
  resolves_to native w0 h1 →
  acquireConnection native w0 = (Resolved conn, w1) →
  perform_all native mid w1 = (rs_mid, w2) →
  resolves_to native w2 h2 →
  acquireConnection native w2 = (Resolved conn, w3) →
  h1 = h2
  ∧ heap w1 !! conn = Some (wrapper_of (driver w1) h1)
  ∧ heap w3 !! conn = Some (wrapper_of (driver w3) h1).
Proof.
  intros Hcfg Hpre Hres0 Hacq1 Hmid Hres2 Hacq2.
  apply pool_inv_run in Hpre as (Hinv0 & _); [|apply pool_inv_initial; exact Hcfg].
  pose proof Hacq1 as Hreg.
  apply (acquire_registers w0 w1 h1) in Hreg as (c & Hreg1 & Hcase);
    [|apply Hinv0|exact Hres0].
  destruct Hcase as [Hr|(e & ? & ? & ? & Hr & _)]; [|discriminate].
  assert (c = conn) by congruence. subst c. clear Hr.
  apply pool_inv_acquire in Hacq1 as (Hinv1 & _ & _); [|exact Hinv0].
  apply pool_inv_run in Hmid as (Hinv2 & Hkeep2); [|exact Hinv1].
  pose proof Hacq2 as Hreg.
  apply (acquire_registers w2 w3 h2) in Hreg as (c' & Hreg3 & Hcase);
    [|apply Hinv2|exact Hres2].
  destruct Hcase as [Hr|(e & ? & ? & ? & Hr & _)]; [|discriminate].
  assert (c' = conn) by congruence. subst c'. clear Hr.
  apply pool_inv_acquire in Hacq2 as (Hinv3 & Hkeep3 & _); [|exact Hinv2].
  pose proof (Hkeep3 h1 conn (Hkeep2 h1 conn Hreg1)) as Hreg3'.
  destruct Hinv1 as (_ & _ & Hmap1 & _). destruct Hinv3 as (_ & _ & Hmap3 & _).
  pose proof (Hmap3 h1 conn Hreg3') as Hw1. pose proof (Hmap3 h2 conn Hreg3) as Hw2.
  rewrite Hw1 in Hw2. invert Hw2.
  split; [reflexivity|]. split; [apply Hmap1; exact Hreg1|exact Hw1].
Qed.

End PoolMode.

(** ** The mode of the driver and the options of its wrappers *)

Section Modes.
Context {O W : Type} (native : Native O W).

(** The calls that send a statement or release a client change nothing in
    the driver. *)
Lemma perform_statement_or_release (c : DriverCall) (w w' : World W)
    (r : Outcome Returned) :
  is_acquire c = false → is_init c = false → c ≠ Destroy →
  perform native c w = (r, w') →
  driver w' = driver w ∧ heap w' = heap w
  ∧ ∃ evs, trace w' = trace w ++ evs
           ∧ count is_client_side evs = 0 ∧ count is_pool_side evs = 0.
Proof.
  intros Hacq Hinit Hdes H.
  assert (Hevs : ∀ evs, Forall (λ ev, emitted_by c ev = true) evs →
            count is_client_side evs = 0 ∧ count is_pool_side evs = 0).
  { intros evs Hall. split; apply (count_not_emitted _ c); try exact Hall;
      intros ev; destruct c, ev; simpl; try discriminate; try reflexivity;
      try congruence. }
  destruct c as [| |conn settings|conn|conn|conn|]; try discriminate; try congruence;
    unfold perform in H; unfold mbind at 1 in H; unfold M_bind in H.
  - destruct (beginTransaction native conn settings w) as [rb w1] eqn:E.
    assert (w1 = w') by (destruct rb as [[]|]; invert H; reflexivity). subst w1.
    unfold beginTransaction in E.
    destruct (truthy_string (isolationLevel settings));
      apply statement_frame in E as (Hd & Hh & evs & Ht & Hall);
      (split; [exact Hd|]); (split; [exact Hh|]); exists evs; (split; [exact Ht|]);
      apply Hevs; (eapply Forall_impl; [exact Hall|]); intros ev;
      apply query_emitted; reflexivity.
  - destruct (commitTransaction native conn w) as [rb w1] eqn:E.
    assert (w1 = w') by (destruct rb as [[]|]; invert H; reflexivity). subst w1.
    unfold commitTransaction in E.
    apply statement_frame in E as (Hd & Hh & evs & Ht & Hall).
    split; [exact Hd|]. split; [exact Hh|]. exists evs. split; [exact Ht|].
    apply Hevs. eapply Forall_impl; [exact Hall|]. intros ev.
    apply query_emitted. reflexivity.
  - destruct (rollbackTransaction native conn w) as [rb w1] eqn:E.
    assert (w1 = w') by (destruct rb as [[]|]; invert H; reflexivity). subst w1.
    unfold rollbackTransaction in E.
    apply statement_frame in E as (Hd & Hh & evs & Ht & Hall).
    split; [exact Hd|]. split; [exact Hh|]. exists evs. split; [exact Ht|].
    apply Hevs. eapply Forall_impl; [exact Hall|]. intros ev.
    apply query_emitted. reflexivity.
  - destruct (releaseConnection native conn w) as [rb w1] eqn:E.
    assert (w1 = w') by (destruct rb as [[]|]; invert H; reflexivity). subst w1.
    apply releaseConnection_frame in E as (Hd & Hh & evs & Ht & Hall).
    split; [exact Hd|]. split; [exact Hh|]. exists evs. split; [exact Ht|].
    apply Hevs. exact Hall.
Qed.

(** In single-client mode a fresh acquisition only calls the client factory
    and [client.connect()]. *)
Lemma acquire_single_events (w w' : World W) (r : Outcome ConnRef) :
  isPoolConfig (d_config (driver w)) = false →
  acquireConnection native w = (r, w') →
  d_pool (driver w') = d_pool (driver w)
  ∧ d_config (driver w') = d_config (driver w)
  ∧ ∃ evs, trace w' = trace w ++ evs ∧ count is_pool_side evs = 0.
Proof.
  intros Hpool. unfold acquireConnection, set_singleClient, set_singleConnection.
  unfold_M. rewrite Hpool. simpl. intros H.
  destruct (d_singleConnection (driver w)) as [c|].
  - invert H. repeat split. exists []. rewrite app_nil_r. auto.
  - destruct (cfg_client (d_config (driver w))) as [[v|]|]; simpl in H.
    + destruct (client_connect native v (native_state w)) as [[[]|e] s1];
        invert H; simpl; repeat split; eexists; split; reflexivity.
    + destruct (client_factory native (native_state w)) as [[v|e] s0]; simpl in H.
      * destruct (client_connect native v s0) as [[[]|e] s1];
          invert H; simpl; repeat split; eexists;
          (split; [rewrite <- app_assoc; reflexivity|reflexivity]).
      * invert H; simpl; repeat split. eexists; split; reflexivity.
    + invert H. simpl. repeat split. exists []. rewrite app_nil_r. auto.
Qed.

Lemma pool_mode_step (c : DriverCall) (w w' : World W) (r : Outcome Returned) :
  pool_inv w →
  perform native c w = (r, w') →
  ∃ evs, trace w' = trace w ++ evs ∧ count is_client_side evs = 0.
Proof.
  intros Hinv H. destruct c as [| |conn settings|conn|conn|conn|].
  - apply perform_other in H as (_ & _ & _ & evs & Ht & Hall); [|reflexivity].
    exists evs. split; [exact Ht|]. apply (count_not_emitted _ Init); [|exact Hall].
    intros []; simpl; try discriminate; reflexivity.
  - unfold perform in H. unfold mbind at 1 in H. unfold M_bind in H.
    destruct (acquireConnection native w) as [rc w1] eqn:E.
    assert (w1 = w') by (destruct rc; invert H; reflexivity). subst w1.
    apply acquire_pool in E as [(_ & -> & _)|(p & rc' & s1 & Hp & Hc & Hcase)];
      [|  |apply Hinv].
    { exists []. rewrite app_nil_r. auto. }
    destruct rc' as [h|e].
    + destruct (d_connections (driver w) !! h).
      * destruct Hcase as [_ ->]. simpl. eauto.
      * simpl in Hcase. destruct (cfg_onCreateConnection (d_config (driver w))).
        -- destruct Hcase as (rh & s2 & _ & -> & _). simpl. eauto.
        -- destruct Hcase as [_ ->]. simpl. eauto.
    + destruct Hcase as [_ ->]. simpl. eauto.
  - apply perform_statement_or_release in H as (_ & _ & evs & Ht & Hc & _);
      try reflexivity; try discriminate. eauto.
  - apply perform_statement_or_release in H as (_ & _ & evs & Ht & Hc & _);
      try reflexivity; try discriminate. eauto.
  - apply perform_statement_or_release in H as (_ & _ & evs & Ht & Hc & _);
      try reflexivity; try discriminate. eauto.
  - apply perform_statement_or_release in H as (_ & _ & evs & Ht & Hc & _);
      try reflexivity; try discriminate. eauto.
  - unfold perform in H. unfold mbind at 1 in H. unfold M_bind in H.
    destruct (destroy native w) as [rd w1] eqn:E.
    assert (w1 = w') by (destruct rd as [[]|]; invert H; reflexivity). subst w1.
    destruct Hinv as (_ & Hcl & _).
    apply destroy_pool in E as (_ & Ht & _); [|exact Hcl].
    eexists. split; [exact Ht|]. destruct (d_pool (driver w)); reflexivity.
Qed.

Lemma single_mode_step (c : DriverCall) (w w' : World W) (r : Outcome Returned) :
  isPoolConfig (d_config (driver w)) = false →
  d_pool (driver w) = None →
  perform native c w = (r, w') →
  isPoolConfig (d_config (driver w')) = false
  ∧ d_pool (driver w') = None
  ∧ (c = Init → r = Resolved RVoid ∧ w' = w)
  ∧ ∃ evs, trace w' = trace w ++ evs ∧ count is_pool_side evs = 0.
Proof.
  intros Hcfg Hp H.
  assert (Hstmt : is_acquire c = false → is_init c = false → c ≠ Destroy →
            isPoolConfig (d_config (driver w')) = false
            ∧ d_pool (driver w') = None
            ∧ (c = Init → r = Resolved RVoid ∧ w' = w)
            ∧ ∃ evs, trace w' = trace w ++ evs ∧ count is_pool_side evs = 0).
  { intros Hacq Hinit Hdes.
    apply perform_statement_or_release in H as (Hd & _ & evs & Ht & _ & Hc);
      try assumption.
    rewrite Hd. split; [exact Hcfg|]. split; [exact Hp|].
    split; [intros ->; discriminate|eauto]. }
  destruct c as [| |conn settings|conn|conn|conn|];
    try (apply Hstmt; [reflexivity|reflexivity|discriminate]).
  - unfold perform in H. unfold mbind at 1 in H. unfold M_bind in H.
    destruct (init native w) as [ri w1] eqn:E. apply init_cases in E.
    assert (Hcp : cfg_pool (d_config (driver w)) = None).
    { unfold isPoolConfig in Hcfg.
      destruct (cfg_pool (d_config (driver w))); [discriminate|reflexivity]. }
    rewrite Hcp in E. destruct E as [-> ->]. invert H.
    split; [exact Hcfg|]. split; [exact Hp|].
    split; [auto|]. exists []. rewrite app_nil_r. auto.
  - unfold perform in H. unfold mbind at 1 in H. unfold M_bind in H.
    destruct (acquireConnection native w) as [rc w1] eqn:E.
    assert (w1 = w') by (destruct rc; invert H; reflexivity). subst w1.
    apply acquire_single_events in E as (Hp' & Hcf & evs & Ht & Hc); [|exact Hcfg].
    split; [rewrite Hcf; exact Hcfg|]. split; [rewrite Hp'; exact Hp|].
    split; [discriminate|eauto].
  - unfold perform in H. unfold mbind at 1 in H. unfold M_bind in H.
    destruct (destroy native w) as [rd w1] eqn:E.
    assert (w1 = w') by (destruct rd as [[]|]; invert H; reflexivity). subst w1.
    destruct (d_singleClient (driver w)) as [client|] eqn:Hcl.
    + apply (destroy_single native client) in E as (Hd & _ & Ht); [|exact Hcl].
      rewrite Hd. split; [exact Hcfg|]. split; [exact Hp|].
      split; [discriminate|]. eexists. split; [exact Ht|reflexivity].
    + apply destroy_pool in E as (_ & _ & _ & Hnoop); [|exact Hcl].
      destruct (Hnoop Hp) as [_ ->]. split; [exact Hcfg|]. split; [exact Hp|].
      split; [discriminate|]. exists []. rewrite app_nil_r. auto.
Qed.

(** X7. The mode of a driver is decided by the presence of [pool] in its
    configuration and never changes.  With a pool configured, whatever else
    the configuration holds, no call ever reaches a single client (its
    factory, [connect()], [end()]).  Without one, no call ever reaches a
    pool or the hook, [#pool] stays undefined, and [init()] does nothing at
    all. *)
Theorem driver_mode_is_fixed (config : PostgresDialectConfig) (s : W)
    (calls : list DriverCall) (rs : list (Outcome Returned)) (w : World W) :
  perform_all native calls (initial_world config s) = (rs, w) →
  (isPoolConfig config = true → count is_client_side (trace w) = 0)
  ∧ (isPoolConfig config = false →
     count is_pool_side (trace w) = 0
     ∧ d_pool (driver w) = None
     ∧ init native w = (Resolved tt, w)).
Proof.
  intros Hrun. split.
  - intros Hcfg.
    assert (Hgen : ∀ cs (w0 w1 : World W) rs0,
              pool_inv w0 → perform_all native cs w0 = (rs0, w1) →
              ∃ evs, trace w1 = trace w0 ++ evs ∧ count is_client_side evs = 0).
    { induction cs as [|c cs IH]; intros w0 w1 rs0 Hinv H; simpl in H.
      - invert H. exists []. rewrite app_nil_r. auto.
      - destruct (perform native c w0) as [r wa] eqn:E.
        destruct (perform_all native cs wa) as [rs1 wb] eqn:Erest. invert H.
        pose proof (pool_mode_step c w0 wa r Hinv E) as (evs1 & Ht1 & Hc1).
        apply pool_inv_perform in E as (Hinv1 & _); [|exact Hinv].
        apply IH in Erest as (evs2 & Ht2 & Hc2); [|exact Hinv1].
        exists (evs1 ++ evs2). split; [rewrite Ht2, Ht1, app_assoc; reflexivity|].
        rewrite count_app. lia. }
    apply Hgen in Hrun as (evs & Ht & Hc); [|apply pool_inv_initial; exact Hcfg].
    simpl in Ht. subst evs. exact Hc.
  - intros Hcfg.
    assert (Hgen : ∀ cs (w0 w1 : World W) rs0,
              isPoolConfig (d_config (driver w0)) = false → d_pool (driver w0) = None →
              perform_all native cs w0 = (rs0, w1) →
              isPoolConfig (d_config (driver w1)) = false ∧ d_pool (driver w1) = None
              ∧ ∃ evs, trace w1 = trace w0 ++ evs ∧ count is_pool_side evs = 0).
    { induction cs as [|c cs IH]; intros w0 w1 rs0 Hc0 Hp0 H; simpl in H.
      - invert H. split; [exact Hc0|]. split; [exact Hp0|].
        exists []. rewrite app_nil_r. auto.
      - destruct (perform native c w0) as [r wa] eqn:E.
        destruct (perform_all native cs wa) as [rs1 wb] eqn:Erest. invert H.
        apply single_mode_step in E as (Hc1 & Hp1 & _ & evs1 & Ht1 & Hn1);
          [|assumption..].
        apply IH in Erest as (Hc2 & Hp2 & evs2 & Ht2 & Hn2); [|assumption..].
        split; [exact Hc2|]. split; [exact Hp2|].
        exists (evs1 ++ evs2). split; [rewrite Ht2, Ht1, app_assoc; reflexivity|].
        rewrite count_app. lia. }
    apply Hgen in Hrun as (Hc1 & Hp1 & evs & Ht & Hn); [|exact Hcfg|reflexivity].
    simpl in Ht. subst evs. split; [exact Hn|]. split; [exact Hp1|].
    unfold init. unfold_M. unfold isPoolConfig in Hc1.
    destruct (cfg_pool (d_config (driver w))); [discriminate|reflexivity].
Qed.

End Modes.

Section WrapperOptions.
Context {O W : Type} (native : Native O W).

(** Every call keeps the wrappers there are and creates at most one more,
    with the cursor option of the configuration. *)
Lemma perform_heap (c : DriverCall) (w w' : World W) (r : Outcome Returned) :
  perform native c w = (r, w') →
  d_config (driver w') = d_config (driver w)
  ∧ (heap w' = heap w
     ∨ ∃ client, heap w' = heap w ++ [wrapper_of (driver w) client]).
Proof.
  intros H. destruct (is_acquire c) eqn:Hacq.
  - destruct c; try discriminate. unfold perform in H.
    unfold mbind at 1 in H. unfold M_bind in H.
    destruct (acquireConnection native w) as [rc w1] eqn:E.
    assert (w1 = w') by (destruct rc; invert H; reflexivity). subst w1.
    destruct (isPoolConfig (d_config (driver w))) eqn:Hcfg.
    + apply acquire_pool in E as [(_ & -> & _)|(p & rc' & s1 & Hp & Hc & Hcase)];
        [auto| |exact Hcfg].
      destruct rc' as [h|e].
      * destruct (d_connections (driver w) !! h).
        -- destruct Hcase as [_ ->]. simpl. auto.
        -- simpl in Hcase. destruct (cfg_onCreateConnection (d_config (driver w))).
           ++ destruct Hcase as (rh & s2 & _ & -> & _). simpl. eauto.
           ++ destruct Hcase as [_ ->]. simpl. eauto.
      * destruct Hcase as [_ ->]. simpl. auto.
    + apply acquire_single in E
        as [(conn & _ & _ & ->)|(_ & Hcf & _ & _ & evs & _ & _ & _ & _ & Hres)];
        [auto| |exact Hcfg].
      split; [exact Hcf|].
      destruct Hres as [(e & _ & _ & Hh)|(client & _ & _ & _ & Hh)]; eauto.
  - apply perform_other in H as ((Hcf & _) & Hh & _); [|exact Hacq]. auto.
Qed.

(** X8. Every wrapper a driver creates carries the cursor constructor of the
    driver's configuration.  So with no cursor configured, a stream opened
    on any connection of the driver fails at its first step with the error
    about the missing cursor, before any native call. *)
Theorem wrappers_carry_the_configured_cursor (config : PostgresDialectConfig) (s : W)
    (calls : list DriverCall) (rs : list (Outcome Returned)) (w : World W)
    (connection : ConnRef) (this : PostgresConnection) :
  perform_all native calls (initial_world config s) = (rs, w) →
  heap w !! connection = Some this →
  cursor (conn_options this) = cfg_cursor config
  ∧ (cfg_cursor config = None →
     ∀ (q : CompiledQuery) (chunkSize : JsNumber) (w' : World W),
       gen_next native (streamQuery this q chunkSize) w'
       = (Rejected (Error_at "PostgresConnection.streamQuery" cursor_missing_message),
          finished (streamQuery this q chunkSize), w')).
Proof.
  intros Hrun Hconn.
  assert (Hgen : ∀ cs (w0 w1 : World W) rs0,
            d_config (driver w0) = config →
            Forall (λ pc, cursor (conn_options pc) = cfg_cursor config) (heap w0) →
            perform_all native cs w0 = (rs0, w1) →
            Forall (λ pc, cursor (conn_options pc) = cfg_cursor config) (heap w1)).
  { induction cs as [|c cs IH]; intros w0 w1 rs0 Hcf Hall H; simpl in H.
    - injection H as <- <-. exact Hall.
    - destruct (perform native c w0) as [r wa] eqn:E.
      destruct (perform_all native cs wa) as [rs1 wb] eqn:Erest.
      injection H as <- <-.
      apply perform_heap in E as (Hcf1 & Hh).
      apply IH in Erest; [exact Erest|congruence|].
      destruct Hh as [-> | (client & ->)]; [exact Hall|].
      apply Forall_app. split; [exact Hall|]. constructor; [|constructor].
      unfold wrapper_of. simpl. rewrite Hcf. reflexivity. }
  assert (Hcur : cursor (conn_options this) = cfg_cursor config).
  { apply Hgen in Hrun; [|reflexivity|constructor].
    rewrite Forall_lookup in Hrun. apply (Hrun connection). exact Hconn. }
  split; [exact Hcur|].
  intros Hnone q chunkSize w'. unfold gen_next, stream_open. simpl.
  rewrite Hcur, Hnone. reflexivity.
Qed.

End WrapperOptions.

(** ** Single-client mode after a failed [connect()], and [init()] after
       [destroy()] *)

Section Recovery.
Context {O W : Type} (native : Native O W).

(** X9. In single-client mode, when the factory resolves to a client whose
    [connect()] rejects, [acquireConnection] rejects with that error and
    caches the client but no wrapper: a [destroy()] then calls [end()] on
    the client that never connected, and the next [acquireConnection] calls
    the factory again. *)
Theorem acquireConnection_failed_connect_keeps_client (w : World W) (c : ClientRef)
    (e : JsError) (s1 s2 : W) :
  isPoolConfig (d_config (driver w)) = false →
  cfg_client (d_config (driver w)) = Some Factory →
  d_singleConnection (driver w) = None →
  client_factory native (native_state w) = (Resolved c, s1) →
  client_connect native c s1 = (Rejected e, s2) →
  ∃ w1,
    acquireConnection native w = (Rejected e, w1)
    ∧ events_since w w1 = [EvClientFactory; EvClientConnect c]
    ∧ d_singleClient (driver w1) = Some c
    ∧ d_singleConnection (driver w1) = None
    ∧ heap w1 = heap w
    ∧ (∀ r w2, destroy native w1 = (r, w2) → events_since w1 w2 = [EvClientEnd c])
    ∧ (∀ r w2, acquireConnection native w1 = (r, w2) →
         ∃ evs, events_since w1 w2 = EvClientFactory :: evs).
Proof.
  intros Hcfg Hlazy Hsc Hf Hc.
  eexists. split.
  { unfold acquireConnection, set_singleClient. unfold_M.
    rewrite Hcfg, Hsc, Hlazy. simpl. rewrite Hf. simpl. rewrite Hc. reflexivity. }
  simpl. split.
  { unfold events_since. simpl. rewrite <- app_assoc. apply drop_app_length. }
  split; [reflexivity|]. split; [exact Hsc|]. split; [reflexivity|]. split.
  - intros r w2 Hd. apply (destroy_single native c) in Hd as (_ & _ & Ht);
      [|reflexivity].
    apply events_since_app. exact Ht.
  - intros r w2. unfold acquireConnection, set_singleClient, set_singleConnection.
    unfold_M. simpl. rewrite Hcfg, Hsc, Hlazy. simpl.
    destruct (client_factory native s2) as [[v|e'] s3]; simpl.
    + destruct (client_connect native v s3) as [[[]|e'] s4]; intros H; invert H;
        exists [EvClientConnect v]; apply events_since_app; simpl;
        rewrite <- app_assoc; reflexivity.
    + intros H. invert H. exists []. apply events_since_app. reflexivity.
Qed.

(** X10. In pool mode every [init()] that resolves leaves the driver holding
    a pool, also after a [destroy()]: the next [destroy()] ends exactly that
    pool, so [destroy(); init(); destroy()] calls [end()] twice.  An
    [init()] whose factory rejects leaves the driver as it was. *)
Theorem init_rearms_destroy (config : PostgresDialectConfig) (s : W)
    (pre : list DriverCall) (rs : list (Outcome Returned)) (w0 w1 : World W)
    (r : Outcome unit) :
  isPoolConfig config = true →
  perform_all native pre (initial_world config s) = (rs, w0) →
  init native w0 = (r, w1) →
  (r = Resolved tt →
   ∃ p, d_pool (driver w1) = Some p
        ∧ ∀ r2 w2, destroy native w1 = (r2, w2) →
                   events_since w1 w2 = [EvPoolEnd p] ∧ d_pool (driver w2) = None)
  ∧ (∀ e, r = Rejected e →
       driver w1 = driver w0 ∧ events_since w0 w1 = [EvPoolFactory]).
Proof.
  intros Hcfg Hpre Hinit.
  apply pool_inv_run in Hpre as ((Hcfg0 & Hcl0 & _) & _);
    [|apply pool_inv_initial; exact Hcfg].
  apply init_cases in Hinit. unfold isPoolConfig in Hcfg0.
  assert (Hends : ∀ (wa : World W) p,
            d_singleClient (driver wa) = None → d_pool (driver wa) = Some p →
            ∀ r2 w2, destroy native wa = (r2, w2) →
                     events_since wa w2 = [EvPoolEnd p] ∧ d_pool (driver w2) = None).
  { intros wa p Hcl Hp r2 w2 Hd. apply destroy_pool in Hd as (Hp2 & Ht & _); [|exact Hcl].
    rewrite Hp in Ht. split; [apply events_since_app; exact Ht|exact Hp2]. }
  destruct (cfg_pool (d_config (driver w0))) as [[v|]|]; [| |discriminate].
  - destruct Hinit as [-> ->]. split; [|discriminate].
    intros _. exists v. split; [reflexivity|]. apply Hends; [exact Hcl0|reflexivity].
  - destruct Hinit as (rp & s' & _ & Hcase). destruct rp as [p|e].
    + destruct Hcase as [-> ->]. split; [|discriminate].
      intros _. exists p. split; [reflexivity|]. apply Hends; [exact Hcl0|reflexivity].
    + destruct Hcase as [-> ->]. split; [discriminate|].
      intros e' _. split; [reflexivity|]. unfold events_since. simpl.
      apply drop_app_length.
Qed.

End Recovery.

(** ** Streams: what is and is not called *)

Section StreamEdges.
Context {O W : Type} (native : Native O W).

(** X11. A stream is not restartable and does nothing when it is not
    running: once completed, every further request leaves the world as it is
    ([next()] and [return()] report [done], [throw(e)] rejects with [e]);
    and a stream that the consumer leaves before its first [next()]
    completes without any native call. *)
Theorem stream_not_running_makes_no_call :
  (∀ (reqs : list Request) (g g' : StreamGenerator) (w w' : World W)
     (results : list (Outcome (option (QueryResult O)))),
     gen_state g = Completed →
     consume native reqs g w = (results, g', w') →
     w' = w ∧ g' = g ∧ results = map settled_when_completed reqs)
  ∧ (∀ (this : PostgresConnection) (q : CompiledQuery) (chunkSize : JsNumber)
       (r : Request) (reqs : list Request) (g' : StreamGenerator) (w w' : World W)
       (results : list (Outcome (option (QueryResult O)))),
       leaving_request r →
       consume native (r :: reqs) (streamQuery this q chunkSize) w = (results, g', w') →
       w' = w ∧ is_completed g' = true).
Proof.
  assert (Hdone : ∀ (reqs : list Request) (g g' : StreamGenerator) (w w' : World W)
     (results : list (Outcome (option (QueryResult O)))),
     gen_state g = Completed →
     consume native reqs g w = (results, g', w') →
     w' = w ∧ g' = g ∧ results = map settled_when_completed reqs).
  { induction reqs as [|r reqs IH]; intros g g' w w' results Hs H; simpl in H.
    - invert H. auto.
    - assert (Hstep : gen_step native r g w = (settled_when_completed r, g, w)).
      { destruct r; simpl; unfold gen_next, gen_return, gen_throw; rewrite Hs;
          reflexivity. }
      rewrite Hstep in H.
      destruct (consume native reqs g w) as [[ress g2] w2] eqn:Hrest.
      apply IH in Hrest as (-> & -> & ->); [|exact Hs]. invert H. auto. }
  split; [exact Hdone|].
  intros this q chunkSize r reqs g' w w' results Hleave H. simpl in H.
  assert (Hstep : ∃ res, gen_step native r (streamQuery this q chunkSize) w
                         = (res, finished (streamQuery this q chunkSize), w)).
  { destruct Hleave as [->|[e ->]]; simpl; eexists; reflexivity. }
  destruct Hstep as [res Hstep]. rewrite Hstep in H.
  destruct (consume native reqs _ w) as [[ress g2] w2] eqn:Hrest.
  apply Hdone in Hrest as (-> & -> & _); [|reflexivity]. invert H. auto.
Qed.

(** X12. The cursor is created before the [try] block: when the cursor
    constructor throws, or when [client.query(cursor)] throws, the step
    rejects with that error as it is, the stream is completed, and
    [close()] is not called, not even on the cursor that was constructed. *)
Theorem streamQuery_cursor_creation_failure (this : PostgresConnection)
    (q : CompiledQuery) (chunkSize : JsNumber) (ctor : CursorCtor) (w : World W) :
  cursor (conn_options this) = Some ctor →
  positive_integer chunkSize →
  (∀ e s1,
     cursor_new native ctor (sql q) (parameters q) (native_state w) = (Rejected e, s1) →
     gen_next native (streamQuery this q chunkSize) w
     = (Rejected e, finished (streamQuery this q chunkSize),
        mkWorld (driver w) (heap w) s1
          (trace w ++ [EvCursorNew ctor (sql q) (parameters q)])))
  ∧ (∀ cur s1 e s2,
       cursor_new native ctor (sql q) (parameters q) (native_state w)
         = (Resolved cur, s1) →
       client_query_cursor native (conn_client this) cur s1 = (Rejected e, s2) →
       gen_next native (streamQuery this q chunkSize) w
       = (Rejected e, finished (streamQuery this q chunkSize),
          mkWorld (driver w) (heap w) s2
            ((trace w ++ [EvCursorNew ctor (sql q) (parameters q)])
             ++ [EvQueryCursor (conn_client this) cur]))).
Proof.
  intros Hcur Hpos. split.
  - intros e s1 Hnew. unfold gen_next, stream_open. simpl.
    rewrite Hcur, (chunk_check_accepts chunkSize Hpos). unfold_M. simpl.
    rewrite Hnew. reflexivity.
  - intros cur s1 e s2 Hnew Hquery. unfold gen_next, stream_open. simpl.
    rewrite Hcur, (chunk_check_accepts chunkSize Hpos). unfold_M. simpl.
    rewrite Hnew. simpl. rewrite Hquery. reflexivity.
Qed.

(** X13. When [close()] rejects in the [finally] clause, its error is what
    the step rejects with, whatever was pending: the [done] of an exhausted
    cursor or of [return()], or the error of a failed read, which is lost.
    When [close()] resolves, the error of a failed read is passed on as it
    is.  Either way [close()] is called once and the stream is completed. *)
Theorem streamQuery_close_error_replaces_outcome (g : StreamGenerator)
    (cur : CursorRef) (w : World W) :
  gen_state g = SuspendedYield cur →
  (∀ e2 s2,
     cursor_close native cur (native_state w) = (Rejected e2, s2) →
     gen_return native g w
     = (Rejected e2, finished g,
        mkWorld (driver w) (heap w) s2 (trace w ++ [EvCursorClose cur])))
  ∧ (∀ read s1 e2 s2,
       cursor_read native cur (gen_chunkSize g) (native_state w) = (read, s1) →
       read = Resolved [] ∨ (∃ e1, read = Rejected e1) →
       cursor_close native cur s1 = (Rejected e2, s2) →
       gen_next native g w
       = (Rejected e2, finished g,
          mkWorld (driver w) (heap w) s2
            ((trace w ++ [EvCursorRead cur (gen_chunkSize g)]) ++ [EvCursorClose cur])))
  ∧ (∀ e1 s1 s2,
       cursor_read native cur (gen_chunkSize g) (native_state w) = (Rejected e1, s1) →
       cursor_close native cur s1 = (Resolved tt, s2) →
       gen_next native g w
       = (Rejected e1, finished g,
          mkWorld (driver w) (heap w) s2
            ((trace w ++ [EvCursorRead cur (gen_chunkSize g)]) ++ [EvCursorClose cur]))).
Proof.
  intros Hs. split; [|split].
  - intros e2 s2 Hclose. unfold gen_return, leave_try, call. rewrite Hs, Hclose.
    reflexivity.
  - intros read s1 e2 s2 Hread Hend Hclose.
    unfold gen_next, loop_turn, call. rewrite Hs, Hread.
    destruct Hend as [->|[e1 ->]]; simpl; unfold leave_try, call; simpl;
      rewrite Hclose; reflexivity.
  - intros e1 s1 s2 Hread Hclose.
    unfold gen_next, loop_turn, call. rewrite Hs, Hread. simpl.
    unfold leave_try, call. simpl. rewrite Hclose. reflexivity.
Qed.

(** The [for await] loop over a started stream, for any native side. *)
Lemma for_await_started (cur : CursorRef) (fuel : nat) :
  ∀ (g g' : StreamGenerator) (w w' : World W) (batches : list (QueryResult O))
    (e : LoopEnd),
  gen_state g = SuspendedYield cur →
  for_await native fuel g w = (batches, e, g', w') →
  Forall (λ b, rows b ≠ [] ∧ numAffectedRows b = None) batches
  ∧ length batches ≤ fuel
  ∧ is_completed g' = loop_ended e
  ∧ ∃ evs, trace w' = trace w ++ evs
      ∧ count is_cursor_read evs = length batches + (if loop_ended e then 1 else 0)
      ∧ count is_cursor_close evs = (if loop_ended e then 1 else 0).
Proof.
  induction fuel as [|fuel IH]; intros g g' w w' batches e Hs H; simpl in H.
  - invert H. split; [constructor|]. split; [simpl; lia|].
    split; [unfold is_completed; rewrite Hs; reflexivity|].
    exists []. rewrite app_nil_r. auto.
  - destruct (gen_next native g w) as [[res g1] w1] eqn:Hnext.
    pose proof (gen_next_at_yield native g g1 cur w w1 res Hs Hnext)
      as (read & s' & _ & Hcase).
    assert (Hend : is_completed g1 = true ∧ final_result res
              ∧ trace w1 = trace w ++ [EvCursorRead cur (gen_chunkSize g);
                                       EvCursorClose cur] →
              Forall (λ b, rows b ≠ [] ∧ numAffectedRows b = None) batches
              ∧ length batches ≤ S fuel
              ∧ is_completed g' = loop_ended e
              ∧ ∃ evs, trace w' = trace w ++ evs
                  ∧ count is_cursor_read evs
                    = length batches + (if loop_ended e then 1 else 0)
                  ∧ count is_cursor_close evs = (if loop_ended e then 1 else 0)).
    { intros (Hdone & Hfin & Ht).
      destruct Hfin as [->|[e' ->]]; invert H; simpl;
        (split; [constructor|]); (split; [lia|]); (split; [exact Hdone|]);
        eexists; (split; [exact Ht|]); split; reflexivity. }
    destruct read as [[|r batch]|e1].
    + apply Hend. exact Hcase.
    + destruct Hcase as (-> & Hs1 & Ht1).
      destruct (for_await native fuel g1 w1) as [[[batches1 e1] g2] w2] eqn:Hrest.
      invert H.
      apply IH in Hrest as (Hall & Hlen & Hdone & evs & Ht & Hr & Hc); [|exact Hs1].
      split; [constructor; [split; [discriminate|reflexivity]|exact Hall]|].
      split; [simpl; lia|]. split; [exact Hdone|].
      exists (EvCursorRead cur (gen_chunkSize g) :: evs).
      split; [rewrite Ht, Ht1, <- app_assoc; reflexivity|].
      simpl. rewrite Hr, Hc. split; [lia|reflexivity].
    + apply Hend. destruct Hcase as (Hdone & [e' ->] & Ht).
      split; [exact Hdone|]. split; [right; eauto|exact Ht].
Qed.

(** X14. A [for await] loop over a stream that opened its cursor, whatever
    the native side answers: every batch it receives holds at least one row
    and no affected-row count; when the loop ends (the stream is exhausted
    or failed) the stream is completed, [read] was called once more than
    there are batches and [close] once; if instead the consumer stops
    calling [next()] (the fuel runs out), there was one read per batch and
    the cursor is still open. *)
Theorem for_await_reads_and_closes (this : PostgresConnection) (q : CompiledQuery)
    (chunkSize : JsNumber) (fuel : nat) (cur : CursorRef) (w w0 w' : World W)
    (g' : StreamGenerator) (batches : list (QueryResult O)) (e : LoopEnd) :
  stream_open native (streamQuery this q chunkSize) w = (Resolved cur, w0) →
  for_await native (S fuel) (streamQuery this q chunkSize) w = (batches, e, g', w') →
  Forall (λ b, rows b ≠ [] ∧ numAffectedRows b = None) batches
  ∧ length batches ≤ S fuel
  ∧ is_completed g' = loop_ended e
  ∧ count is_cursor_read (events_since w w')
    = length batches + (if loop_ended e then 1 else 0)
  ∧ count is_cursor_close (events_since w w') = (if loop_ended e then 1 else 0).
Proof.
  intros Hopen H.
  set (g1 := mkGen this q chunkSize (SuspendedYield cur)).
  assert (Hsame : for_await native (S fuel) (streamQuery this q chunkSize) w
                  = for_await native (S fuel) g1 w0).
  { cbn [for_await]. unfold gen_next at 1. cbn [gen_state streamQuery].
    rewrite Hopen. reflexivity. }
  rewrite Hsame in H.
  apply (for_await_started cur) in H as (Hall & Hlen & Hdone & evs & Ht & Hr & Hc);
    [|reflexivity].
  split; [exact Hall|]. split; [exact Hlen|]. split; [exact Hdone|].
  assert (Hopened : ∃ evs0, trace w0 = trace w ++ evs0
                    ∧ count is_cursor_close evs0 = 0 ∧ count is_cursor_read evs0 = 0).
  { clear -Hopen. unfold stream_open in Hopen. simpl in Hopen.
    destruct (cursor (conn_options this)) as [ctor|]; [|discriminate].
    destruct (negb (Number_isInteger chunkSize) || le_zero chunkSize); [discriminate|].
    unfold_M. simpl in Hopen.
    destruct (cursor_new native _ _ _ _) as [[sub|e] s1]; [|discriminate].
    simpl in Hopen.
    destruct (client_query_cursor native _ _ _) as [[c|e] s2]; [|discriminate].
    invert Hopen. simpl. eexists. rewrite <- app_assoc. repeat split. }
  destruct Hopened as (evs0 & Ht0 & Hc0 & Hr0).
  rewrite (events_since_app w w' (evs0 ++ evs)).
  - rewrite !count_app, Hc0, Hr0, Hr, Hc. split; reflexivity.
  - rewrite Ht, Ht0, app_assoc. reflexivity.
Qed.

End StreamEdges.

(** ** Streams and the driver; the [client] field in pool mode *)

Section StreamFrame.
Context {O W : Type} (native : Native O W).

(** One request: the driver and the heap are left alone, the fields of the
    generator too, and the native calls are calls of the stream. *)
Lemma gen_step_events (r : Request) (g g' : StreamGenerator) (w w' : World W)
    (res : Outcome (option (QueryResult O))) :
  gen_step native r g w = (res, g', w') →
  driver w' = driver w ∧ heap w' = heap w
  ∧ gen_this g' = gen_this g ∧ gen_query g' = gen_query g
  ∧ gen_chunkSize g' = gen_chunkSize g
  ∧ not_started g' = false
  ∧ ∃ evs, trace w' = trace w ++ evs
           ∧ Forall (stream_event g) evs
           ∧ count is_cursor_new evs ≤ (if not_started g then 1 else 0).
Proof.
  assert (Hleave : ∀ cur pending (w1 : World W),
            leave_try native g cur pending w1 = (res, g', w') →
            driver w' = driver w1 ∧ heap w' = heap w1
            ∧ gen_this g' = gen_this g ∧ gen_query g' = gen_query g
            ∧ gen_chunkSize g' = gen_chunkSize g
            ∧ not_started g' = false
            ∧ trace w' = trace w1 ++ [EvCursorClose cur]).
  { intros cur pending w1 H. unfold leave_try, call in H.
    destruct (cursor_close native cur (native_state w1)) as [[[]|e] s1];
      invert H; repeat split. }
  assert (Hturn : ∀ cur (w1 : World W),
            loop_turn native g cur w1 = (res, g', w') →
            driver w' = driver w1 ∧ heap w' = heap w1
            ∧ gen_this g' = gen_this g ∧ gen_query g' = gen_query g
            ∧ gen_chunkSize g' = gen_chunkSize g
            ∧ not_started g' = false
            ∧ ∃ evs, trace w' = trace w1 ++ EvCursorRead cur (gen_chunkSize g) :: evs
                     ∧ Forall (stream_event g) evs
                     ∧ count is_cursor_new evs = 0).
  { intros cur w1 H. unfold loop_turn, call in H.
    destruct (cursor_read native cur (gen_chunkSize g) (native_state w1))
      as [[batch|e] s1].
    - destruct (Nat.eqb (length batch) 0).
      + apply Hleave in H as (Hd & Hh & Ht & Hq & Hc & Hn & Htr). simpl in *.
        repeat (split; [assumption|]).
        exists [EvCursorClose cur]. rewrite Htr, <- app_assoc.
        split; [reflexivity|]. split; [repeat constructor|reflexivity].
      + invert H. simpl. repeat (split; [reflexivity|]).
        exists []. split; [reflexivity|]. split; [constructor|reflexivity].
    - apply Hleave in H as (Hd & Hh & Ht & Hq & Hc & Hn & Htr). simpl in *.
      repeat (split; [assumption|]).
      exists [EvCursorClose cur]. rewrite Htr, <- app_assoc.
      split; [reflexivity|]. split; [repeat constructor|reflexivity]. }
  intros H.
  destruct r as [| |e]; simpl in H; unfold gen_next, gen_return, gen_throw in H;
    unfold not_started at 2; destruct (gen_state g) as [|cur|] eqn:Hs.
  - (* next(), not started *)
    destruct (stream_open native g w) as [[cur|e] w1] eqn:Hopen.
    + apply Hturn in H as (Hd & Hh & Ht & Hq & Hc & Hn & evs & Htr & Hall & Hnew).
      unfold stream_open in Hopen.
      destruct (cursor (conn_options (gen_this g))) as [ctor|] eqn:Hctor;
        [|discriminate].
      destruct (negb (Number_isInteger (gen_chunkSize g)) || le_zero (gen_chunkSize g));
        [discriminate|].
      unfold_M. unfold call in Hopen.
      destruct (cursor_new native _ _ _ _) as [[sub|e] s1]; [|discriminate].
      simpl in Hopen.
      destruct (client_query_cursor native _ _ _) as [[c|e] s2]; [|discriminate].
      invert Hopen. simpl in *.
      repeat (split; [assumption|]).
      eexists. split; [rewrite Htr, <- !app_assoc; simpl; reflexivity|].
      split.
      * constructor; [simpl; auto|]. constructor; [reflexivity|].
        constructor; [reflexivity|exact Hall].
      * simpl. rewrite Hnew. lia.
    + invert H. unfold stream_open in Hopen.
      destruct (cursor (conn_options (gen_this g))) as [ctor|] eqn:Hctor.
      * destruct (negb (Number_isInteger (gen_chunkSize g))
                  || le_zero (gen_chunkSize g)).
        -- invert Hopen. repeat (split; [reflexivity|]).
           exists []. rewrite app_nil_r. split; [reflexivity|].
           split; [constructor|simpl; lia].
        -- unfold_M. unfold call in Hopen.
           destruct (cursor_new native _ _ _ _) as [[sub|e'] s1].
           ++ simpl in Hopen.
              destruct (client_query_cursor native _ _ _) as [[c|e'] s2];
                [discriminate|].
              invert Hopen. simpl. repeat (split; [reflexivity|]).
              eexists. split; [rewrite <- app_assoc; simpl; reflexivity|].
              split; [|simpl; lia].
              constructor; [simpl; auto|]. constructor; [reflexivity|constructor].
           ++ invert Hopen. simpl. repeat (split; [reflexivity|]).
              eexists. split; [reflexivity|].
              split; [|simpl; lia]. constructor; [simpl; auto|constructor].
      * invert Hopen. repeat (split; [reflexivity|]).
        exists []. rewrite app_nil_r. split; [reflexivity|].
        split; [constructor|simpl; lia].
  - (* next(), at the yield *)
    apply Hturn in H as (Hd & Hh & Ht & Hq & Hc & Hn & evs & Htr & Hall & Hnew).
    repeat (split; [assumption|]).
    eexists. split; [exact Htr|]. split; [constructor; [reflexivity|exact Hall]|].
    simpl. rewrite Hnew. lia.
  - invert H. repeat (split; [try reflexivity|]).
    { unfold not_started. rewrite Hs. reflexivity. }
    exists []. rewrite app_nil_r. split; [reflexivity|]. split; [constructor|simpl; lia].
  - invert H. repeat (split; [reflexivity|]).
    exists []. rewrite app_nil_r. split; [reflexivity|]. split; [constructor|simpl; lia].
  - apply Hleave in H as (Hd & Hh & Ht & Hq & Hc & Hn & Htr).
    repeat (split; [assumption|]).
    eexists. split; [exact Htr|]. split; [repeat constructor|simpl; lia].
  - invert H. repeat (split; [try reflexivity|]).
    { unfold not_started. rewrite Hs. reflexivity. }
    exists []. rewrite app_nil_r. split; [reflexivity|]. split; [constructor|simpl; lia].
  - invert H. repeat (split; [reflexivity|]).
    exists []. rewrite app_nil_r. split; [reflexivity|]. split; [constructor|simpl; lia].
  - apply Hleave in H as (Hd & Hh & Ht & Hq & Hc & Hn & Htr).
    repeat (split; [assumption|]).
    eexists. split; [exact Htr|]. split; [repeat constructor|simpl; lia].
  - invert H. repeat (split; [try reflexivity|]).
    { unfold not_started. rewrite Hs. reflexivity. }
    exists []. rewrite app_nil_r. split; [reflexivity|]. split; [constructor|simpl; lia].
Qed.

Lemma stream_event_same (g g' : StreamGenerator) (ev : Event) :
  gen_this g' = gen_this g → gen_query g' = gen_query g →
  gen_chunkSize g' = gen_chunkSize g →
  stream_event g' ev → stream_event g ev.
Proof.
  intros Ht Hq Hc. destruct ev; simpl; rewrite ?Ht, ?Hq, ?Hc; auto.
Qed.

(** X15. Whatever the consumer requests of a stream, in whatever state it
    is, the stream changes nothing in the driver and creates no wrapper;
    the only native calls it makes are the construction of one cursor (at
    most once, with the constructor of its wrapper and the text and
    parameters of its query), the submission of a cursor to the client of
    its wrapper, reads of exactly [chunkSize] rows, and closes.  In
    particular it never releases the client and never ends it. *)
Theorem stream_touches_only_its_cursor (reqs : list Request) :
  ∀ (g g' : StreamGenerator) (w w' : World W)
    (results : list (Outcome (option (QueryResult O)))),
  consume native reqs g w = (results, g', w') →
  driver w' = driver w ∧ heap w' = heap w
  ∧ length results = length reqs
  ∧ Forall (stream_event g) (events_since w w')
  ∧ count is_cursor_new (events_since w w') ≤ (if not_started g then 1 else 0).
Proof.
  assert (Hgen : ∀ (g g' : StreamGenerator) (w w' : World W)
            (results : list (Outcome (option (QueryResult O)))),
            consume native reqs g w = (results, g', w') →
            driver w' = driver w ∧ heap w' = heap w
            ∧ length results = length reqs
            ∧ ∃ evs, trace w' = trace w ++ evs
                ∧ Forall (stream_event g) evs
                ∧ count is_cursor_new evs ≤ (if not_started g then 1 else 0)).
  { induction reqs as [|r reqs IH]; intros g g' w w' results H; simpl in H.
    - invert H. repeat (split; [reflexivity|]).
      exists []. rewrite app_nil_r. split; [reflexivity|].
      split; [constructor|simpl; lia].
    - destruct (gen_step native r g w) as [[res g1] w1] eqn:Hstep.
      destruct (consume native reqs g1 w1) as [[ress g2] w2] eqn:Hrest.
      invert H.
      apply gen_step_events in Hstep
        as (Hd & Hh & Ht & Hq & Hc & Hn & evs1 & Htr1 & Hall1 & Hnew1).
      apply IH in Hrest as (Hd2 & Hh2 & Hlen & evs2 & Htr2 & Hall2 & Hnew2).
      rewrite Hn in Hnew2.
      split; [congruence|]. split; [congruence|]. split; [simpl; congruence|].
      exists (evs1 ++ evs2).
      split; [rewrite Htr2, Htr1, app_assoc; reflexivity|]. split.
      + apply Forall_app. split; [exact Hall1|].
        eapply Forall_impl; [exact Hall2|].
        intros ev. apply stream_event_same; assumption.
      + rewrite count_app. lia. }
  intros g g' w w' results H.
  apply Hgen in H as (Hd & Hh & Hlen & evs & Htr & Hall & Hnew).
  rewrite (events_since_app w w' evs Htr). auto.
Qed.

End StreamFrame.

Section ClientField.
Context {O W : Type} (native : Native O W).

Lemma configured_own (w : World W) : configured (d_config (driver w)) w = w.
Proof. destruct w as [[] ? ? ?]. reflexivity. Qed.

(** One call of a pool-mode driver does not read [config.client]. *)
Lemma perform_configured (c1 c2 : PostgresDialectConfig) (call : DriverCall)
    (w : World W) :
  same_but_client c1 c2 →
  isPoolConfig c1 = true →
  perform native call (configured c2 w)
  = (fst (perform native call (configured c1 w)),
     configured c2 (snd (perform native call (configured c1 w)))).
Proof.
  intros (Hp & Hcur & Hhook) Hpool.
  unfold isPoolConfig in Hpool.
  destruct (cfg_pool c1) as [pool|] eqn:Hc1; [clear Hpool|discriminate].
  destruct call as [| |connection settings|connection|connection|connection|];
    unfold perform, init, acquireConnection, beginTransaction, commitTransaction,
      rollbackTransaction, releaseConnection, PRIVATE_RELEASE_METHOD, destroy,
      executeQuery, set_pool, connections_set, isPoolConfig;
    unfold_M; cbn; rewrite ?Hp, ?Hc1, ?Hcur, ?Hhook; cbn;
    repeat (case_match; unfold_M; cbn in *; simplify_eq; rewrite ?Hcur;
            try reflexivity; try congruence).
  all: match goal with
       | H : ?x = inl ?a, H' : ?x = inl ?b |- _ => rewrite H in H'; injection H' as ->
       end; reflexivity.
Qed.

Lemma perform_all_configured (c1 c2 : PostgresDialectConfig) (calls : list DriverCall) :
  same_but_client c1 c2 →
  isPoolConfig c1 = true →
  ∀ (w : World W),
    perform_all native calls (configured c2 w)
    = (fst (perform_all native calls (configured c1 w)),
       configured c2 (snd (perform_all native calls (configured c1 w)))).
Proof.
  intros Hsame Hpool.
  induction calls as [|c calls IH]; intros w; [reflexivity|].
  cbn [perform_all]. rewrite (perform_configured c1 c2 c w Hsame Hpool).
  destruct (perform native c (configured c1 w)) as [r w1] eqn:Hstep. cbn [fst snd].
  assert (Hw1 : w1 = configured c1 w1).
  { apply perform_heap in Hstep as [Hcfg _]. cbn in Hcfg.
    rewrite <- Hcfg. symmetry. apply configured_own. }
  rewrite IH. rewrite <- Hw1.
  destruct (perform_all native calls w1) as [rs w2]. reflexivity.
Qed.

(** X16. A driver whose configuration has a pool never reads the [client]
    field: two dialects whose configurations have the same pool, cursor and
    hook create drivers that, for the same calls on the same native side,
    return the same results and make the same native calls; the worlds they
    reach differ in the stored configuration only. *)
Theorem pool_mode_ignores_the_client_field (d1 d2 : PostgresDialect) (s : W)
    (calls : list DriverCall) (rs : list (Outcome Returned)) (w : World W) :
  same_but_client (dialect_config d1) (dialect_config d2) →
  isPoolConfig (dialect_config d1) = true →
  perform_all native calls (created_by d1 s) = (rs, w) →
  perform_all native calls (created_by d2 s) = (rs, configured (dialect_config d2) w).
Proof.
  intros Hsame Hpool Hrun.
  pose proof (perform_all_configured (dialect_config d1) (dialect_config d2) calls
                Hsame Hpool (created_by d1 s)) as H.
  change (configured (dialect_config d2) (created_by d1 s)) with (created_by d2 s) in H.
  change (configured (dialect_config d1) (created_by d1 s)) with (created_by d1 s) in H.
  rewrite Hrun in H. exact H.
Qed.

End ClientField.

(** ** The further properties at concrete inputs *)

(** A [DELETE] for which the client reports no [rowCount] is rejected. *)
Lemma executeQuery_delete_without_row_count :
  ∃ e w', executeQuery (sample_native delete_answer) plain_connection select_all
            (five_rows lazy_pool_config) = (Rejected e, w').
Proof.
  destruct (executeQuery_one_call_and_outcome (sample_native delete_answer)
              plain_connection select_all (five_rows lazy_pool_config))
    as (ans & s' & r & Hq & Hex & Hiff & _).
  simpl in Hq. injection Hq as <- <-.
  destruct r as [res|e].
  - destruct (proj1 Hiff (ex_intro _ res eq_refl)) as (pg & Hpg & Hcount).
    injection Hpg as <-.
    destruct Hcount as (n & x & Hx & _); [right; right; reflexivity|discriminate].
  - eexists _, _. exact Hex.
Defined.

Lemma beginTransaction_serializable :
  events_since pool_acquired pool_began
  = [EvQuery 11 "start transaction isolation level serializable" []].
Proof.
  destruct (proj1 (transaction_calls_send_one_statement update_native 0
                     streaming_connection pool_acquired eq_refl)
              serializable (Resolved tt) pool_began)
    as (_ & _ & Hevs & _).
  - vm_compute. reflexivity.
  - exact Hevs.
Defined.

Lemma releaseConnection_single_client_is_a_no_op :
  releaseConnection (faulty_native NoFault update_answer) 0 single_acquired
  = (Resolved tt, single_acquired)
  ∧ events_since pool_acquired pool_client_released = [EvRelease 11].
Proof.
  split.
  - vm_compute. reflexivity.
  - destruct (releaseConnection_releases_pool_clients_only
                (faulty_native NoFault update_answer) 0 streaming_connection
                pool_acquired pool_client_released (Resolved tt))
      as (_ & _ & Hpool & _).
    + reflexivity.
    + vm_compute. reflexivity.
    + apply Hpool. reflexivity.
Defined.

Lemma acquireConnection_before_init_and_after_destroy :
  acquireConnection update_native (five_rows lazy_pool_config)
  = (Rejected (undefined_has_no "connect"), five_rows lazy_pool_config)
  ∧ acquireConnection update_native pool_destroyed
    = (Rejected (undefined_has_no "connect"), pool_destroyed)
  ∧ acquireConnection (faulty_native PoolConnectFails update_answer) pool_ready
    = (Rejected native_failure, pool_connect_failed).
Proof.
  split; [|split].
  - apply (proj1 (acquireConnection_pool_failures update_native)). reflexivity.
  - apply (proj1 (proj2 (acquireConnection_pool_failures update_native))
             lazy_pool_config [1; 2; 3; 4; 5]
             [Init; AcquireConnection; ReleaseConnection 0; AcquireConnection]
             [Resolved RVoid; Resolved (RConnection 0); Resolved RVoid;
              Resolved (RConnection 0)]
             pool_acquired_again pool_destroyed (Resolved tt)).
    + reflexivity.
    + vm_compute. reflexivity.
    + vm_compute. reflexivity.
  - rewrite (proj2 (proj2 (acquireConnection_pool_failures
                             (faulty_native PoolConnectFails update_answer)))
               pool_ready 7%positive native_failure [1; 2; 3; 4; 5]).
    + vm_compute. reflexivity.
    + reflexivity.
    + reflexivity.
    + reflexivity.
Defined.

Lemma acquireConnection_after_failed_hook :
  acquireConnection (faulty_native HookFails update_answer) hook_failed
  = (Resolved 0, hook_failed_then_acquired)
  ∧ count is_hook (events_since hook_failed hook_failed_then_acquired) = 0.
Proof.
  split; [vm_compute; reflexivity|].
  destruct (acquireConnection_hook_failure_is_not_retried
              (faulty_native HookFails update_answer)
              lazy_pool_config [1; 2; 3; 4; 5] [Init] [] [Resolved RVoid] []
              pool_ready hook_failed hook_failed hook_failed_then_acquired
              11%positive native_failure (Resolved 0))
    as (_ & _ & _ & _ & _ & _ & _ & _ & _ & Hnohook).
  - reflexivity.
  - vm_compute. reflexivity.
  - exists 7%positive, [1; 2; 3; 4; 5]. split; vm_compute; reflexivity.
  - vm_compute. reflexivity.
  - vm_compute. reflexivity.
  - exists 7%positive, [1; 2; 3; 4; 5]. split; vm_compute; reflexivity.
  - vm_compute. reflexivity.
  - exact Hnohook.
Defined.

Lemma pool_wrapper_wraps_client_11 :
  heap pool_acquired_again !! 0 = Some (wrapper_of (driver pool_acquired_again) 11).
Proof.
  destruct (acquireConnection_pool_wrapper_has_one_handle update_native
              lazy_pool_config [1; 2; 3; 4; 5] [Init] [ReleaseConnection 0]
              [Resolved RVoid] [Resolved RVoid]
              pool_ready pool_acquired pool_released pool_acquired_again
              11%positive 11%positive 0)
    as (_ & _ & Hheap).
  - reflexivity.
  - vm_compute. reflexivity.
  - exists 7%positive, [1; 2; 3; 4; 5]. split; vm_compute; reflexivity.
  - vm_compute. reflexivity.
  - vm_compute. reflexivity.
  - exists 7%positive, [1; 2; 3; 4; 5]. split; vm_compute; reflexivity.
  - vm_compute. reflexivity.
  - exact Hheap.
Defined.

Lemma pool_driver_never_touches_a_client :
  count is_client_side (trace pool_destroyed) = 0
  ∧ count is_pool_side (trace single_acquired_thrice) = 0.
Proof.
  split.
  - apply (proj1 (driver_mode_is_fixed update_native lazy_pool_config [1; 2; 3; 4; 5]
                    [Init; AcquireConnection; ReleaseConnection 0; AcquireConnection;
                     Destroy]
                    [Resolved RVoid; Resolved (RConnection 0); Resolved RVoid;
                     Resolved (RConnection 0); Resolved RVoid]
                    pool_destroyed ltac:(vm_compute; reflexivity))).
    reflexivity.
  - apply (proj2 (driver_mode_is_fixed update_native lazy_client_config [1; 2; 3; 4; 5]
                    [AcquireConnection; AcquireConnection; Destroy; AcquireConnection]
                    [Resolved (RConnection 0); Resolved (RConnection 0); Resolved RVoid;
                     Resolved (RConnection 0)]
                    single_acquired_thrice ltac:(vm_compute; reflexivity))).
    reflexivity.
Defined.

Lemma streamQuery_on_a_pool_without_cursor :
  heap no_cursor_acquired !! 0 = Some plain_connection
  ∧ gen_next update_native (streamQuery plain_connection select_all (of_Z 2))
      no_cursor_acquired
    = (Rejected (Error_at "PostgresConnection.streamQuery" cursor_missing_message),
       finished (streamQuery plain_connection select_all (of_Z 2)),
       no_cursor_acquired).
Proof.
  split; [reflexivity|].
  apply (proj2 (wrappers_carry_the_configured_cursor update_native
                  no_cursor_pool_config [1; 2; 3; 4; 5] [Init; AcquireConnection]
                  [Resolved RVoid; Resolved (RConnection 0)]
                  no_cursor_acquired 0 plain_connection
                  ltac:(vm_compute; reflexivity) eq_refl)).
  reflexivity.
Defined.

Lemma single_client_that_never_connected_is_ended :
  ∃ w1,
    acquireConnection (faulty_native ClientConnectFails update_answer)
      (five_rows lazy_client_config) = (Rejected native_failure, w1)
    ∧ d_singleClient (driver w1) = Some 5%positive
    ∧ d_singleConnection (driver w1) = None.
Proof.
  destruct (acquireConnection_failed_connect_keeps_client
              (faulty_native ClientConnectFails update_answer)
              (five_rows lazy_client_config) 5%positive native_failure
              [1; 2; 3; 4; 5] [1; 2; 3; 4; 5])
    as (w1 & Hacq & _ & Hclient & Hconn & _).
  - reflexivity.
  - reflexivity.
  - reflexivity.
  - reflexivity.
  - reflexivity.
  - exists w1. auto.
Defined.

Lemma init_after_destroy_opens_the_pool_again :
  (∃ p, d_pool (driver pool_initialised_again) = Some p)
  ∧ driver pool_factory_failed = driver (five_rows lazy_pool_config).
Proof.
  split.
  - destruct (proj1 (init_rearms_destroy update_native lazy_pool_config [1; 2; 3; 4; 5]
                       [Init; AcquireConnection; ReleaseConnection 0; AcquireConnection;
                        Destroy]
                       [Resolved RVoid; Resolved (RConnection 0); Resolved RVoid;
                        Resolved (RConnection 0); Resolved RVoid]
                       pool_destroyed pool_initialised_again (Resolved tt)
                       eq_refl ltac:(vm_compute; reflexivity)
                       ltac:(vm_compute; reflexivity)) eq_refl)
      as (p & Hp & _).
    exists p. exact Hp.
  - apply (proj2 (init_rearms_destroy (faulty_native PoolFactoryFails update_answer)
                    lazy_pool_config [1; 2; 3; 4; 5] [] []
                    (five_rows lazy_pool_config) pool_factory_failed
                    (Rejected native_failure)
                    eq_refl eq_refl ltac:(vm_compute; reflexivity))
             native_failure eq_refl).
Defined.

Lemma completed_stream_stays_completed :
  consume update_native [Next; Return; Throw native_failure] (finished stream_by_two)
    (five_rows lazy_pool_config)
  = ([Resolved None; Resolved None; Rejected native_failure], finished stream_by_two,
     five_rows lazy_pool_config)
  ∧ snd (consume update_native [Return; Next] stream_by_two (five_rows lazy_pool_config))
    = five_rows lazy_pool_config.
Proof.
  split; [vm_compute; reflexivity|].
  destruct (consume update_native [Return; Next] stream_by_two
              (five_rows lazy_pool_config)) as [[results g'] w'] eqn:H.
  apply (proj2 (stream_not_running_makes_no_call update_native)) in H as [-> _].
  - reflexivity.
  - left. reflexivity.
Defined.

Lemma failed_cursor_is_not_closed :
  gen_next (faulty_native CursorQueryFails update_answer) stream_by_two
    (five_rows lazy_pool_config)
  = (Rejected native_failure, finished stream_by_two,
     mkWorld (driver (five_rows lazy_pool_config)) [] [1; 2; 3; 4; 5]
       [EvCursorNew 1 (sql select_all) []; EvQueryCursor 11 3]).
Proof.
  apply (proj2 (streamQuery_cursor_creation_failure
                  (faulty_native CursorQueryFails update_answer)
                  streaming_connection select_all (of_Z 2) 1%positive
                  (five_rows lazy_pool_config) eq_refl
                  (ex_intro _ 2%Z (conj eq_refl
                     (ex_intro _ (inject_Z 2) (conj eq_refl (Qeq_refl _))))))
           3%positive [1; 2; 3; 4; 5] native_failure [1; 2; 3; 4; 5]);
    reflexivity.
Defined.

Lemma failed_close_hides_done :
  gen_next (faulty_native CloseFails update_answer) stream_at_yield
    (exhausted_cursor lazy_pool_config)
  = (Rejected native_failure, finished stream_at_yield,
     mkWorld (driver (exhausted_cursor lazy_pool_config)) [] []
       [EvCursorRead 3 (of_Z 2); EvCursorClose 3]).
Proof.
  apply (proj1 (proj2 (streamQuery_close_error_replaces_outcome
                         (faulty_native CloseFails update_answer) stream_at_yield
                         3%positive (exhausted_cursor lazy_pool_config) eq_refl))
           (Resolved []) [] native_failure []).
  - reflexivity.
  - left. reflexivity.
  - reflexivity.
Defined.

Lemma two_turns_leave_the_cursor_open :
  count is_cursor_read (events_since (five_rows lazy_pool_config) (snd two_turns)) = 2
  ∧ count is_cursor_close (events_since (five_rows lazy_pool_config) (snd two_turns)) = 0.
Proof.
  destruct (for_await_reads_and_closes update_native streaming_connection select_all
              (of_Z 2) 1 3%positive (five_rows lazy_pool_config) stream_opened
              (snd two_turns) (snd (fst two_turns)) (fst (fst (fst two_turns)))
              (snd (fst (fst two_turns))))
    as (_ & _ & _ & Hreads & Hcloses).
  - vm_compute. reflexivity.
  - vm_compute. reflexivity.
  - split; [exact Hreads|exact Hcloses].
Defined.

Lemma stream_left_early_made_one_cursor :
  driver (snd stream_left_early) = driver (five_rows lazy_pool_config)
  ∧ heap (snd stream_left_early) = []
  ∧ count is_cursor_new (events_since (five_rows lazy_pool_config) (snd stream_left_early))
    ≤ 1.
Proof.
  destruct (stream_touches_only_its_cursor update_native [Next; Next; Return; Next]
              stream_by_two (snd (fst stream_left_early)) (five_rows lazy_pool_config)
              (snd stream_left_early) (fst (fst stream_left_early)))
    as (Hdriver & Hheap & _ & _ & Hnew).
  - vm_compute. reflexivity.
  - split; [exact Hdriver|]. split; [exact Hheap|exact Hnew].
Defined.

Lemma pool_and_client_runs_as_pool_only :
  perform_all update_native [Init; AcquireConnection; Destroy]
    (created_by (mkDialect pool_and_client_config) [1; 2; 3; 4; 5])
  = (fst pool_only_run, configured pool_and_client_config (snd pool_only_run)).
Proof.
  apply (pool_mode_ignores_the_client_field update_native
           (mkDialect pool_only_config) (mkDialect pool_and_client_config)).
  - split; [reflexivity|]. split; reflexivity.
  - reflexivity.
  - vm_compute. reflexivity.
Defined.
